(** * GPS bus tracking: the in-memory store, the location endpoint and the
      client-side arrival estimate

    A shallow embedding of

    - [MemStorage] (server storage: six [Map]s and six id counters),
    - the bus, route, bus stop and driver endpoints of
      [server/routes.ts], the [PUT /api/buses/:id/location] handler
      among them,
    - registration, email verification and the login check of
      [server/auth.ts],
    - [calculateETA] and [nextStops] of the bus information panel, and
      [getNearestBuses] of the home page.

    Modelling choices.

    - JavaScript numbers that the code computes with (coordinates, speed,
      distances, minutes) are IEEE-754 binary64 values and are modelled
      by Rocq's primitive floats, so every concrete evaluation below is
      the value the JavaScript engine produces.  General statements
      about them are proved from the specification of the primitive
      operations ([FloatAxioms]).
    - Record ids and the id counters hold small integers only and are
      modelled in [Z]; they are exact in binary64 below 2^53, a count of
      records no in-memory store reaches.
    - A JavaScript string is held as its UTF-8 bytes; [===] on strings
      is equality of the bytes.
    - A [Map] is a finite map ([gmap]).  Where the code lists a map
      ([Array.from(m.values())]) the rows come in ascending key order,
      the order in which the store has set the keys.
    - The storage methods are [async] but contain no [await]: each runs
      to completion, so a call is one state transition, written with
      explicit state passing.  A handler is one transition too, unless
      it awaits something outside the store between reading the store
      and writing it: registration does, and is two transitions.
    - What the environment supplies is an argument: the random token
      and the current time of [createUser], [createPayment] and
      [markPaymentAsPaid], the values of [Math.random()], the session
      user of a request. *)

From Stdlib Require Import ZArith Floats Uint63 Ascii Permutation.
From stdpp Require Import gmap strings list sorting.

Set Warnings "-inexact-float,-register-all".
Local Open Scope Z_scope.

(* ===================================================================== *)
(** ** JavaScript number primitives *)
(* ===================================================================== *)

Module JS.

(** A specification-level float that is a zero or a finite number. *)
Definition finite_spec (x : spec_float) : bool :=
  match x with
  | S754_zero _ | S754_finite _ _ _ => true
  | _ => false
  end.

(** [Number.isFinite]: neither NaN nor an infinity. *)
Definition isFinite (x : float) : bool := finite_spec (Prim2SF x).

(** [x === 0]: [+0] or [-0]. *)
Definition isZero (x : float) : bool :=
  match Prim2SF x with
  | S754_zero _ => true
  | _ => false
  end.

(** Truthiness of a number: everything but [+0], [-0] and [NaN]. *)
Definition truthy (x : float) : bool :=
  match Prim2SF x with
  | S754_zero _ | S754_nan => false
  | _ => true
  end.

(** [v || d] for a nullable number [v]. *)
Definition or_else (v : option float) (d : float) : float :=
  match v with
  | Some x => if truthy x then x else d
  | None => d
  end.

(** An integer of magnitude at most 2^53 as the binary64 value it is. *)
Definition of_int (n : Z) : float :=
  if n <? 0 then (- of_uint63 (Uint63.of_Z (- n)))%float
  else of_uint63 (Uint63.of_Z n).

(** [Math.round]: the nearest integer, ties towards +infinity; a value
    in [-0.5, -0] rounds to [-0].  A finite double with a non-negative
    exponent is an integer already. *)
Definition Math_round (x : float) : float :=
  match Prim2SF x with
  | S754_finite s m e =>
      if 0 <=? e then x
      else
        let n := ((if s then Z.neg m else Z.pos m) * 2 + 2 ^ (- e)) / 2 ^ (1 - e) in
        if n =? 0 then (if s then (-0)%float else 0%float) else of_int n
  | _ => x
  end.

(** [Math.floor]. *)
Definition Math_floor (x : float) : float :=
  match Prim2SF x with
  | S754_finite s m e =>
      if 0 <=? e then x
      else
        let n := (if s then Z.neg m else Z.pos m) / 2 ^ (- e) in
        if n =? 0 then 0%float else of_int n
  | _ => x
  end.

(** The white space that [parseInt] trims, by code point: the
    [StrWhiteSpaceChar] of ECMAScript, which is [WhiteSpace] (TAB, VT,
    FF, U+FEFF and the space separators U+0020, U+00A0, U+1680,
    U+2000 to U+200A, U+202F, U+205F, U+3000) and [LineTerminator]
    (LF, CR, U+2028, U+2029). *)
Definition StrWhiteSpaceChar (c : Z) : bool :=
  ((9 <=? c) && (c <=? 13)) || (c =? 32) || (c =? 160) || (c =? 5760)
  || ((8192 <=? c) && (c <=? 8202)) || (c =? 8232) || (c =? 8233)
  || (c =? 8239) || (c =? 8287) || (c =? 12288) || (c =? 65279).

Definition byte (a : Ascii.ascii) : Z := Z.of_nat (Ascii.nat_of_ascii a).

(** A continuation byte of UTF-8. *)
Definition continues (a : Ascii.ascii) : bool :=
  (128 <=? byte a) && (byte a <=? 191).

(** White space in one byte: the code point is the byte. *)
Definition is_space (a : Ascii.ascii) : bool :=
  (byte a <=? 127) && StrWhiteSpaceChar (byte a).

(** White space in two bytes: a code point from U+0080 to U+07FF. *)
Definition is_space2 (a b : Ascii.ascii) : bool :=
  (194 <=? byte a) && (byte a <=? 223) && continues b
  && StrWhiteSpaceChar ((byte a - 192) * 64 + (byte b - 128)).

(** White space in three bytes: a code point from U+0800 to U+FFFF.
    No code point above U+FFFF is white space. *)
Definition is_space3 (a b c : Ascii.ascii) : bool :=
  let code := (byte a - 224) * 4096 + (byte b - 128) * 64 + (byte c - 128) in
  (224 <=? byte a) && (byte a <=? 239) && continues b && continues c
  && (2048 <=? code) && StrWhiteSpaceChar code.

(** The string without its leading white space. *)
Fixpoint skip_space (s : string) : string :=
  match s with
  | String a s1 =>
      if is_space a then skip_space s1
      else
        match s1 with
        | String b s2 =>
            if is_space2 a b then skip_space s2
            else
              match s2 with
              | String c s3 => if is_space3 a b c then skip_space s3 else s
              | EmptyString => s
              end
        | EmptyString => s
        end
  | EmptyString => s
  end.

Definition digit_value (radix : Z) (a : Ascii.ascii) : option Z :=
  let n := Z.of_nat (Ascii.nat_of_ascii a) in
  let d :=
    if (48 <=? n) && (n <=? 57) then Some (n - 48)
    else if (97 <=? n) && (n <=? 122) then Some (n - 87)
    else if (65 <=? n) && (n <=? 90) then Some (n - 55)
    else None in
  match d with
  | Some v => if v <? radix then Some v else None
  | None => None
  end.

(** The longest prefix of digits, read in [radix]; [None] when the
    prefix is empty. *)
Fixpoint read_digits (radix : Z) (s : string) (acc : option Z) : option Z :=
  match s with
  | String a s' =>
      match digit_value radix a with
      | Some d => read_digits radix s' (Some (radix * default 0 acc + d))
      | None => acc
      end
  | EmptyString => acc
  end.

(** [parseInt(s)] with no radix argument; [None] stands for [NaN].
    The value is the exact integer; it is the Number that [parseInt]
    returns below 2^53, where the ids lie. *)
Definition parseInt (s : string) : option Z :=
  let s := skip_space s in
  let '(neg, s) :=
    match s with
    | String "-"%char s' => (true, s')
    | String "+"%char s' => (false, s')
    | _ => (false, s)
    end in
  let '(radix, s) :=
    match s with
    | String "0"%char (String "x"%char s') => (16, s')
    | String "0"%char (String "X"%char s') => (16, s')
    | _ => (10, s)
    end in
  match read_digits radix s None with
  | Some n => Some (if neg then - n else n)
  | None => None
  end.

(** A parsed JSON document. *)
Inductive json :=
| JNull
| JBool (b : bool)
| JNumber (x : float)
| JString (s : string)
| JArray (items : list json)
| JObject (fields : list (string * json)).

(** Property read on a parsed object: of a repeated key, [JSON.parse]
    keeps the last occurrence. *)
Fixpoint get_field (k : string) (fields : list (string * json)) : option json :=
  match fields with
  | [] => None
  | (k', v) :: rest =>
      match get_field k rest with
      | Some v' => Some v'
      | None => if String.eqb k k' then Some v else None
      end
  end.

End JS.

(* ===================================================================== *)
(** ** The shared schema (shared/schema.ts)

    One record per table row, one per insert type and one per
    [Partial<_>] patch.  [text] columns are strings, timestamps are
    milliseconds since the epoch, a nullable column is an [option].
    A patch names, field by field, the value to overwrite with; [merge]
    is the object spread [{ ...row, ...patch }]. *)
(* ===================================================================== *)

Record Location := { lat : float; lng : float }.

Module User.
Record t := mk {
  id : Z; username : string; email : string; password : string;
  fullName : string; role : option string; urn : option string;
  department : option string; classYear : option string;
  contactNumber : option string; address : option string;
  isEmailVerified : option bool; verificationToken : option string;
  lastLogin : option Z; createdAt : option Z }.

Record insert := mkInsert {
  i_username : string; i_email : string; i_password : string;
  i_fullName : string; i_role : option string; i_urn : option string;
  i_department : option string; i_classYear : option string;
  i_contactNumber : option string; i_address : option string }.

Record partial := mkPartial {
  p_id : option Z; p_username : option string; p_email : option string;
  p_password : option string; p_fullName : option string;
  p_role : option (option string); p_urn : option (option string);
  p_department : option (option string);
  p_classYear : option (option string);
  p_contactNumber : option (option string);
  p_address : option (option string);
  p_isEmailVerified : option (option bool);
  p_verificationToken : option (option string);
  p_lastLogin : option (option Z); p_createdAt : option (option Z) }.

Definition merge (u : t) (p : partial) : t :=
  {| id := default (id u) (p_id p);
     username := default (username u) (p_username p);
     email := default (email u) (p_email p);
     password := default (password u) (p_password p);
     fullName := default (fullName u) (p_fullName p);
     role := default (role u) (p_role p);
     urn := default (urn u) (p_urn p);
     department := default (department u) (p_department p);
     classYear := default (classYear u) (p_classYear p);
     contactNumber := default (contactNumber u) (p_contactNumber p);
     address := default (address u) (p_address p);
     isEmailVerified := default (isEmailVerified u) (p_isEmailVerified p);
     verificationToken := default (verificationToken u) (p_verificationToken p);
     lastLogin := default (lastLogin u) (p_lastLogin p);
     createdAt := default (createdAt u) (p_createdAt p) |}.
End User.

Module Bus.
Record t := mk {
  id : Z; busNumber : string; route : string; status : string;
  capacity : Z; currentCapacity : Z; location : Location;
  speed : option float; driverId : option Z; lastStop : option string;
  isActive : bool }.

Record insert := mkInsert {
  i_busNumber : string; i_route : string; i_status : string;
  i_capacity : Z; i_currentCapacity : Z; i_location : Location;
  i_speed : option float; i_driverId : option Z;
  i_lastStop : option string; i_isActive : bool }.

Record partial := mkPartial {
  p_id : option Z; p_busNumber : option string; p_route : option string;
  p_status : option string; p_capacity : option Z;
  p_currentCapacity : option Z; p_location : option Location;
  p_speed : option (option float); p_driverId : option (option Z);
  p_lastStop : option (option string); p_isActive : option bool }.

Definition merge (b : t) (p : partial) : t :=
  {| id := default (id b) (p_id p);
     busNumber := default (busNumber b) (p_busNumber p);
     route := default (route b) (p_route p);
     status := default (status b) (p_status p);
     capacity := default (capacity b) (p_capacity p);
     currentCapacity := default (currentCapacity b) (p_currentCapacity p);
     location := default (location b) (p_location p);
     speed := default (speed b) (p_speed p);
     driverId := default (driverId b) (p_driverId p);
     lastStop := default (lastStop b) (p_lastStop p);
     isActive := default (isActive b) (p_isActive p) |}.
End Bus.

Module BusStop.
Record t := mk { id : Z; name : string; location : Location; routeId : Z }.
Record insert := mkInsert {
  i_name : string; i_location : Location; i_routeId : Z }.
End BusStop.

Module Route.
Record t := mk {
  id : Z; name : string; description : option string;
  stops : list Z; isActive : bool }.
Record insert := mkInsert {
  i_name : string; i_description : option string;
  i_stops : list Z; i_isActive : bool }.
Record partial := mkPartial {
  p_id : option Z; p_name : option string;
  p_description : option (option string);
  p_stops : option (list Z); p_isActive : option bool }.
Definition merge (r : t) (p : partial) : t :=
  {| id := default (id r) (p_id p);
     name := default (name r) (p_name p);
     description := default (description r) (p_description p);
     stops := default (stops r) (p_stops p);
     isActive := default (isActive r) (p_isActive p) |}.
End Route.

Module Driver.
Record t := mk {
  id : Z; name : string; contactNumber : option string; isActive : bool }.
Record insert := mkInsert {
  i_name : string; i_contactNumber : option string; i_isActive : bool }.
Record partial := mkPartial {
  p_id : option Z; p_name : option string;
  p_contactNumber : option (option string); p_isActive : option bool }.
Definition merge (d : t) (p : partial) : t :=
  {| id := default (id d) (p_id p);
     name := default (name d) (p_name p);
     contactNumber := default (contactNumber d) (p_contactNumber p);
     isActive := default (isActive d) (p_isActive p) |}.
End Driver.

Module Payment.
Record t := mk {
  id : Z; userId : Z; amount : Z; dueDate : string; isPaid : bool;
  paymentDate : option Z; paymentMethod : option string;
  description : string; category : string; semester : option string;
  academicYear : option string; createdAt : option Z }.
Record insert := mkInsert {
  i_userId : Z; i_amount : Z; i_dueDate : string; i_description : string;
  i_category : string; i_semester : option string;
  i_academicYear : option string }.
Record partial := mkPartial {
  p_id : option Z; p_userId : option Z; p_amount : option Z;
  p_dueDate : option string; p_isPaid : option bool;
  p_paymentDate : option (option Z);
  p_paymentMethod : option (option string);
  p_description : option string; p_category : option string;
  p_semester : option (option string);
  p_academicYear : option (option string);
  p_createdAt : option (option Z) }.
Definition merge (x : t) (p : partial) : t :=
  {| id := default (id x) (p_id p);
     userId := default (userId x) (p_userId p);
     amount := default (amount x) (p_amount p);
     dueDate := default (dueDate x) (p_dueDate p);
     isPaid := default (isPaid x) (p_isPaid p);
     paymentDate := default (paymentDate x) (p_paymentDate p);
     paymentMethod := default (paymentMethod x) (p_paymentMethod p);
     description := default (description x) (p_description p);
     category := default (category x) (p_category p);
     semester := default (semester x) (p_semester p);
     academicYear := default (academicYear x) (p_academicYear p);
     createdAt := default (createdAt x) (p_createdAt p) |}.
End Payment.

(* ===================================================================== *)
(** ** MemStorage (server storage) *)
(* ===================================================================== *)

Module MemStorage.

(** The object's state: the six maps and the six id counters. *)
Record t := mk {
  users : gmap Z User.t;
  buses : gmap Z Bus.t;
  busStops : gmap Z BusStop.t;
  routes : gmap Z Route.t;
  drivers : gmap Z Driver.t;
  payments : gmap Z Payment.t;
  userId : Z;
  busId : Z;
  busStopId : Z;
  routeId : Z;
  driverId : Z;
  paymentId : Z }.

Definition with_users (m : gmap Z User.t) (n : Z) (this : t) : t :=
  mk m (buses this) (busStops this) (routes this) (drivers this)
     (payments this) n (busId this) (busStopId this) (routeId this)
     (driverId this) (paymentId this).
Definition with_buses (m : gmap Z Bus.t) (n : Z) (this : t) : t :=
  mk (users this) m (busStops this) (routes this) (drivers this)
     (payments this) (userId this) n (busStopId this) (routeId this)
     (driverId this) (paymentId this).
Definition with_busStops (m : gmap Z BusStop.t) (n : Z) (this : t) : t :=
  mk (users this) (buses this) m (routes this) (drivers this)
     (payments this) (userId this) (busId this) n (routeId this)
     (driverId this) (paymentId this).
Definition with_routes (m : gmap Z Route.t) (n : Z) (this : t) : t :=
  mk (users this) (buses this) (busStops this) m (drivers this)
     (payments this) (userId this) (busId this) (busStopId this) n
     (driverId this) (paymentId this).
Definition with_drivers (m : gmap Z Driver.t) (n : Z) (this : t) : t :=
  mk (users this) (buses this) (busStops this) (routes this) m
     (payments this) (userId this) (busId this) (busStopId this)
     (routeId this) n (paymentId this).
Definition with_payments (m : gmap Z Payment.t) (n : Z) (this : t) : t :=
  mk (users this) (buses this) (busStops this) (routes this)
     (drivers this) m (userId this) (busId this) (busStopId this)
     (routeId this) (driverId this) n.

(** *** User operations *)

Definition getUser (id : Z) (this : t) : option User.t := users this !! id.

(** [token] is the value [crypto.randomBytes(32).toString('hex')]
    returned for this call, [now] the value of [new Date()]. *)
Definition createUser (insertUser : User.insert) (token : string) (now : Z)
    (this : t) : User.t * t :=
  let id := userId this in
  let user :=
    User.mk id (User.i_username insertUser) (User.i_email insertUser)
      (User.i_password insertUser) (User.i_fullName insertUser)
      (User.i_role insertUser) (User.i_urn insertUser)
      (User.i_department insertUser) (User.i_classYear insertUser)
      (User.i_contactNumber insertUser) (User.i_address insertUser)
      (Some false) (Some token) None (Some now) in
  (user, with_users (<[id := user]> (users this)) (id + 1) this).

Definition updateUser (id : Z) (userUpdate : User.partial) (this : t)
    : option User.t * t :=
  match users this !! id with
  | None => (None, this)
  | Some user =>
      let updatedUser := User.merge user userUpdate in
      (Some updatedUser,
       with_users (<[id := updatedUser]> (users this)) (userId this) this)
  end.

Definition verifyEmail (id : Z) (this : t) : option User.t * t :=
  match users this !! id with
  | None => (None, this)
  | Some u =>
      let updatedUser :=
        User.mk (User.id u) (User.username u) (User.email u)
          (User.password u) (User.fullName u) (User.role u) (User.urn u)
          (User.department u) (User.classYear u) (User.contactNumber u)
          (User.address u) (Some true) None (User.lastLogin u)
          (User.createdAt u) in
      (Some updatedUser,
       with_users (<[id := updatedUser]> (users this)) (userId this) this)
  end.

Definition setVerificationToken (id : Z) (token : string) (this : t)
    : option User.t * t :=
  match users this !! id with
  | None => (None, this)
  | Some u =>
      let updatedUser :=
        User.mk (User.id u) (User.username u) (User.email u)
          (User.password u) (User.fullName u) (User.role u) (User.urn u)
          (User.department u) (User.classYear u) (User.contactNumber u)
          (User.address u) (User.isEmailVerified u) (Some token)
          (User.lastLogin u) (User.createdAt u) in
      (Some updatedUser,
       with_users (<[id := updatedUser]> (users this)) (userId this) this)
  end.

(** *** Bus operations *)

Definition getBus (id : Z) (this : t) : option Bus.t := buses this !! id.

Definition createBus (insertBus : Bus.insert) (this : t) : Bus.t * t :=
  let id := busId this in
  let bus :=
    Bus.mk id (Bus.i_busNumber insertBus) (Bus.i_route insertBus)
      (Bus.i_status insertBus) (Bus.i_capacity insertBus)
      (Bus.i_currentCapacity insertBus) (Bus.i_location insertBus)
      (Bus.i_speed insertBus) (Bus.i_driverId insertBus)
      (Bus.i_lastStop insertBus) (Bus.i_isActive insertBus) in
  (bus, with_buses (<[id := bus]> (buses this)) (id + 1) this).

Definition updateBus (id : Z) (busUpdate : Bus.partial) (this : t)
    : option Bus.t * t :=
  match buses this !! id with
  | None => (None, this)
  | Some bus =>
      let updatedBus := Bus.merge bus busUpdate in
      (Some updatedBus,
       with_buses (<[id := updatedBus]> (buses this)) (busId this) this)
  end.

(** [{ ...bus, location, ...(speed !== undefined ? { speed } : {}) }];
    an omitted [speed] argument is [None]. *)
Definition updateBusLocation (id : Z) (location : Location)
    (speed : option float) (this : t) : option Bus.t * t :=
  match buses this !! id with
  | None => (None, this)
  | Some bus =>
      let updatedBus :=
        Bus.mk (Bus.id bus) (Bus.busNumber bus) (Bus.route bus)
          (Bus.status bus) (Bus.capacity bus) (Bus.currentCapacity bus)
          location
          (match speed with Some v => Some v | None => Bus.speed bus end)
          (Bus.driverId bus) (Bus.lastStop bus) (Bus.isActive bus) in
      (Some updatedBus,
       with_buses (<[id := updatedBus]> (buses this)) (busId this) this)
  end.

(** *** Bus stop, route and driver operations *)

Definition createBusStop (insertBusStop : BusStop.insert) (this : t)
    : BusStop.t * t :=
  let id := busStopId this in
  let busStop :=
    BusStop.mk id (BusStop.i_name insertBusStop)
      (BusStop.i_location insertBusStop) (BusStop.i_routeId insertBusStop) in
  (busStop, with_busStops (<[id := busStop]> (busStops this)) (id + 1) this).

Definition createRoute (insertRoute : Route.insert) (this : t)
    : Route.t * t :=
  let id := routeId this in
  let route :=
    Route.mk id (Route.i_name insertRoute) (Route.i_description insertRoute)
      (Route.i_stops insertRoute) (Route.i_isActive insertRoute) in
  (route, with_routes (<[id := route]> (routes this)) (id + 1) this).

Definition updateRoute (id : Z) (routeUpdate : Route.partial) (this : t)
    : option Route.t * t :=
  match routes this !! id with
  | None => (None, this)
  | Some route =>
      let updatedRoute := Route.merge route routeUpdate in
      (Some updatedRoute,
       with_routes (<[id := updatedRoute]> (routes this)) (routeId this) this)
  end.

Definition createDriver (insertDriver : Driver.insert) (this : t)
    : Driver.t * t :=
  let id := driverId this in
  let driver :=
    Driver.mk id (Driver.i_name insertDriver)
      (Driver.i_contactNumber insertDriver) (Driver.i_isActive insertDriver) in
  (driver, with_drivers (<[id := driver]> (drivers this)) (id + 1) this).

Definition updateDriver (id : Z) (driverUpdate : Driver.partial) (this : t)
    : option Driver.t * t :=
  match drivers this !! id with
  | None => (None, this)
  | Some driver =>
      let updatedDriver := Driver.merge driver driverUpdate in
      (Some updatedDriver,
       with_drivers (<[id := updatedDriver]> (drivers this)) (driverId this)
         this)
  end.

(** *** Payment operations *)

Definition createPayment (insertPayment : Payment.insert) (now : Z)
    (this : t) : Payment.t * t :=
  let id := paymentId this in
  let payment :=
    Payment.mk id (Payment.i_userId insertPayment)
      (Payment.i_amount insertPayment) (Payment.i_dueDate insertPayment)
      false None None (Payment.i_description insertPayment)
      (Payment.i_category insertPayment) (Payment.i_semester insertPayment)
      (Payment.i_academicYear insertPayment) (Some now) in
  (payment, with_payments (<[id := payment]> (payments this)) (id + 1) this).

Definition updatePayment (id : Z) (paymentUpdate : Payment.partial)
    (this : t) : option Payment.t * t :=
  match payments this !! id with
  | None => (None, this)
  | Some payment =>
      let updatedPayment := Payment.merge payment paymentUpdate in
      (Some updatedPayment,
       with_payments (<[id := updatedPayment]> (payments this))
         (paymentId this) this)
  end.

Definition markPaymentAsPaid (id : Z) (paymentMethod : string) (now : Z)
    (this : t) : option Payment.t * t :=
  match payments this !! id with
  | None => (None, this)
  | Some x =>
      let updatedPayment :=
        Payment.mk (Payment.id x) (Payment.userId x) (Payment.amount x)
          (Payment.dueDate x) true (Some now) (Some paymentMethod)
          (Payment.description x) (Payment.category x) (Payment.semester x)
          (Payment.academicYear x) (Payment.createdAt x) in
      (Some updatedPayment,
       with_payments (<[id := updatedPayment]> (payments this))
         (paymentId this) this)
  end.

(** *** Queries

    [Array.from(m.values())] lists the rows in the order the [Map]
    iterates, the order in which the keys were first set.  Keys enter a
    map as [this.xId++] only, in ascending order, and [set] on a present
    key keeps its place: the rows come in ascending key order. *)

Definition keys {A} (m : gmap Z A) : list Z :=
  merge_sort Z.le (elements (dom m)).

Definition values {A} (m : gmap Z A) : list A :=
  omap (λ k, m !! k) (keys m).

Definition getUserByUsername (username : string) (this : t)
    : option User.t :=
  List.find (λ user, bool_decide (User.username user = username))
    (values (users this)).

Definition getUserByEmail (email : string) (this : t) : option User.t :=
  List.find (λ user, bool_decide (User.email user = email))
    (values (users this)).

(** [user.verificationToken === token]: a null token equals no string. *)
Definition getUserByVerificationToken (token : string) (this : t)
    : option User.t :=
  List.find (λ user, bool_decide (User.verificationToken user = Some token))
    (values (users this)).

Definition getBuses (this : t) : list Bus.t := values (buses this).

Definition getBusByNumber (busNumber : string) (this : t) : option Bus.t :=
  List.find (λ bus, bool_decide (Bus.busNumber bus = busNumber))
    (values (buses this)).

Definition getBusStops (this : t) : list BusStop.t := values (busStops this).

Definition getBusStop (id : Z) (this : t) : option BusStop.t :=
  busStops this !! id.

Definition getBusStopsByRoute (route : Z) (this : t) : list BusStop.t :=
  List.filter (λ stop, bool_decide (BusStop.routeId stop = route))
    (values (busStops this)).

Definition getRoutes (this : t) : list Route.t := values (routes this).

Definition getRoute (id : Z) (this : t) : option Route.t := routes this !! id.

Definition getDrivers (this : t) : list Driver.t := values (drivers this).

Definition getDriver (id : Z) (this : t) : option Driver.t :=
  drivers this !! id.

Definition getPaymentsByUser (user : Z) (this : t) : list Payment.t :=
  List.filter (λ payment, bool_decide (Payment.userId payment = user))
    (values (payments this)).

Definition getPendingPaymentsByUser (user : Z) (this : t)
    : list Payment.t :=
  List.filter
    (λ payment,
       bool_decide (Payment.userId payment = user)
       && negb (Payment.isPaid payment))
    (values (payments this)).

Definition getPayment (id : Z) (this : t) : option Payment.t :=
  payments this !! id.

(** *** Construction *)

(** The fields as the constructor sets them before seeding. *)
Definition empty : t := mk ∅ ∅ ∅ ∅ ∅ ∅ 1 1 1 1 1 1.

Definition seedData (this : t) : t :=
  let campusLoopRouteId := routeId this in
  let this := (createRoute
    (Route.mkInsert "Campus Loop"
       (Some "Main campus loop covering all major buildings")
       [1; 2; 3; 4] true) this).2 in
  let dormRouteId := routeId this in
  let this := (createRoute
    (Route.mkInsert "Dormitory Route"
       (Some "Route connecting all dormitories to central campus")
       [5; 6; 7] true) this).2 in
  let this := (createBusStop
    (BusStop.mkInsert "Science Building"
       {| lat := 34.0522; lng := -118.2437 |} campusLoopRouteId) this).2 in
  let this := (createBusStop
    (BusStop.mkInsert "Library"
       {| lat := 34.0548; lng := -118.2450 |} campusLoopRouteId) this).2 in
  let this := (createBusStop
    (BusStop.mkInsert "Student Center"
       {| lat := 34.0530; lng := -118.2420 |} campusLoopRouteId) this).2 in
  let this := (createBusStop
    (BusStop.mkInsert "Athletic Complex"
       {| lat := 34.0510; lng := -118.2400 |} campusLoopRouteId) this).2 in
  let this := (createBusStop
    (BusStop.mkInsert "North Dormitories"
       {| lat := 34.0560; lng := -118.2440 |} dormRouteId) this).2 in
  let this := (createBusStop
    (BusStop.mkInsert "South Dormitories"
       {| lat := 34.0500; lng := -118.2460 |} dormRouteId) this).2 in
  let this := (createBusStop
    (BusStop.mkInsert "West Dormitories"
       {| lat := 34.0525; lng := -118.2480 |} dormRouteId) this).2 in
  let driverId1 := driverId this in
  let this := (createDriver
    (Driver.mkInsert "Michael Johnson" (Some "555-123-4567") true) this).2 in
  let driverId2 := driverId this in
  let this := (createDriver
    (Driver.mkInsert "Sarah Williams" (Some "555-987-6543") true) this).2 in
  let driverId3 := driverId this in
  let this := (createDriver
    (Driver.mkInsert "Robert Davis" (Some "555-555-5555") true) this).2 in
  let this := (createBus
    (Bus.mkInsert "101" "Campus Loop" "on-time" 40 26
       {| lat := 34.0522; lng := -118.2437 |} (Some 18%float)
       (Some driverId1) (Some "Student Center") true) this).2 in
  let this := (createBus
    (Bus.mkInsert "202" "Dormitory Route" "delayed" 30 15
       {| lat := 34.0548; lng := -118.2450 |} (Some 12%float)
       (Some driverId2) (Some "North Dormitories") true) this).2 in
  let this := (createBus
    (Bus.mkInsert "303" "Campus Loop" "on-time" 40 32
       {| lat := 34.0510; lng := -118.2400 |} (Some 20%float)
       (Some driverId3) (Some "Athletic Complex") true) this).2 in
  this.

(** [new MemStorage()]. *)
Definition constructor : t := seedData empty.

End MemStorage.

(* ===================================================================== *)
(** ** Runs of the store

    Every call that can change the store, as data, so that the states a
    running server can be in are the states [run] reaches from
    [MemStorage.constructor]. *)
(* ===================================================================== *)

Inductive kind := KUser | KBus | KBusStop | KRoute | KDriver | KPayment.

#[global] Instance kind_eq_dec : EqDecision kind.
Proof. solve_decision. Defined.

Definition row (k : kind) : Type :=
  match k with
  | KUser => User.t
  | KBus => Bus.t
  | KBusStop => BusStop.t
  | KRoute => Route.t
  | KDriver => Driver.t
  | KPayment => Payment.t
  end.

(** The map that holds the rows of a kind, and the counter that numbers them. *)
Definition table (k : kind) (st : MemStorage.t) : gmap Z (row k) :=
  match k with
  | KUser => MemStorage.users st
  | KBus => MemStorage.buses st
  | KBusStop => MemStorage.busStops st
  | KRoute => MemStorage.routes st
  | KDriver => MemStorage.drivers st
  | KPayment => MemStorage.payments st
  end.

Definition counter (k : kind) (st : MemStorage.t) : Z :=
  match k with
  | KUser => MemStorage.userId st
  | KBus => MemStorage.busId st
  | KBusStop => MemStorage.busStopId st
  | KRoute => MemStorage.routeId st
  | KDriver => MemStorage.driverId st
  | KPayment => MemStorage.paymentId st
  end.

(** The [id] field of a row. *)
Definition row_id (k : kind) : row k → Z :=
  match k with
  | KUser => User.id
  | KBus => Bus.id
  | KBusStop => BusStop.id
  | KRoute => Route.id
  | KDriver => Driver.id
  | KPayment => Payment.id
  end.

Inductive op :=
| CreateUser (insertUser : User.insert) (token : string) (now : Z)
| UpdateUser (id : Z) (userUpdate : User.partial)
| VerifyEmail (id : Z)
| SetVerificationToken (id : Z) (token : string)
| CreateBus (insertBus : Bus.insert)
| UpdateBus (id : Z) (busUpdate : Bus.partial)
| UpdateBusLocation (id : Z) (location : Location) (speed : option float)
| CreateBusStop (insertBusStop : BusStop.insert)
| CreateRoute (insertRoute : Route.insert)
| UpdateRoute (id : Z) (routeUpdate : Route.partial)
| CreateDriver (insertDriver : Driver.insert)
| UpdateDriver (id : Z) (driverUpdate : Driver.partial)
| CreatePayment (insertPayment : Payment.insert) (now : Z)
| UpdatePayment (id : Z) (paymentUpdate : Payment.partial)
| MarkPaymentAsPaid (id : Z) (paymentMethod : string) (now : Z).

Definition step (o : op) (st : MemStorage.t) : MemStorage.t :=
  match o with
  | CreateUser u token now => (MemStorage.createUser u token now st).2
  | UpdateUser id p => (MemStorage.updateUser id p st).2
  | VerifyEmail id => (MemStorage.verifyEmail id st).2
  | SetVerificationToken id token =>
      (MemStorage.setVerificationToken id token st).2
  | CreateBus b => (MemStorage.createBus b st).2
  | UpdateBus id p => (MemStorage.updateBus id p st).2
  | UpdateBusLocation id location speed =>
      (MemStorage.updateBusLocation id location speed st).2
  | CreateBusStop s => (MemStorage.createBusStop s st).2
  | CreateRoute r => (MemStorage.createRoute r st).2
  | UpdateRoute id p => (MemStorage.updateRoute id p st).2
  | CreateDriver d => (MemStorage.createDriver d st).2
  | UpdateDriver id p => (MemStorage.updateDriver id p st).2
  | CreatePayment x now => (MemStorage.createPayment x now st).2
  | UpdatePayment id p => (MemStorage.updatePayment id p st).2
  | MarkPaymentAsPaid id method now =>
      (MemStorage.markPaymentAsPaid id method now st).2
  end.

(** The kind of row a create call makes; [None] for every other call. *)
Definition creates (o : op) : option kind :=
  match o with
  | CreateUser _ _ _ => Some KUser
  | CreateBus _ => Some KBus
  | CreateBusStop _ => Some KBusStop
  | CreateRoute _ => Some KRoute
  | CreateDriver _ => Some KDriver
  | CreatePayment _ _ => Some KPayment
  | _ => None
  end.


Fixpoint run (ops : list op) (st : MemStorage.t) : MemStorage.t :=
  match ops with
  | [] => st
  | o :: rest => run rest (step o st)
  end.


(** The calls [seedData] makes, in order. *)
Definition seed_calls : list op :=
  [ CreateRoute (Route.mkInsert "Campus Loop"
      (Some "Main campus loop covering all major buildings") [1; 2; 3; 4] true);
    CreateRoute (Route.mkInsert "Dormitory Route"
      (Some "Route connecting all dormitories to central campus") [5; 6; 7] true);
    CreateBusStop (BusStop.mkInsert "Science Building"
      {| lat := 34.0522; lng := -118.2437 |} 1);
    CreateBusStop (BusStop.mkInsert "Library"
      {| lat := 34.0548; lng := -118.2450 |} 1);
    CreateBusStop (BusStop.mkInsert "Student Center"
      {| lat := 34.0530; lng := -118.2420 |} 1);
    CreateBusStop (BusStop.mkInsert "Athletic Complex"
      {| lat := 34.0510; lng := -118.2400 |} 1);
    CreateBusStop (BusStop.mkInsert "North Dormitories"
      {| lat := 34.0560; lng := -118.2440 |} 2);
    CreateBusStop (BusStop.mkInsert "South Dormitories"
      {| lat := 34.0500; lng := -118.2460 |} 2);
    CreateBusStop (BusStop.mkInsert "West Dormitories"
      {| lat := 34.0525; lng := -118.2480 |} 2);
    CreateDriver (Driver.mkInsert "Michael Johnson" (Some "555-123-4567") true);
    CreateDriver (Driver.mkInsert "Sarah Williams" (Some "555-987-6543") true);
    CreateDriver (Driver.mkInsert "Robert Davis" (Some "555-555-5555") true);
    CreateBus (Bus.mkInsert "101" "Campus Loop" "on-time" 40 26
      {| lat := 34.0522; lng := -118.2437 |} (Some 18%float) (Some 1)
      (Some "Student Center") true);
    CreateBus (Bus.mkInsert "202" "Dormitory Route" "delayed" 30 15
      {| lat := 34.0548; lng := -118.2450 |} (Some 12%float) (Some 2)
      (Some "North Dormitories") true);
    CreateBus (Bus.mkInsert "303" "Campus Loop" "on-time" 40 32
      {| lat := 34.0510; lng := -118.2400 |} (Some 20%float) (Some 3)
      (Some "Athletic Complex") true) ].


(* ===================================================================== *)
(** ** The bus, route, stop and driver endpoints (server/routes.ts) *)
(* ===================================================================== *)

Module Routes.

(** What the handler reads of a request: the session user
    ([None] when [req.isAuthenticated()] is false), the [:id] path
    parameter and the parsed JSON body. *)
Record request := {
  user : option User.t;
  params_id : string;
  body : JS.json }.

Inductive response :=
| Json (status : Z) (bus : Bus.t)
| Message (status : Z) (message : string).

Definition status_of (r : response) : Z :=
  match r with Json s _ => s | Message s _ => s end.

(** [z.number()]: a number that is not NaN. *)
Definition z_number (v : JS.json) : option float :=
  match v with
  | JS.JNumber x => if PrimFloat.is_nan x then None else Some x
  | _ => None
  end.

(** [locationSchema.safeParse(req.body)]: [lat] and [lng] numbers,
    [speed] a number or absent; unknown keys are dropped.  [None] is
    a failed validation. *)
Definition locationSchema (body : JS.json)
    : option (float * float * option float) :=
  match body with
  | JS.JObject fields =>
      match JS.get_field "lat" fields ≫= z_number,
            JS.get_field "lng" fields ≫= z_number with
      | Some lat, Some lng =>
          match JS.get_field "speed" fields with
          | None => Some (lat, lng, None)
          | Some v =>
              match z_number v with
              | Some speed => Some (lat, lng, Some speed)
              | None => None
              end
          end
      | _, _ => None
      end
  | _ => None
  end.

(** The request passes the check
    [!req.isAuthenticated() || req.user.role !== "admin"]. *)
Definition is_admin (req : request) : bool :=
  match user req with
  | Some u => bool_decide (User.role u = Some "admin")
  | None => false
  end.

(** [app.put("/api/buses/:id/location", ...)]. *)
Definition put_bus_location (req : request) (st : MemStorage.t)
    : response * MemStorage.t :=
  if negb (is_admin req) then (Message 403 "Unauthorized", st)
  else
    match locationSchema (body req) with
    | None => (Message 400 "Invalid location data", st)
    | Some (lat, lng, speed) =>
        match JS.parseInt (params_id req) with
        | None => (Message 400 "Invalid bus ID", st)
        | Some busId =>
            match MemStorage.updateBusLocation busId
                    {| lat := lat; lng := lng |} speed st with
            | (None, st') => (Message 404 "Bus not found", st')
            | (Some bus, st') => (Json 200 bus, st')
            end
        end
    end.

(** *** The other endpoints

    A handler that takes a typed [body] reads [req.body] at the type
    the storage method it calls declares; the code hands the body over
    unchecked.  [Sent s x] is [res.status(s).json(x)] ([res.json(x)] is
    status 200), [Refused s m] the reply [res.status(s).json({ message: m })]. *)

Inductive reply (A : Type) :=
| Sent (status : Z) (payload : A)
| Refused (status : Z) (message : string).
Arguments Sent {A} status payload.
Arguments Refused {A} status message.

Definition status_code {A} (r : reply A) : Z :=
  match r with Sent s _ => s | Refused s _ => s end.

(** [app.get("/api/buses", ...)]. *)
Definition get_buses (req : request) (st : MemStorage.t)
    : reply (list Bus.t) * MemStorage.t :=
  (Sent 200 (MemStorage.getBuses st), st).

(** [app.get("/api/buses/:id", ...)]. *)
Definition get_bus (req : request) (st : MemStorage.t)
    : reply Bus.t * MemStorage.t :=
  match JS.parseInt (params_id req) with
  | None => (Refused 400 "Invalid bus ID", st)
  | Some busId =>
      match MemStorage.getBus busId st with
      | None => (Refused 404 "Bus not found", st)
      | Some bus => (Sent 200 bus, st)
      end
  end.

(** [app.post("/api/buses", ...)]. *)
Definition post_bus (req : request) (body : Bus.insert) (st : MemStorage.t)
    : reply Bus.t * MemStorage.t :=
  if negb (is_admin req) then (Refused 403 "Unauthorized", st)
  else
    let '(bus, st') := MemStorage.createBus body st in
    (Sent 201 bus, st').

(** [app.put("/api/buses/:id", ...)]. *)
Definition put_bus (req : request) (body : Bus.partial) (st : MemStorage.t)
    : reply Bus.t * MemStorage.t :=
  if negb (is_admin req) then (Refused 403 "Unauthorized", st)
  else
    match JS.parseInt (params_id req) with
    | None => (Refused 400 "Invalid bus ID", st)
    | Some busId =>
        match MemStorage.updateBus busId body st with
        | (None, st') => (Refused 404 "Bus not found", st')
        | (Some bus, st') => (Sent 200 bus, st')
        end
    end.

(** [app.get("/api/routes", ...)]. *)
Definition get_routes (req : request) (st : MemStorage.t)
    : reply (list Route.t) * MemStorage.t :=
  (Sent 200 (MemStorage.getRoutes st), st).

(** [app.get("/api/routes/:id", ...)]. *)
Definition get_route (req : request) (st : MemStorage.t)
    : reply Route.t * MemStorage.t :=
  match JS.parseInt (params_id req) with
  | None => (Refused 400 "Invalid route ID", st)
  | Some routeId =>
      match MemStorage.getRoute routeId st with
      | None => (Refused 404 "Route not found", st)
      | Some route => (Sent 200 route, st)
      end
  end.

(** [app.post("/api/routes", ...)]. *)
Definition post_route (req : request) (body : Route.insert)
    (st : MemStorage.t) : reply Route.t * MemStorage.t :=
  if negb (is_admin req) then (Refused 403 "Unauthorized", st)
  else
    let '(route, st') := MemStorage.createRoute body st in
    (Sent 201 route, st').

(** [app.put("/api/routes/:id", ...)]. *)
Definition put_route (req : request) (body : Route.partial)
    (st : MemStorage.t) : reply Route.t * MemStorage.t :=
  if negb (is_admin req) then (Refused 403 "Unauthorized", st)
  else
    match JS.parseInt (params_id req) with
    | None => (Refused 400 "Invalid route ID", st)
    | Some routeId =>
        match MemStorage.updateRoute routeId body st with
        | (None, st') => (Refused 404 "Route not found", st')
        | (Some route, st') => (Sent 200 route, st')
        end
    end.

(** [app.get("/api/bus-stops", ...)]. *)
Definition get_bus_stops (req : request) (st : MemStorage.t)
    : reply (list BusStop.t) * MemStorage.t :=
  (Sent 200 (MemStorage.getBusStops st), st).

(** [app.get("/api/bus-stops/:id", ...)]. *)
Definition get_bus_stop (req : request) (st : MemStorage.t)
    : reply BusStop.t * MemStorage.t :=
  match JS.parseInt (params_id req) with
  | None => (Refused 400 "Invalid bus stop ID", st)
  | Some busStopId =>
      match MemStorage.getBusStop busStopId st with
      | None => (Refused 404 "Bus stop not found", st)
      | Some busStop => (Sent 200 busStop, st)
      end
  end.

(** [app.get("/api/routes/:id/stops", ...)]: no check that the route
    exists. *)
Definition get_route_stops (req : request) (st : MemStorage.t)
    : reply (list BusStop.t) * MemStorage.t :=
  match JS.parseInt (params_id req) with
  | None => (Refused 400 "Invalid route ID", st)
  | Some routeId => (Sent 200 (MemStorage.getBusStopsByRoute routeId st), st)
  end.

(** [app.post("/api/bus-stops", ...)]. *)
Definition post_bus_stop (req : request) (body : BusStop.insert)
    (st : MemStorage.t) : reply BusStop.t * MemStorage.t :=
  if negb (is_admin req) then (Refused 403 "Unauthorized", st)
  else
    let '(busStop, st') := MemStorage.createBusStop body st in
    (Sent 201 busStop, st').

(** [app.get("/api/drivers", ...)]. *)
Definition get_drivers (req : request) (st : MemStorage.t)
    : reply (list Driver.t) * MemStorage.t :=
  (Sent 200 (MemStorage.getDrivers st), st).

(** [app.get("/api/drivers/:id", ...)]. *)
Definition get_driver (req : request) (st : MemStorage.t)
    : reply Driver.t * MemStorage.t :=
  match JS.parseInt (params_id req) with
  | None => (Refused 400 "Invalid driver ID", st)
  | Some driverId =>
      match MemStorage.getDriver driverId st with
      | None => (Refused 404 "Driver not found", st)
      | Some driver => (Sent 200 driver, st)
      end
  end.

(** [app.post("/api/drivers", ...)]. *)
Definition post_driver (req : request) (body : Driver.insert)
    (st : MemStorage.t) : reply Driver.t * MemStorage.t :=
  if negb (is_admin req) then (Refused 403 "Unauthorized", st)
  else
    let '(driver, st') := MemStorage.createDriver body st in
    (Sent 201 driver, st').

(** [app.put("/api/drivers/:id", ...)]. *)
Definition put_driver (req : request) (body : Driver.partial)
    (st : MemStorage.t) : reply Driver.t * MemStorage.t :=
  if negb (is_admin req) then (Refused 403 "Unauthorized", st)
  else
    match JS.parseInt (params_id req) with
    | None => (Refused 400 "Invalid driver ID", st)
    | Some driverId =>
        match MemStorage.updateDriver driverId body st with
        | (None, st') => (Refused 404 "Driver not found", st')
        | (Some driver, st') => (Sent 200 driver, st')
        end
    end.

(** *** The endpoints as one interface

    A call names the endpoint and carries the typed body; [serve] is
    the router: the status the handler answers with and the store the
    handler leaves. *)

Inductive call :=
| GET_buses
| GET_bus
| POST_buses (body : Bus.insert)
| PUT_bus (body : Bus.partial)
| PUT_bus_location
| GET_routes
| GET_route
| POST_routes (body : Route.insert)
| PUT_route (body : Route.partial)
| GET_bus_stops
| GET_bus_stop
| GET_route_stops
| POST_bus_stops (body : BusStop.insert)
| GET_drivers
| GET_driver
| POST_drivers (body : Driver.insert)
| PUT_driver (body : Driver.partial).

Definition answered {A} (r : reply A * MemStorage.t) : Z * MemStorage.t :=
  (status_code r.1, r.2).

Definition serve (c : call) (req : request) (st : MemStorage.t)
    : Z * MemStorage.t :=
  match c with
  | GET_buses => answered (get_buses req st)
  | GET_bus => answered (get_bus req st)
  | POST_buses body => answered (post_bus req body st)
  | PUT_bus body => answered (put_bus req body st)
  | PUT_bus_location =>
      let '(r, st') := put_bus_location req st in (status_of r, st')
  | GET_routes => answered (get_routes req st)
  | GET_route => answered (get_route req st)
  | POST_routes body => answered (post_route req body st)
  | PUT_route body => answered (put_route req body st)
  | GET_bus_stops => answered (get_bus_stops req st)
  | GET_bus_stop => answered (get_bus_stop req st)
  | GET_route_stops => answered (get_route_stops req st)
  | POST_bus_stops body => answered (post_bus_stop req body st)
  | GET_drivers => answered (get_drivers req st)
  | GET_driver => answered (get_driver req st)
  | POST_drivers body => answered (post_driver req body st)
  | PUT_driver body => answered (put_driver req body st)
  end.

(** The endpoints registered with [app.post] or [app.put]. *)
Definition writes (c : call) : bool :=
  match c with
  | POST_buses _ | PUT_bus _ | PUT_bus_location | POST_routes _
  | PUT_route _ | POST_bus_stops _ | POST_drivers _ | PUT_driver _ => true
  | _ => false
  end.

(** Requests served one after the other; the store they leave. *)
Definition serve_all (calls : list (call * request)) (st : MemStorage.t)
    : MemStorage.t :=
  foldl (λ st cr, (serve cr.1 cr.2 st).2) st calls.

End Routes.

(* ===================================================================== *)
(** ** Registration and email verification (server/auth.ts)

    What the environment supplies to a handler is an argument:
    the outcome of [extendedUserSchema.parse], the string
    [hashPassword] returns, the random token, the clock, whether the
    mail went out and whether [req.login] succeeded. *)
(* ===================================================================== *)

Module Auth.

(** What a handler answers: the registered user with the
    [emailVerificationSent] flag, [{ success: true, message }],
    [{ error }] under a status, or an error handed to [next]. *)
Inductive reply :=
| Registered (user : User.t) (emailVerificationSent : bool)
| Success (message : string)
| Error (status : Z) (error : string)
| Thrown.

(** The status of a reply: 201 for the registered user, 200 for
    [res.json]; an error handed to [next] is answered by the error
    middleware, outside this file. *)
Definition status_code (r : reply) : option Z :=
  match r with
  | Registered _ _ => Some 201
  | Success _ => Some 200
  | Error s _ => Some s
  | Thrown => None
  end.

(** [{ ...validatedData, password: await hashPassword(...) }]. *)
Definition with_password (data : User.insert) (hashed : string)
    : User.insert :=
  User.mkInsert (User.i_username data) (User.i_email data) hashed
    (User.i_fullName data) (User.i_role data) (User.i_urn data)
    (User.i_department data) (User.i_classYear data)
    (User.i_contactNumber data) (User.i_address data).

(** [app.post("/api/register", ...)] runs in two parts, because it
    awaits [hashPassword] (scrypt, on the thread pool) between its
    checks and [createUser]: the server serves other requests in the
    meantime.

    The first part, up to [await hashPassword]: the refusal it
    answers with, or the validated data it goes on with.
    [validatedData] is [None] when [extendedUserSchema.parse(req.body)]
    throws. *)
Definition register_checks (validatedData : option User.insert)
    (st : MemStorage.t) : reply + User.insert :=
  match validatedData with
  | None => inl (Error 400 "Validation failed")
  | Some data =>
      match MemStorage.getUserByUsername (User.i_username data) st with
      | Some _ => inl (Error 400 "Username already exists")
      | None =>
          match MemStorage.getUserByEmail (User.i_email data) st with
          | Some _ => inl (Error 400 "Email already exists")
          | None => inr data
          end
      end
  end.

(** The second part, from [createUser] on, on the store as it is when
    the hash has arrived.  The reply to a registration carries the user
    without [password] and [verificationToken]; [Registered] holds the
    whole record, the one that [sendVerificationEmail] and [req.login]
    were given. *)
Definition register_create (data : User.insert) (hashed token : string)
    (now : Z) (emailSent loggedIn : bool) (st : MemStorage.t)
    : reply * MemStorage.t :=
  let '(user, st') :=
    MemStorage.createUser (with_password data hashed) token now st in
  if loggedIn then (Registered user emailSent, st') else (Thrown, st').

(** The handler: its checks read the store [before]; [createUser]
    writes to the store [st] that it finds when the hash has arrived,
    [before] itself when no request was served in the meantime.  A
    refused registration writes nothing. *)
Definition register (validatedData : option User.insert)
    (hashed token : string) (now : Z) (emailSent loggedIn : bool)
    (before st : MemStorage.t) : reply * MemStorage.t :=
  match register_checks validatedData before with
  | inl refusal => (refusal, st)
  | inr data => register_create data hashed token now emailSent loggedIn st
  end.

(** [app.get("/api/verify-email/:token", ...)]; [authenticated] is
    [req.isAuthenticated()]. *)
Definition verify_email (token : string) (authenticated loggedIn : bool)
    (st : MemStorage.t) : reply * MemStorage.t :=
  match MemStorage.getUserByVerificationToken token st with
  | None => (Error 404 "Invalid or expired verification token", st)
  | Some user =>
      match MemStorage.verifyEmail (User.id user) st with
      | (None, st') => (Error 500 "Failed to verify email", st')
      | (Some updatedUser, st') =>
          if authenticated || loggedIn
          then (Success "Email verified successfully", st')
          else (Error 500 "Failed to login after verification", st')
      end
  end.

(** [!user.verificationToken]: null or the empty string. *)
Definition no_token (user : User.t) : bool :=
  match User.verificationToken user with
  | None | Some EmptyString => true
  | Some _ => false
  end.

(** [app.post("/api/resend-verification", ...)]; [user] is the session
    user, [None] when [req.isAuthenticated()] is false.  The second
    component is the record handed to [sendVerificationEmail]. *)
Definition resend_verification (user : option User.t) (token : string)
    (emailSent : bool) (st : MemStorage.t)
    : reply * option User.t * MemStorage.t :=
  match user with
  | None => (Error 401 "You must be logged in", None, st)
  | Some session =>
      match MemStorage.getUser (User.id session) st with
      | None => (Error 404 "User not found", None, st)
      | Some stored =>
          if bool_decide (User.isEmailVerified stored = Some true)
          then (Error 400 "Email already verified", None, st)
          else
            let '(updatedUser, st') :=
              if no_token stored then
                match MemStorage.setVerificationToken (User.id stored) token
                        st with
                | (Some updated, st') => (updated, st')
                | (None, st') => (stored, st')
                end
              else (stored, st) in
            if emailSent
            then (Success "Verification email sent", Some updatedUser, st')
            else (Error 500 "Failed to send verification email",
                  Some updatedUser, st')
      end
  end.

(** The verify callback of the [LocalStrategy]; [comparePasswords]
    is the check of a supplied password against a stored hash. *)
Definition authenticate (comparePasswords : string → string → bool)
    (username password : string) (st : MemStorage.t) : option User.t :=
  match MemStorage.getUserByUsername username st with
  | None => None
  | Some user =>
      if comparePasswords password (User.password user) then Some user
      else None
  end.

End Auth.

(* ===================================================================== *)
(** ** The server as a whole

    [registerRoutes] installs the handlers of auth.ts and of routes.ts
    on one [storage].  The server runs one handler at a time up to the
    next [await] of something outside the store; of the handlers that
    write, registration alone has such an [await] between reading the
    store and writing it.  A state of the server is the store with the
    registrations that have passed their checks and wait for their
    hash; a step is the first part of a registration, the second part
    of one that waits, or a whole other request.  Login, logout and
    [GET /api/user] do not write to the store. *)
(* ===================================================================== *)

Module App.

Record state := {
  store : MemStorage.t;
  hashing : list User.insert }.

(** [RegisterCreate i ...] resumes the [i]-th registration that
    waits for its hash; the other arguments are what the environment
    supplies to it. *)
Inductive request :=
| RegisterChecks (validatedData : option User.insert)
| RegisterCreate (i : nat) (hashed token : string) (now : Z)
    (emailSent loggedIn : bool)
| VerifyEmail (token : string) (authenticated loggedIn : bool)
| ResendVerification (user : option User.t) (token : string)
    (emailSent : bool)
| Resource (c : Routes.call) (req : Routes.request).

Definition with_store (st : MemStorage.t) (s : state) : state :=
  {| store := st; hashing := hashing s |}.

(** The state after a step.  A [RegisterCreate] for a registration
    that does not wait is no step of the server and changes nothing. *)
Definition handle (r : request) (s : state) : state :=
  match r with
  | RegisterChecks validatedData =>
      match Auth.register_checks validatedData (store s) with
      | inl _ => s
      | inr data => {| store := store s; hashing := hashing s ++ [data] |}
      end
  | RegisterCreate i hashed token now emailSent loggedIn =>
      match hashing s !! i with
      | None => s
      | Some data =>
          {| store :=
               (Auth.register_create data hashed token now emailSent loggedIn
                  (store s)).2;
             hashing := delete i (hashing s) |}
      end
  | VerifyEmail token authenticated loggedIn =>
      with_store (Auth.verify_email token authenticated loggedIn (store s)).2 s
  | ResendVerification user token emailSent =>
      with_store (Auth.resend_verification user token emailSent (store s)).2 s
  | Resource c req => with_store (Routes.serve c req (store s)).2 s
  end.

(** The server after [new MemStorage()]: no registration waits. *)
Definition start : state :=
  {| store := MemStorage.constructor; hashing := [] |}.

(** The state after the steps, taken one after the other. *)
Definition serve_all (requests : list request) (s : state) : state :=
  foldl (λ s r, handle r s) s requests.

End App.

(* ===================================================================== *)
(** ** Arrival estimates on the client *)
(* ===================================================================== *)

Module Client.

(** The first two lines of [calculateETA]: the speed in km/h, 20 when
    [bus.speed] is 0, null or undefined, converted to metres per second. *)
Definition speedMps (bus : Bus.t) : float :=
  let speedKmh := JS.or_else (Bus.speed bus) 20 in
  (speedKmh * 1000 / 3600)%float.

(** bus-info-panel.tsx, [calculateETA]. *)
Definition calculateETA (bus : Bus.t) (stopDistance : float) : float :=
  let timeSeconds := (stopDistance / speedMps bus)%float in
  JS.Math_round (timeSeconds / 60)%float.

Record NextStop := {
  name : string; distance : float; eta : float; progress : Z }.

(** bus-info-panel.tsx, [nextStops]. *)
Definition nextStops (bus : Bus.t) : list NextStop :=
  [ {| name := "Science Building"; distance := 900;
       eta := calculateETA bus 900; progress := 65 |};
    {| name := "Library"; distance := 2100;
       eta := calculateETA bus 2100; progress := 30 |};
    {| name := "Dormitories"; distance := 3600;
       eta := calculateETA bus 3600; progress := 10 |} ].

(** home-page.tsx, [getNearestBuses].  [buses] is the query result
    ([None] while undefined); [random i] is what the [i]-th call of
    [Math.random()] returns.  Each entry is the bus with its [eta]. *)
Definition getNearestBuses (random : nat → float)
    (buses : option (list Bus.t)) : list (Bus.t * float) :=
  match buses with
  | None | Some [] => []
  | Some buses =>
      imap (λ i bus, (bus, (JS.Math_floor (random i * 20) + 1)%float))
        (take 3
           (filter (λ bus, Bus.status bus ≠ "out-of-service") buses))
  end.

End Client.

(* ===================================================================== *)
(** ** Position reports

    The feed's report carries an ordering key (a sequence number or the
    report time) next to the vehicle id, the position and the optional
    speed.  [MemStorage.updateBusLocation] has no parameter for the key:
    [upsert] passes on the three values the store takes. *)
(* ===================================================================== *)

Record PositionReport := {
  vehicleId : Z;
  position : Location;
  reportedSpeed : option float;
  orderingKey : Z }.

Definition upsert (r : PositionReport) (st : MemStorage.t)
    : option Bus.t * MemStorage.t :=
  MemStorage.updateBusLocation (vehicleId r) (position r) (reportedSpeed r) st.

(** Reports applied one after the other, in the order of the list. *)
Definition deliver (rs : list PositionReport) (st : MemStorage.t)
    : MemStorage.t :=
  foldl (λ st r, (upsert r st).2) st rs.

Fixpoint insert_by_key (r : PositionReport) (rs : list PositionReport)
    : list PositionReport :=
  match rs with
  | [] => [r]
  | r' :: rest =>
      if orderingKey r <=? orderingKey r' then r :: rs
      else r' :: insert_by_key r rest
  end.

(** The reports in ascending ordering-key order. *)
Definition sort_by_key (rs : list PositionReport) : list PositionReport :=
  foldr insert_by_key [] rs.

(* --------------------------------------------------------------------- *)
(** *** What a report leaves in a record *)
(* --------------------------------------------------------------------- *)

(** The speed a bus record holds after a report: the reported one when
    the report has one. *)
Definition speed_after (reported stored : option float) : option float :=
  match reported with Some v => Some v | None => stored end.

(** The speed a bus record holds after a list of reports. *)
Definition speed_after_all (rs : list PositionReport) (stored : option float)
    : option float :=
  foldl (λ s r, speed_after (reportedSpeed r) s) stored rs.

(** A bus record with another position and speed, everything else kept. *)
Definition moved (bus : Bus.t) (location : Location) (speed : option float)
    : Bus.t :=
  Bus.mk (Bus.id bus) (Bus.busNumber bus) (Bus.route bus) (Bus.status bus)
    (Bus.capacity bus) (Bus.currentCapacity bus) location speed
    (Bus.driverId bus) (Bus.lastStop bus) (Bus.isActive bus).

(** The same report under another ordering key. *)
Definition rekey (k : Z) (r : PositionReport) : PositionReport :=
  {| vehicleId := vehicleId r; position := position r;
     reportedSpeed := reportedSpeed r; orderingKey := k |}.

(* ===================================================================== *)
(** ** Vocabulary of the statements *)
(* ===================================================================== *)

(* --------------------------------------------------------------------- *)
(** *** Reading the store *)
(* --------------------------------------------------------------------- *)

(** The latitude stored for a bus, as a specification-level float. *)
Definition stored_lat (id : Z) (st : MemStorage.t) : option spec_float :=
  (λ bus, Prim2SF (lat (Bus.location bus))) <$> MemStorage.buses st !! id.

(** The speed stored for a bus, as a specification-level float. *)
Definition stored_speed (id : Z) (st : MemStorage.t)
    : option (option spec_float) :=
  (λ bus, Prim2SF <$> Bus.speed bus) <$> MemStorage.buses st !! id.

(** The status stored for a bus. *)
Definition stored_status (id : Z) (st : MemStorage.t) : option string :=
  Bus.status <$> MemStorage.buses st !! id.

(** Every key of every map is below the counter that numbers the map. *)
Definition keys_below_counters (st : MemStorage.t) : Prop :=
  ∀ k j, is_Some (table k st !! j) → j < counter k st.


(** Whether a call is [updateBus]. *)
Definition is_updateBus (o : op) : bool :=
  match o with UpdateBus _ _ => true | _ => false end.

(* --------------------------------------------------------------------- *)
(** *** Speeds *)
(* --------------------------------------------------------------------- *)

(** The bus has no usable speed: [bus.speed] is null, undefined or zero. *)
Definition speed_unset_or_zero (bus : Bus.t) : bool :=
  match Bus.speed bus with
  | None => true
  | Some x => JS.isZero x
  end.

(** The fallback speed of [calculateETA], 20 km/h, in metres per second. *)
Definition fallbackMps : float := (20 * 1000 / 3600)%float.

(** A binary64 value that is finite and greater than zero. *)
Definition positive_finite (x : float) : bool :=
  match Prim2SF x with
  | S754_finite false _ _ => true
  | _ => false
  end.

(* --------------------------------------------------------------------- *)
(** *** Sample data *)
(* --------------------------------------------------------------------- *)

(** The first seeded bus. *)
Definition bus_101 : Bus.t :=
  Bus.mk 1 "101" "Campus Loop" "on-time" 40 26
    {| lat := 34.0522; lng := -118.2437 |} (Some 18%float) (Some 1)
    (Some "Student Center") true.

(** The third seeded bus; its speed is 20 km/h. *)
Definition bus_303 : Bus.t :=
  Bus.mk 3 "303" "Campus Loop" "on-time" 40 32
    {| lat := 34.0510; lng := -118.2400 |} (Some 20%float) (Some 3)
    (Some "Athletic Complex") true.

(** The patch [{ status: "out-of-service" }]. *)
Definition take_out_of_service : Bus.partial :=
  Bus.mkPartial None None None (Some "out-of-service") None None None None
    None None None.

(** Bus 101 after an admin has put it out of service. *)
Definition bus_101_out : Bus.t := Bus.merge bus_101 take_out_of_service.

(** Bus 101 with its speed field null, and standing still. *)
Definition bus_without_speed : Bus.t :=
  moved bus_101 (Bus.location bus_101) None.

Definition bus_stopped : Bus.t :=
  moved bus_101 (Bus.location bus_101) (Some 0%float).

(** Bus 101 with the smallest positive speed a double can hold. *)
Definition bus_crawling : Bus.t :=
  moved bus_101 (Bus.location bus_101) (Some 5e-324%float).

(** Two reports for bus 1: [report_new] is the later one by ordering key. *)
Definition report_new : PositionReport :=
  {| vehicleId := 1; position := {| lat := 34.06; lng := -118.25 |};
     reportedSpeed := Some 25%float; orderingKey := 2 |}.

Definition report_old : PositionReport :=
  {| vehicleId := 1; position := {| lat := 34.05; lng := -118.24 |};
     reportedSpeed := Some 10%float; orderingKey := 1 |}.

(** A session user with the admin role. *)
Definition admin_user : User.t :=
  User.mk 1 "admin" "admin@example.edu" "secret" "Fleet Admin" (Some "admin")
    None None None None None (Some true) None None None.

(** The body [{ lat, lng, speed }] of a location request. *)
Definition location_body (lat lng speed : float) : JS.json :=
  JS.JObject
    [("lat", JS.JNumber lat); ("lng", JS.JNumber lng);
     ("speed", JS.JNumber speed)].

(** An admin's [PUT /api/buses/1/location] with that body. *)
Definition admin_put (lat lng speed : float) : Routes.request :=
  {| Routes.user := Some admin_user; Routes.params_id := "1";
     Routes.body := location_body lat lng speed |}.

(** The store after an admin has put bus 1 out of service. *)
Definition store_with_bus_1_out : MemStorage.t :=
  run [UpdateBus 1 take_out_of_service] MemStorage.constructor.

(* --------------------------------------------------------------------- *)
(** *** Calls, rows and lists of rows *)
(* --------------------------------------------------------------------- *)

(** The table and the key that an update call addresses; [None] for
    a create call. *)
Definition target (o : op) : option (kind * Z) :=
  match o with
  | UpdateUser id _ | VerifyEmail id | SetVerificationToken id _ =>
      Some (KUser, id)
  | UpdateBus id _ | UpdateBusLocation id _ _ => Some (KBus, id)
  | UpdateRoute id _ => Some (KRoute, id)
  | UpdateDriver id _ => Some (KDriver, id)
  | UpdatePayment id _ | MarkPaymentAsPaid id _ _ => Some (KPayment, id)
  | _ => None
  end.

(** The [id] field of every row is the key the row is stored under. *)
Definition ids_match_keys (st : MemStorage.t) : Prop :=
  ∀ k j r, table k st !! j = Some r → row_id k r = j.

(** The [id] field of every user is the key the user is stored
    under. *)
Definition user_ids_match_keys (st : MemStorage.t) : Prop :=
  ∀ j u, MemStorage.users st !! j = Some u → User.id u = j.

(** A patch field that leaves the id of the row at key [id] alone:
    absent, or [id] itself. *)
Definition same_id (id : Z) (p_id : option Z) : bool :=
  match p_id with
  | None => true
  | Some j => j =? id
  end.

(** The call does not rewrite the [id] field of a row. *)
Definition keeps_id (o : op) : bool :=
  match o with
  | UpdateUser id p => same_id id (User.p_id p)
  | UpdateBus id p => same_id id (Bus.p_id p)
  | UpdateRoute id p => same_id id (Route.p_id p)
  | UpdateDriver id p => same_id id (Driver.p_id p)
  | UpdatePayment id p => same_id id (Payment.p_id p)
  | _ => true
  end.

(** One field of [{ ...p, ...q }]: the value of [q] where [q] has one. *)
Definition later {A} (p q : option A) : option A :=
  match q with
  | Some v => Some v
  | None => p
  end.

(** The bus patch [{ ...p, ...q }]. *)
Definition spread (p q : Bus.partial) : Bus.partial :=
  Bus.mkPartial
    (later (Bus.p_id p) (Bus.p_id q))
    (later (Bus.p_busNumber p) (Bus.p_busNumber q))
    (later (Bus.p_route p) (Bus.p_route q))
    (later (Bus.p_status p) (Bus.p_status q))
    (later (Bus.p_capacity p) (Bus.p_capacity q))
    (later (Bus.p_currentCapacity p) (Bus.p_currentCapacity q))
    (later (Bus.p_location p) (Bus.p_location q))
    (later (Bus.p_speed p) (Bus.p_speed q))
    (later (Bus.p_driverId p) (Bus.p_driverId q))
    (later (Bus.p_lastStop p) (Bus.p_lastStop q))
    (later (Bus.p_isActive p) (Bus.p_isActive q)).

(** What a search of the rows of [m] for a property returns: the row
    of least key that has the property, nothing when no row has it. *)
Definition first_with {A} (P : A → Prop) (m : gmap Z A) (r : option A)
    : Prop :=
  match r with
  | Some x =>
      P x ∧ ∃ k, m !! k = Some x ∧ ∀ k' y, m !! k' = Some y → P y → k ≤ k'
  | None => ∀ k y, m !! k = Some y → ¬ P y
  end.

(** No two rows of [m] agree on the field [f]. *)
Definition unique_by {A B} (f : A → B) (m : gmap Z A) : Prop :=
  ∀ i j x y, m !! i = Some x → m !! j = Some y → f x = f y → i = j.

(** The accounts are consistent: the [id] field of every user is its
    key, no two users share a username and no two share an email. *)
Definition accounts_consistent (st : MemStorage.t) : Prop :=
  user_ids_match_keys st
  ∧ unique_by User.username (MemStorage.users st)
  ∧ unique_by User.email (MemStorage.users st).

(** The record [u'] is the account [u] later on: same id, username,
    email and password, and verified if [u] was. *)
Definition same_account (u u' : User.t) : Prop :=
  User.id u' = User.id u
  ∧ User.username u' = User.username u
  ∧ User.email u' = User.email u
  ∧ User.password u' = User.password u
  ∧ (User.isEmailVerified u = Some true →
     User.isEmailVerified u' = Some true).

(** Every user of [st'] is a user of [st] under the same key, with
    the same id, username and email. *)
Definition users_from (st st' : MemStorage.t) : Prop :=
  ∀ k u',
    MemStorage.users st' !! k = Some u' →
    ∃ u, MemStorage.users st !! k = Some u
         ∧ User.id u' = User.id u
         ∧ User.username u' = User.username u
         ∧ User.email u' = User.email u.

(** The registration [data] shares no username and no email with a
    registration that waits for its hash. *)
Definition apart (data : User.insert) (hashing : list User.insert) : Prop :=
  ∀ d, d ∈ hashing →
    User.i_username d ≠ User.i_username data
    ∧ User.i_email d ≠ User.i_email data.

(** Along the steps taken from [s], no registration passes its checks
    while one with the same username or the same email waits for its
    hash. *)
Fixpoint registrations_apart (requests : list App.request) (s : App.state)
    : Prop :=
  match requests with
  | [] => True
  | r :: rest =>
      match r with
      | App.RegisterChecks validatedData =>
          ∀ data,
            Auth.register_checks validatedData (App.store s) = inr data →
            apart data (App.hashing s)
      | _ => True
      end
      ∧ registrations_apart rest (App.handle r s)
  end.

(** The registrations that wait for their hash share no username and no
    email with a stored user, nor with one another. *)
Definition waiting_apart (s : App.state) : Prop :=
  (∀ d k u,
     d ∈ App.hashing s → MemStorage.users (App.store s) !! k = Some u →
     User.username u ≠ User.i_username d ∧ User.email u ≠ User.i_email d)
  ∧ (∀ i j d d',
       App.hashing s !! i = Some d → App.hashing s !! j = Some d' → i ≠ j →
       User.i_username d ≠ User.i_username d'
       ∧ User.i_email d ≠ User.i_email d').

(** A user record after its email was verified. *)
Definition verified (u : User.t) : User.t :=
  User.mk (User.id u) (User.username u) (User.email u) (User.password u)
    (User.fullName u) (User.role u) (User.urn u) (User.department u)
    (User.classYear u) (User.contactNumber u) (User.address u) (Some true)
    None (User.lastLogin u) (User.createdAt u).

(** A user record with another verification token. *)
Definition with_token (token : string) (u : User.t) : User.t :=
  User.mk (User.id u) (User.username u) (User.email u) (User.password u)
    (User.fullName u) (User.role u) (User.urn u) (User.department u)
    (User.classYear u) (User.contactNumber u) (User.address u)
    (User.isEmailVerified u) (Some token) (User.lastLogin u)
    (User.createdAt u).

(** A payment record after it was paid. *)
Definition paid (paymentMethod : string) (now : Z) (x : Payment.t)
    : Payment.t :=
  Payment.mk (Payment.id x) (Payment.userId x) (Payment.amount x)
    (Payment.dueDate x) true (Some now) (Some paymentMethod)
    (Payment.description x) (Payment.category x) (Payment.semester x)
    (Payment.academicYear x) (Payment.createdAt x).

(** The store without the payment stored under [id]. *)
Definition without_payment (id : Z) (st : MemStorage.t) : MemStorage.t :=
  MemStorage.with_payments (delete id (MemStorage.payments st))
    (MemStorage.paymentId st) st.

(** The bus has a speed that [calculateETA] can divide by: none, zero
    or NaN, for which 20 km/h stands in, or at least 1 km/h. *)
Definition speed_usable (bus : Bus.t) : bool :=
  match Bus.speed bus with
  | None => true
  | Some v => negb (JS.truthy v) || (1 <=? v)%float
  end.

(** The UTF-8 bytes of a code point up to U+FFFF. *)
Definition utf8 (c : Z) : string :=
  let b n := Ascii.ascii_of_nat (Z.to_nat n) in
  if c <? 128 then String (b c) EmptyString
  else if c <? 2048 then
    String (b (192 + c / 64)) (String (b (128 + c mod 64)) EmptyString)
  else
    String (b (224 + c / 4096))
      (String (b (128 + c / 64 mod 64))
         (String (b (128 + c mod 64)) EmptyString)).

(** An admin's location request for the path parameter [id]. *)
Definition admin_put_at (id : string) (lat lng : float) : Routes.request :=
  {| Routes.user := Some admin_user; Routes.params_id := id;
     Routes.body :=
       JS.JObject [("lat", JS.JNumber lat); ("lng", JS.JNumber lng)] |}.

(** A request without a session: [req.isAuthenticated()] is false. *)
Definition anonymous (id : string) : Routes.request :=
  {| Routes.user := None; Routes.params_id := id; Routes.body := JS.JNull |}.

(** A validated registration, the password hashed already. *)
Definition ana : User.insert :=
  User.mkInsert "ana" "ana@example.edu" "hash.salt" "Ana Lee"
    (Some "student") None None None None None.

(** The record [createUser] makes of [ana] on the constructed store,
    with the token "t0" at time 0. *)
Definition ana_user : User.t :=
  User.mk 1 "ana" "ana@example.edu" "hash.salt" "Ana Lee" (Some "student")
    None None None None None (Some false) (Some "t0") None (Some 0).

Definition store_with_ana : MemStorage.t :=
  run [CreateUser ana "t0" 0] MemStorage.constructor.

(** A payment of user 1 that is due. *)
Definition bus_pass : Payment.insert :=
  Payment.mkInsert 1 250000 "2025-01-15" "Bus pass" "transport" None None.

Definition store_with_bus_pass : MemStorage.t :=
  run [CreatePayment bus_pass 0] MemStorage.constructor.

(* ===================================================================== *)
(** ** Rounding in binary64, in integers

    The vocabulary of the proofs about division and [Math.round]: the
    exact quotient [a / b] of two integers stands for the real number
    that the IEEE operation rounds. *)
(* ===================================================================== *)

(** Where a remainder [r] of a division by [b] lies in the interval
    between two consecutive quotients: on its lower end, below, at or
    above the middle. *)
Definition rem_loc (r b : Z) : location :=
  if r =? 0 then loc_Exact else loc_Inexact (2 * r ?= b).

(** A shift record that holds the quotient [a / b] and the place of
    its remainder. *)
Definition holds (rec : shr_record) (a b : Z) : Prop :=
  0 ≤ a ∧ 0 < b
  ∧ shr_m rec = a / b
  ∧ loc_of_shr_record rec = rem_loc (a mod b) b.

(** [a / b] rounded to the nearest integer, ties to even. *)
Definition nearest_even (a b : Z) : Z :=
  round_nearest_even (a / b) (rem_loc (a mod b) b).

(** The last step of rounding: a rounded mantissa [m] at exponent [E]
    is renormalised and packed, overflowing to infinity. *)
Definition pack (s : bool) (m E : Z) : spec_float :=
  let '(r, e) := shr_fexp prec emax m E loc_Exact in
  match shr_m r with
  | 0 => S754_zero s
  | Z.pos p => if e <=? emax - prec then S754_finite s p e else S754_infinity s
  | Z.neg _ => S754_nan
  end.

(** The quotient [a / b] lies in the range of a mantissa at its
    exponent [E]: below 2^53, and at least 2^52 unless [E] is the least
    exponent. *)
Definition in_range (a b E : Z) : Prop :=
  0 ≤ a ∧ 0 < b ∧ -1074 ≤ E ∧ a < 2 ^ 53 * b ∧ (-1074 < E → 2 ^ 52 * b ≤ a).

(** A specification-level float that is a zero, a positive finite
    number or plus infinity. *)
Definition nonneg_spec (x : spec_float) : bool :=
  match x with
  | S754_zero _ | S754_finite false _ _ | S754_infinity false => true
  | _ => false
  end.

(** The value of a non-negative finite number, scaled by 2^1074 so that
    it is an integer. *)
Definition scaled (x : spec_float) : Z :=
  match x with
  | S754_finite _ m e => Z.pos m * 2 ^ (e + 1074)
  | _ => 0
  end.

(** [Math.round] on scaled values. *)
Definition round_scaled (w : Z) : Z :=
  (2 * w + 2 ^ 1074) / 2 ^ 1075 * 2 ^ 1074.

(** Two specification-level floats that compare alike with every
    other: equal, or zeros of different sign. *)
Definition same_order (x y : spec_float) : Prop :=
  ∀ z, SFleb x z = SFleb y z ∧ SFleb z x = SFleb z y.

(** A mantissa with its exponent, as they come out of rounding. *)
Definition rounded (m E : Z) : Prop :=
  0 ≤ m ≤ 2 ^ 53 ∧ -1074 ≤ E ∧ (-1074 < E → 2 ^ 52 ≤ m).

(* ===================================================================== *)
(** * Properties of the store *)
(* ===================================================================== *)

Section StoreFacts.
Implicit Types (st : MemStorage.t) (id : Z) (bus : Bus.t).

Lemma updateBusLocation_found id location speed st bus :
  MemStorage.buses st !! id = Some bus →
  MemStorage.updateBusLocation id location speed st =
    (Some (moved bus location (speed_after speed (Bus.speed bus))),
     MemStorage.with_buses
       (<[id := moved bus location (speed_after speed (Bus.speed bus))]>
          (MemStorage.buses st))
       (MemStorage.busId st) st).
Proof.
  intros Hbus. unfold MemStorage.updateBusLocation. rewrite Hbus.
  reflexivity.
Qed.

Lemma updateBusLocation_missing id location speed st :
  MemStorage.buses st !! id = None →
  MemStorage.updateBusLocation id location speed st = (None, st).
Proof.
  intros Hbus. unfold MemStorage.updateBusLocation. by rewrite Hbus.
Qed.

Lemma deliver_snoc rs r st :
  deliver (rs ++ [r]) st = (upsert r (deliver rs st)).2.
Proof. unfold deliver. by rewrite foldl_app. Qed.

(** What a list of reports for one bus leaves in the store: the bus
    at the position of the last report. *)
Lemma deliver_same_bus rs : ∀ st id bus,
  MemStorage.buses st !! id = Some bus →
  Forall (λ r, vehicleId r = id) rs →
  MemStorage.buses (deliver rs st) !! id =
    Some (moved bus (default (Bus.location bus) (position <$> last rs))
            (speed_after_all rs (Bus.speed bus))).
Proof.
  induction rs as [|r rs IH] using rev_ind; intros st id bus Hbus Hall.
  - simpl. rewrite Hbus. by destruct bus.
  - apply Forall_app in Hall as [Hrs Hr].
    rewrite Forall_singleton in Hr.
    rewrite deliver_snoc. unfold upsert. rewrite Hr.
    rewrite (updateBusLocation_found _ _ _ _ _ (IH st id bus Hbus Hrs)).
    simpl. rewrite lookup_insert_eq, last_snoc.
    unfold speed_after_all. rewrite foldl_app. reflexivity.
Qed.

End StoreFacts.

Lemma constructor_bus_101 :
  MemStorage.buses MemStorage.constructor !! 1 = Some bus_101.
Proof. vm_compute. reflexivity. Qed.

(* --------------------------------------------------------------------- *)
(** ** C1: reports with an old ordering key *)
(* --------------------------------------------------------------------- *)

(** C1, as claimed, fails: after [report_new] (key 2) was stored for
    bus 1, the report [report_old] for the same bus with the smaller
    key 1 is not rejected; the call returns the bus at the old report's
    position and the stored latitude changes. *)
Lemma stale_report_overwrites :
  let st := (upsert report_new MemStorage.constructor).2 in
  vehicleId report_old = vehicleId report_new
  ∧ orderingKey report_old ≤ orderingKey report_new
  ∧ (upsert report_old st).1 =
      Some (moved bus_101 (position report_old) (reportedSpeed report_old))
  ∧ stored_lat 1 (upsert report_old st).2 ≠ stored_lat 1 st.
Proof.
  split; [reflexivity |].
  split; [vm_compute; discriminate |].
  split; [vm_compute; reflexivity |].
  vm_compute. discriminate.
Qed.

(** C1 (amended): for a bus that has a record, [updateBusLocation]
    accepts every report whatever its ordering key: the call returns the
    record moved to the reported position (with the reported speed when
    there is one) and stores it under the bus id; the rest of the
    bus map is as before. *)
Theorem upsert_ignores_ordering_key
    (r : PositionReport) (k : Z) (st : MemStorage.t) (bus : Bus.t) :
  MemStorage.buses st !! vehicleId r = Some bus →
  let bus' :=
    moved bus (position r) (speed_after (reportedSpeed r) (Bus.speed bus)) in
  upsert (rekey k r) st = upsert r st
  ∧ (upsert r st).1 = Some bus'
  ∧ MemStorage.buses (upsert r st).2 !! vehicleId r = Some bus'
  ∧ ∀ j, j ≠ vehicleId r →
      MemStorage.buses (upsert r st).2 !! j = MemStorage.buses st !! j.
Proof.
  intros Hbus bus'. unfold upsert. split; [reflexivity |].
  rewrite (updateBusLocation_found _ _ _ _ _ Hbus). simpl.
  split; [reflexivity |]. split.
  - apply lookup_insert_eq.
  - intros j Hj. by apply lookup_insert_ne.
Qed.

Lemma upsert_ignores_ordering_key_witness :
  MemStorage.buses MemStorage.constructor !! vehicleId report_old
    = Some bus_101
  ∧ (let bus' :=
       moved bus_101 (position report_old)
         (speed_after (reportedSpeed report_old) (Bus.speed bus_101)) in
     upsert (rekey 0 report_old) MemStorage.constructor
       = upsert report_old MemStorage.constructor
     ∧ (upsert report_old MemStorage.constructor).1 = Some bus'
     ∧ MemStorage.buses (upsert report_old MemStorage.constructor).2
         !! vehicleId report_old = Some bus'
     ∧ ∀ j, j ≠ vehicleId report_old →
         MemStorage.buses (upsert report_old MemStorage.constructor).2 !! j
           = MemStorage.buses MemStorage.constructor !! j).
Proof.
  split.
  - vm_compute. reflexivity.
  - apply (upsert_ignores_ordering_key report_old 0 MemStorage.constructor
             bus_101).
    vm_compute. reflexivity.
Defined.

(* --------------------------------------------------------------------- *)
(** ** C2: delivery order *)
(* --------------------------------------------------------------------- *)

(** C2, as claimed, fails: delivered as [report_new; report_old], a
    permutation of the key order [report_old; report_new], the two
    reports leave bus 1 at another latitude than delivered in key
    order. *)
Lemma delivery_order_matters :
  sort_by_key [report_new; report_old] = [report_old; report_new]
  ∧ Permutation [report_new; report_old] (sort_by_key [report_new; report_old])
  ∧ stored_lat 1 (deliver [report_new; report_old] MemStorage.constructor)
      ≠ stored_lat 1
          (deliver (sort_by_key [report_new; report_old])
             MemStorage.constructor).
Proof.
  split; [reflexivity |]. split.
  - change (sort_by_key [report_new; report_old])
      with [report_old; report_new].
    apply perm_swap.
  - vm_compute. discriminate.
Qed.

(** C2 (amended): the reports of a list, all for one bus that has a
    record, leave that bus at the position of the report delivered
    last, with the speed of the last report that carried one (the stored
    speed when none did) and every other field as it was. *)
Theorem last_delivered_report_wins
    (rs : list PositionReport) (r : PositionReport) (st : MemStorage.t)
    (bus : Bus.t) :
  MemStorage.buses st !! vehicleId r = Some bus →
  Forall (λ x, vehicleId x = vehicleId r) rs →
  MemStorage.buses (deliver (rs ++ [r]) st) !! vehicleId r =
    Some (moved bus (position r)
            (speed_after_all (rs ++ [r]) (Bus.speed bus))).
Proof.
  intros Hbus Hrs.
  rewrite (deliver_same_bus (rs ++ [r]) st (vehicleId r) bus Hbus).
  - by rewrite last_snoc.
  - apply Forall_app. split; [exact Hrs | by apply Forall_singleton].
Qed.

Lemma last_delivered_report_wins_witness :
  MemStorage.buses MemStorage.constructor !! vehicleId report_old
    = Some bus_101
  ∧ Forall (λ x, vehicleId x = vehicleId report_old) [report_new]
  ∧ MemStorage.buses (deliver ([report_new] ++ [report_old])
                        MemStorage.constructor) !! vehicleId report_old =
      Some (moved bus_101 (position report_old)
              (speed_after_all ([report_new] ++ [report_old])
                 (Bus.speed bus_101))).
Proof.
  split; [vm_compute; reflexivity |].
  split; [repeat constructor |].
  apply (last_delivered_report_wins [report_new] report_old
           MemStorage.constructor bus_101).
  - vm_compute. reflexivity.
  - repeat constructor.
Defined.

(* --------------------------------------------------------------------- *)
(** ** C9: what a position update touches *)
(* --------------------------------------------------------------------- *)

(** C9: for a bus id that has a record, [updateBusLocation] returns and
    stores a record whose [location] is the argument, whose [speed] is
    the argument when one is given and the stored speed otherwise, and
    whose other fields are those of the stored record; the records of
    all other buses, the other five maps and the six counters are
    unchanged. *)
Theorem updateBusLocation_frame
    (id : Z) (location : Location) (speed : option float)
    (st : MemStorage.t) (bus : Bus.t) :
  MemStorage.buses st !! id = Some bus →
  let res := MemStorage.updateBusLocation id location speed st in
  ∃ bus',
    res.1 = Some bus'
    ∧ MemStorage.buses res.2 !! id = Some bus'
    ∧ Bus.location bus' = location
    ∧ Bus.speed bus' =
        match speed with Some v => Some v | None => Bus.speed bus end
    ∧ (Bus.id bus' = Bus.id bus
       ∧ Bus.busNumber bus' = Bus.busNumber bus
       ∧ Bus.route bus' = Bus.route bus
       ∧ Bus.status bus' = Bus.status bus
       ∧ Bus.capacity bus' = Bus.capacity bus
       ∧ Bus.currentCapacity bus' = Bus.currentCapacity bus
       ∧ Bus.driverId bus' = Bus.driverId bus
       ∧ Bus.lastStop bus' = Bus.lastStop bus
       ∧ Bus.isActive bus' = Bus.isActive bus)
    ∧ (∀ j, j ≠ id →
         MemStorage.buses res.2 !! j = MemStorage.buses st !! j)
    ∧ (∀ k, k ≠ KBus → table k res.2 = table k st)
    ∧ (∀ k, counter k res.2 = counter k st).
Proof.
  intros Hbus res. subst res.
  rewrite (updateBusLocation_found _ _ _ _ _ Hbus). simpl.
  eexists. split; [reflexivity |].
  split; [apply lookup_insert_eq |].
  repeat split; try reflexivity.
  - intros j Hj. by apply lookup_insert_ne.
  - intros [] Hk; try reflexivity. by destruct Hk.
Qed.

Lemma updateBusLocation_frame_witness :
  MemStorage.buses MemStorage.constructor !! 1 = Some bus_101
  ∧ ∃ bus',
      (MemStorage.updateBusLocation 1 (position report_old) None
         MemStorage.constructor).1 = Some bus'
      ∧ Bus.speed bus' = Some 18%float
      ∧ Bus.status bus' = "on-time".
Proof.
  split; [vm_compute; reflexivity |].
  destruct (updateBusLocation_frame 1 (position report_old) None
              MemStorage.constructor bus_101)
    as (bus' & Hres & _ & _ & Hspeed & Hrest & _).
  - vm_compute. reflexivity.
  - exists bus'. split; [exact Hres |]. split; [exact Hspeed |].
    apply Hrest.
Defined.

(* --------------------------------------------------------------------- *)
(** ** C3: what the location endpoint validates *)
(* --------------------------------------------------------------------- *)

(** C3, as claimed, fails: an admin's report for bus 1 with speed -5,
    with speed 500, or at latitude 1000 and longitude -5000 is answered
    with status 200, and the value is stored. *)
Lemma implausible_reports_accepted :
  let put (lat lng speed : float) :=
    Routes.put_bus_location (admin_put lat lng speed) MemStorage.constructor in
  Routes.status_of (put 34.05 (-118.24) (-5))%float.1 = 200
  ∧ stored_speed 1 (put 34.05 (-118.24) (-5))%float.2
      = Some (Some (Prim2SF (-5)))
  ∧ Routes.status_of (put 34.05 (-118.24) 500)%float.1 = 200
  ∧ stored_speed 1 (put 34.05 (-118.24) 500)%float.2
      = Some (Some (Prim2SF 500))
  ∧ Routes.status_of (put 1000 (-5000) 18)%float.1 = 200
  ∧ stored_lat 1 (put 1000 (-5000) 18)%float.2 = Some (Prim2SF 1000).
Proof. vm_compute. repeat split; reflexivity. Qed.

(** C3 (amended): the endpoint checks the caller's role, the types of
    the body ([lat] and [lng] numbers, [speed] a number or absent), that
    the id parses and that the bus exists, and nothing about the values:
    a request is answered with 200 exactly when these four checks pass,
    whatever the speed and position are, and then the store is the one
    [updateBusLocation] leaves; every other answer (403, 400, 404)
    leaves the store unchanged. *)
Theorem location_endpoint_checks (req : Routes.request) (st : MemStorage.t) :
  let res := Routes.put_bus_location req st in
  (Routes.status_of res.1 ≠ 200 →
     res.2 = st ∧ Routes.status_of res.1 ∈ [403; 400; 404])
  ∧ (Routes.status_of res.1 = 200 ↔
       Routes.is_admin req = true
       ∧ ∃ lat lng speed id,
           Routes.locationSchema (Routes.body req) = Some (lat, lng, speed)
           ∧ JS.parseInt (Routes.params_id req) = Some id
           ∧ is_Some (MemStorage.buses st !! id))
  ∧ (∀ lat lng speed id bus,
       Routes.is_admin req = true →
       Routes.locationSchema (Routes.body req) = Some (lat, lng, speed) →
       JS.parseInt (Routes.params_id req) = Some id →
       MemStorage.buses st !! id = Some bus →
       res.1 = Routes.Json 200
                 (moved bus {| lat := lat; lng := lng |}
                    (speed_after speed (Bus.speed bus)))
       ∧ res.2 = (MemStorage.updateBusLocation id
                    {| lat := lat; lng := lng |} speed st).2).
Proof.
  unfold Routes.put_bus_location.
  destruct (Routes.is_admin req) eqn:Hadmin; simpl.
  2: { split; [intros _; split; [done | set_solver] |].
       split; [split; [done | by intros [? _]] | by intros]. }
  destruct (Routes.locationSchema (Routes.body req)) as [[[lat lng] speed]|]
    eqn:Hbody; simpl.
  2: { split; [intros _; split; [done | set_solver] |].
       split; [split; [done | by intros [_ (? & ? & ? & ? & ? & _)]] |
               by intros]. }
  destruct (JS.parseInt (Routes.params_id req)) as [id|] eqn:Hid; simpl.
  2: { split; [intros _; split; [done | set_solver] |].
       split; [split; [done | by intros [_ (? & ? & ? & ? & _ & ? & _)]] |
               by intros]. }
  destruct (MemStorage.buses st !! id) as [bus|] eqn:Hbus.
  - rewrite (updateBusLocation_found _ _ _ _ _ Hbus). simpl.
    split; [done |]. split.
    + split; [intros _ | done]. split; [done |].
      exists lat, lng, speed, id. by rewrite Hbus.
    + intros lat' lng' speed' id' bus' _ [= <- <- <-] [= <-] Hbus'.
      rewrite Hbus in Hbus'. injection Hbus' as <-.
      rewrite (updateBusLocation_found _ _ _ _ _ Hbus). split; reflexivity.
  - rewrite (updateBusLocation_missing _ _ _ _ Hbus). simpl.
    split; [intros _; split; [done | set_solver] |]. split.
    + split; [done |].
      intros [_ (lat' & lng' & speed' & id' & _ & [= <-] & Hsome)].
      rewrite Hbus in Hsome. by destruct Hsome.
    + intros lat' lng' speed' id' bus' _ _ [= <-] Hbus'. congruence.
Qed.

Lemma location_endpoint_checks_witness :
  Routes.is_admin (admin_put 34.05 (-118.24) (-5)) = true
  ∧ Routes.locationSchema (Routes.body (admin_put 34.05 (-118.24) (-5)))
      = Some (34.05%float, (-118.24)%float, Some (-5)%float)
  ∧ JS.parseInt (Routes.params_id (admin_put 34.05 (-118.24) (-5))) = Some 1
  ∧ MemStorage.buses MemStorage.constructor !! 1 = Some bus_101
  ∧ (Routes.put_bus_location (admin_put 34.05 (-118.24) (-5))
       MemStorage.constructor).1
      = Routes.Json 200
          (moved bus_101 {| lat := 34.05; lng := -118.24 |}
             (Some (-5)%float)).
Proof.
  split; [reflexivity |]. split; [vm_compute; reflexivity |].
  split; [reflexivity |]. split; [vm_compute; reflexivity |].
  destruct (location_endpoint_checks (admin_put 34.05 (-118.24) (-5))
              MemStorage.constructor) as (_ & _ & Haccept).
  apply (Haccept 34.05%float (-118.24)%float (Some (-5)%float) 1 bus_101).
  - reflexivity.
  - vm_compute. reflexivity.
  - reflexivity.
  - vm_compute. reflexivity.
Defined.

(** The id check is that of [parseInt]: white space before the digits
    is trimmed, every [StrWhiteSpaceChar] of ECMAScript alike, in one,
    two or three bytes. *)
Lemma skip_space_trims (c : Z) (s : string) :
  JS.StrWhiteSpaceChar c = true →
  JS.skip_space (utf8 c ++ s) = JS.skip_space s.
Proof.
  intros Hc.
  assert (c ∈ seqZ 9 5 ++ [32; 160; 5760] ++ seqZ 8192 11
            ++ [8232; 8233; 8239; 8287; 12288; 65279]) as Hin.
  { unfold JS.StrWhiteSpaceChar in Hc.
    rewrite !elem_of_app, !elem_of_seqZ, !elem_of_cons.
    repeat (apply orb_prop in Hc as [Hc | Hc]); lia. }
  clear Hc. vm_compute in Hin.
  repeat (apply elem_of_cons in Hin as [-> | Hin]; [reflexivity |]).
  by apply elem_of_nil in Hin.
Qed.

Lemma parseInt_trims (c : Z) (s : string) :
  JS.StrWhiteSpaceChar c = true →
  JS.parseInt (utf8 c ++ s) = JS.parseInt s.
Proof. intros Hc. unfold JS.parseInt. by rewrite skip_space_trims. Qed.

(** What is not white space is not trimmed: U+200B (zero width space)
    and U+0085 (next line) before the digits leave no integer, and so
    does the byte 160 on its own, which is no character in UTF-8. *)
Lemma parseInt_keeps_other_characters :
  JS.parseInt (utf8 8203 ++ "1") = None
  ∧ JS.parseInt (utf8 133 ++ "1") = None
  ∧ JS.parseInt (String (Ascii.ascii_of_nat 160) "1") = None.
Proof. vm_compute. repeat split; reflexivity. Qed.

(** An admin's report for the id U+00A0 (no-break space) then "1" moves
    bus 1 and is answered 200; so it is with U+FEFF, U+2028 and U+3000
    before the digit. *)
Lemma location_endpoint_trims_the_id :
  let put (id : string) :=
    Routes.put_bus_location (admin_put_at id 34.05 (-118.24))
      MemStorage.constructor in
  let answer :=
    Routes.Json 200
      (moved bus_101 {| lat := 34.05; lng := -118.24 |} (Bus.speed bus_101)) in
  (put (utf8 160 ++ "1")%string).1 = answer
  ∧ stored_lat 1 (put (utf8 160 ++ "1")%string).2 = Some (Prim2SF 34.05)
  ∧ (put (utf8 65279 ++ "1")%string).1 = answer
  ∧ (put (utf8 8232 ++ utf8 12288 ++ " 1")%string).1 = answer.
Proof. vm_compute. repeat split; reflexivity. Qed.

(* --------------------------------------------------------------------- *)
(** ** Runs: keys stay below the counters *)
(* --------------------------------------------------------------------- *)

Section RunFacts.
Implicit Types (st : MemStorage.t) (o : op) (k : kind).

Ltac unfold_calls :=
  unfold MemStorage.createUser, MemStorage.updateUser, MemStorage.verifyEmail,
    MemStorage.setVerificationToken, MemStorage.createBus,
    MemStorage.updateBus, MemStorage.updateBusLocation,
    MemStorage.createBusStop, MemStorage.createRoute, MemStorage.updateRoute,
    MemStorage.createDriver, MemStorage.updateDriver,
    MemStorage.createPayment, MemStorage.updatePayment,
    MemStorage.markPaymentAsPaid in *.


Lemma step_keys_below o st :
  keys_below_counters st → keys_below_counters (step o st).
Proof.
  intros Hinv k j.
  pose proof (Hinv KUser) as HU. pose proof (Hinv KBus) as HB.
  pose proof (Hinv KBusStop) as HS. pose proof (Hinv KRoute) as HR.
  pose proof (Hinv KDriver) as HD. pose proof (Hinv KPayment) as HP.
  simpl in HU, HB, HS, HR, HD, HP.
  assert (∀ (A : Type) (m : gmap Z A) i x, m !! i = Some x → is_Some (m !! i))
    as Hsome by (intros A m i x ->; eauto).
  destruct o; simpl; unfold_calls; repeat case_match;
    destruct k; simpl; rewrite ?lookup_insert_is_Some; intros Hj;
    try (destruct Hj as [<- | [_ Hj]]);
    repeat match goal with
           | H : _ !! _ = Some _ |- _ => apply Hsome in H
           end;
    repeat match goal with
           | H : is_Some _ |- _ =>
               first [ apply HU in H | apply HB in H | apply HS in H
                     | apply HR in H | apply HD in H | apply HP in H ]
           end;
    lia.
Qed.

Lemma run_keys_below ops : ∀ st,
  keys_below_counters st → keys_below_counters (run ops st).
Proof.
  induction ops as [|o ops IH]; intros st Hinv; [exact Hinv |].
  simpl. apply IH. by apply step_keys_below.
Qed.


Lemma run_app ops1 ops2 st : run (ops1 ++ ops2) st = run ops2 (run ops1 st).
Proof.
  revert st. induction ops1 as [|o ops1 IH]; intros st; simpl; [done |].
  apply IH.
Qed.





Lemma empty_keys_below : keys_below_counters MemStorage.empty.
Proof. intros [] j [x Hx]; simpl in Hx; by rewrite lookup_empty in Hx. Qed.

Lemma constructor_run :
  MemStorage.constructor = run seed_calls MemStorage.empty.
Proof. vm_compute. reflexivity. Qed.

Lemma reachable_keys_below ops :
  keys_below_counters (run ops MemStorage.constructor).
Proof.
  apply run_keys_below. rewrite constructor_run.
  apply run_keys_below, empty_keys_below.
Qed.

End RunFacts.

(* --------------------------------------------------------------------- *)
(** ** C10: ids handed out by the create calls *)
(* --------------------------------------------------------------------- *)




(* --------------------------------------------------------------------- *)
(** ** C8: status and position reports *)
(* --------------------------------------------------------------------- *)

(** C8, as claimed, fails: with bus 1 out of service, an accepted
    position report (status 200) leaves it out of service; it does not
    revert to an active status. *)
Lemma report_does_not_reactivate :
  let res :=
    Routes.put_bus_location (admin_put 34.05 (-118.24) 18)
      store_with_bus_1_out in
  stored_status 1 store_with_bus_1_out = Some "out-of-service"
  ∧ Routes.status_of res.1 = 200
  ∧ stored_status 1 res.2 = Some "out-of-service".
Proof. vm_compute. repeat split; reflexivity. Qed.

(** C8 (amended): the store has no staleness timer and no transition
    driven by reports; in every state reached from the constructor, of
    all calls that change the store only [updateBus] changes the status
    of a bus that has a record: after any other call, a position report
    included, every such bus has the status it had before. *)
Theorem status_changes_only_by_updateBus
    (ops : list op) (o : op) (j : Z) (bus : Bus.t) :
  is_updateBus o = false →
  MemStorage.buses (run ops MemStorage.constructor) !! j = Some bus →
  ∃ bus', MemStorage.buses (step o (run ops MemStorage.constructor)) !! j
            = Some bus'
          ∧ Bus.status bus' = Bus.status bus.
Proof.
  intros Ho Hbus.
  pose proof (reachable_keys_below ops KBus j) as Hlt. simpl in Hlt.
  rewrite Hbus in Hlt. specialize (Hlt (mk_is_Some _ _ eq_refl)).
  set (st := run ops MemStorage.constructor) in *.
  destruct o; try discriminate Ho; simpl;
    try (exists bus; split; [exact Hbus | reflexivity]).
  - unfold MemStorage.updateUser.
    destruct (MemStorage.users st !! id); by exists bus.
  - unfold MemStorage.verifyEmail.
    destruct (MemStorage.users st !! id); by exists bus.
  - unfold MemStorage.setVerificationToken.
    destruct (MemStorage.users st !! id); by exists bus.
  - exists bus. split; [| reflexivity].
    rewrite lookup_insert_ne; [exact Hbus | lia].
  - destruct (decide (id = j)) as [->|Hne].
    + rewrite (updateBusLocation_found _ _ _ _ _ Hbus). simpl.
      eexists. split; [apply lookup_insert_eq | reflexivity].
    + exists bus. split; [| reflexivity].
      unfold MemStorage.updateBusLocation.
      destruct (MemStorage.buses st !! id); simpl; [| exact Hbus].
      by rewrite lookup_insert_ne.
  - unfold MemStorage.updateRoute.
    destruct (MemStorage.routes st !! id); by exists bus.
  - unfold MemStorage.updateDriver.
    destruct (MemStorage.drivers st !! id); by exists bus.
  - unfold MemStorage.updatePayment.
    destruct (MemStorage.payments st !! id); by exists bus.
  - unfold MemStorage.markPaymentAsPaid.
    destruct (MemStorage.payments st !! id); by exists bus.
Qed.

Lemma status_changes_only_by_updateBus_witness :
  is_updateBus (UpdateBusLocation 1 (position report_old) None) = false
  ∧ MemStorage.buses (run [] MemStorage.constructor) !! 1 = Some bus_101
  ∧ ∃ bus', MemStorage.buses
              (step (UpdateBusLocation 1 (position report_old) None)
                 (run [] MemStorage.constructor)) !! 1 = Some bus'
            ∧ Bus.status bus' = Bus.status bus_101.
Proof.
  split; [reflexivity |]. split; [vm_compute; reflexivity |].
  apply (status_changes_only_by_updateBus []
           (UpdateBusLocation 1 (position report_old) None) 1 bus_101).
  - reflexivity.
  - vm_compute. reflexivity.
Defined.

(* ===================================================================== *)
(** * Binary64 facts

    What the estimates need of IEEE-754 arithmetic, proved from the
    specification of the primitive operations ([SpecFloat]):

    - rounding a non-negative quotient never produces NaN and does not
      overflow when the divisor is at least 2 ([SFdiv_finite]);
    - the quotient of two positive finite numbers is their exact
      quotient rounded to the nearest even mantissa at the exponent of
      the format ([SFdiv_pack]);
    - division by a positive finite number and [Math.round] are
      monotone on the non-negative numbers ([SFdiv_mono],
      [Math_round_mono]). *)
(* ===================================================================== *)

Section Binary64.

Lemma digits2_pos_size (p : positive) : digits2_pos p = Pos.size p.
Proof. induction p; simpl; congruence. Qed.

Lemma Zdigits2_nonneg (m : Z) : 0 ≤ Zdigits2 m.
Proof. destruct m; simpl; lia. Qed.

Lemma Zdigits2_upper (m : Z) : 0 ≤ m → m < 2 ^ Zdigits2 m.
Proof.
  destruct m as [|p|p]; simpl; [lia | | lia]. intros _.
  rewrite digits2_pos_size.
  pose proof (Pos.size_gt p) as H.
  apply Pos2Z.pos_lt_pos in H. rewrite Pos2Z.inj_pow in H. exact H.
Qed.

Lemma Zdigits2_lower (m : Z) : 0 < m → 2 ^ (Zdigits2 m - 1) ≤ m.
Proof.
  destruct m as [|p|p]; simpl; [lia | | lia]. intros _.
  rewrite digits2_pos_size.
  pose proof (Pos.size_le p) as H.
  apply Pos2Z.pos_le_pos in H. rewrite Pos2Z.inj_pow in H.
  replace (Z.pos (Pos.size p)) with (Z.succ (Z.pos (Pos.size p) - 1)) in H by lia.
  rewrite Z.pow_succ_r in H by lia. lia.
Qed.

Lemma Zdigits2_le_of_lt (m k : Z) : 0 ≤ k → 0 ≤ m < 2 ^ k → Zdigits2 m ≤ k.
Proof.
  intros Hk [Hm Hlt].
  destruct (Z.eq_dec m 0) as [->|Hne]; [simpl; lia |].
  pose proof (Zdigits2_lower m ltac:(lia)) as Hlow.
  pose proof (Zdigits2_nonneg m).
  destruct (Z.le_gt_cases (Zdigits2 m) k) as [|Hgt]; [done |].
  assert (2 ^ k ≤ 2 ^ (Zdigits2 m - 1)) by (apply Z.pow_le_mono_r; lia).
  lia.
Qed.

Lemma fexp_eq (x : Z) : fexp prec emax x = Z.max (x - 53) (-1074).
Proof. reflexivity. Qed.

Lemma shr_1_digits (r : shr_record) (d : Z) :
  0 ≤ shr_m r → Zdigits2 (shr_m r) ≤ d →
  0 ≤ shr_m (shr_1 r) ∧ Zdigits2 (shr_m (shr_1 r)) ≤ Z.max 0 (d - 1).
Proof.
  destruct r as [m rr ss]. destruct m as [|[p|p|]|p]; simpl;
    rewrite ?Pos2Z.inj_succ; lia.
Qed.

Lemma iter_shr_1_digits (p : positive) : ∀ (r : shr_record) (d : Z),
  0 ≤ shr_m r → Zdigits2 (shr_m r) ≤ d →
  0 ≤ shr_m (SpecFloat.iter_pos shr_1 p r)
  ∧ Zdigits2 (shr_m (SpecFloat.iter_pos shr_1 p r)) ≤ Z.max 0 (d - Z.pos p).
Proof.
  induction p as [p IH|p IH|]; intros r d Hm Hd; simpl.
  - destruct (shr_1_digits r d Hm Hd) as [H1 H2].
    destruct (IH _ _ H1 H2) as [H3 H4].
    destruct (IH _ _ H3 H4) as [H5 H6]. lia.
  - destruct (IH _ _ Hm Hd) as [H3 H4].
    destruct (IH _ _ H3 H4) as [H5 H6]. lia.
  - apply shr_1_digits; assumption.
Qed.

Lemma shr_m_of_loc (m : Z) (l : location) : shr_m (shr_record_of_loc m l) = m.
Proof. by destruct l as [|[]]. Qed.

Lemma shr_fexp_bounds (m e : Z) (l : location) :
  0 ≤ m →
  0 ≤ shr_m (shr_fexp prec emax m e l).1
  ∧ (shr_fexp prec emax m e l).2 = Z.max e (fexp prec emax (Zdigits2 m + e))
  ∧ Zdigits2 (shr_m (shr_fexp prec emax m e l).1) + (shr_fexp prec emax m e l).2
      ≤ Z.max (Zdigits2 m + e) (-1074).
Proof.
  intros Hm. unfold shr_fexp, shr. rewrite fexp_eq.
  destruct (Z.max (Zdigits2 m + e - 53) (-1074) - e) as [|p|p] eqn:Hn; simpl;
    rewrite ?shr_m_of_loc; try lia.
  destruct (iter_shr_1_digits p (shr_record_of_loc m l) (Zdigits2 m))
    as [H1 H2]; rewrite ?shr_m_of_loc; try lia.
Qed.

Lemma round_nearest_even_bounds (m : Z) (l : location) :
  0 ≤ m → m ≤ round_nearest_even m l ≤ m + 1.
Proof.
  intros Hm. destruct l as [|[]]; simpl; try lia. destruct (Z.even m); lia.
Qed.

Lemma Zdigits2_mono (a b : Z) : 0 ≤ a ≤ b → Zdigits2 a ≤ Zdigits2 b.
Proof.
  intros [Ha Hab]. apply Zdigits2_le_of_lt; [apply Zdigits2_nonneg |].
  pose proof (Zdigits2_upper b ltac:(lia)). lia.
Qed.

Lemma Zdigits2_succ (m : Z) : 0 ≤ m → Zdigits2 (m + 1) ≤ Zdigits2 m + 1.
Proof.
  intros Hm. pose proof (Zdigits2_nonneg m).
  apply Zdigits2_le_of_lt; [lia |].
  pose proof (Zdigits2_upper m Hm).
  rewrite Z.pow_add_r by lia. lia.
Qed.

(** Rounding a non-negative mantissa whose magnitude is below 2^1023
    never overflows and never yields NaN. *)
Lemma binary_round_aux_finite (s : bool) (m e : Z) (l : location) :
  0 ≤ m → e ≤ 971 → Zdigits2 m + e ≤ 1023 →
  JS.finite_spec (binary_round_aux prec emax s m e l) = true.
Proof.
  intros Hm He Hd. unfold binary_round_aux.
  destruct (shr_fexp_bounds m e l Hm) as (H1 & H2 & H3).
  destruct (shr_fexp prec emax m e l) as [r1 e1]. simpl in H1, H2, H3.
  pose proof (round_nearest_even_bounds (shr_m r1) (loc_of_shr_record r1) H1)
    as Hr.
  set (m1 := round_nearest_even (shr_m r1) (loc_of_shr_record r1)) in *.
  destruct (shr_fexp_bounds m1 e1 loc_Exact ltac:(lia)) as (H4 & H5 & _).
  destruct (shr_fexp prec emax m1 e1 loc_Exact) as [r2 e2]. simpl in H4, H5.
  assert (Zdigits2 m1 ≤ Zdigits2 (shr_m r1) + 1) as Hd1.
  { etrans; [apply (Zdigits2_mono m1 (shr_m r1 + 1)); lia |].
    by apply Zdigits2_succ. }
  rewrite fexp_eq in H2, H5.
  destruct (shr_m r2) as [|p|p]; [done | | lia].
  assert (e2 ≤ 971) as He2 by lia.
  apply Z.leb_le in He2. change (emax - prec) with 971. by rewrite He2.
Qed.

(** A valid finite number has magnitude below 2^1024. *)
Lemma bounded_digits (m : positive) (e : Z) :
  bounded prec emax m e = true → e ≤ 971 ∧ Zdigits2 (Z.pos m) + e ≤ 1024.
Proof.
  unfold bounded, canonical_mantissa. rewrite fexp_eq.
  intros [Hc He]%andb_prop. apply Z.eqb_eq in Hc. apply Z.leb_le in He.
  change (emax - prec) with 971 in He. simpl. lia.
Qed.

(** Dividing a valid finite number by a finite number of magnitude at
    least 2 yields zero or a finite number. *)
Lemma SFdiv_finite (x : spec_float) (sy : bool) (my : positive) (ey : Z) :
  valid_binary x = true → JS.finite_spec x = true →
  2 ^ 52 ≤ Z.pos my → -51 ≤ ey →
  JS.finite_spec (SFdiv prec emax x (S754_finite sy my ey)) = true.
Proof.
  intros Hvalid Hfin Hmy Hey.
  destruct x as [sx|sx| |sx mx ex]; try discriminate Hfin; [reflexivity |].
  simpl in Hvalid. apply bounded_digits in Hvalid as [Hex Hdx].
  unfold SFdiv, SFdiv_core_binary. rewrite !fexp_eq.
  set (d1 := Zdigits2 (Z.pos mx)) in *. set (d2 := Zdigits2 (Z.pos my)).
  assert (53 ≤ d2) as Hd2.
  { pose proof (Zdigits2_upper (Z.pos my) ltac:(lia)) as Hup. fold d2 in Hup.
    destruct (Z.le_gt_cases 53 d2) as [|Hlt]; [done |].
    assert (2 ^ d2 ≤ 2 ^ 52) by (apply Z.pow_le_mono_r; lia). lia. }
  assert (0 ≤ d1) as Hd1 by apply Zdigits2_nonneg.
  set (e' := Z.min (Z.max (d1 + ex - (d2 + ey) - 53) (-1074)) (ex - ey)).
  set (s := ex - ey - e').
  set (m' := match s with
             | 0 => Z.pos mx
             | Z.pos _ => Z.shiftl (Z.pos mx) s
             | Z.neg _ => 0
             end).
  assert (0 ≤ s) as Hs by (unfold s, e'; lia).
  assert (0 ≤ m' < 2 ^ (d1 + s)) as Hm'.
  { pose proof (Zdigits2_upper (Z.pos mx) ltac:(lia)) as Hup. fold d1 in Hup.
    unfold m'. destruct s as [|p|p] eqn:Hsp; [| | lia].
    - rewrite Z.add_0_r. lia.
    - rewrite Z.shiftl_mul_pow2 by lia. rewrite Z.pow_add_r by lia.
      assert (0 < 2 ^ Z.pos p) by (apply Z.pow_pos_nonneg; lia). nia. }
  pose proof (Z_div_mod m' (Z.pos my) ltac:(lia)) as Hdiv.
  destruct (Z.div_eucl m' (Z.pos my)) as [q r]. destruct Hdiv as [Hq Hr].
  assert (0 ≤ q) as Hq0 by nia.
  apply binary_round_aux_finite; [exact Hq0 | unfold e'; lia |].
  assert (Zdigits2 q ≤ Z.max 0 (d1 + s - 52)) as Hdq.
  { destruct (Z.le_gt_cases 52 (d1 + s)) as [Hge|Hlt].
    - rewrite Z.max_r by lia. apply Zdigits2_le_of_lt; [lia |].
      split; [exact Hq0 |].
      assert (2 ^ (d1 + s) = 2 ^ 52 * 2 ^ (d1 + s - 52)) as Hpow.
      { rewrite <- Z.pow_add_r by lia. f_equal. lia. }
      assert (0 < 2 ^ (d1 + s - 52)) by (apply Z.pow_pos_nonneg; lia).
      nia.
    - assert (2 ^ (d1 + s) ≤ 2 ^ 52) by (apply Z.pow_le_mono_r; lia).
      assert (q = 0) as -> by nia. simpl. lia. }
  unfold s, e' in *. lia.
Qed.

Lemma digits2_pos_iter_xO (m d : positive) :
  Z.pos (digits2_pos (Pos.iter xO m d)) = Z.pos (digits2_pos m) + Z.pos d.
Proof.
  induction d as [|d IH] using Pos.peano_ind.
  - simpl. lia.
  - rewrite Pos.iter_succ. simpl. lia.
Qed.

Lemma binary_round_finite (s : bool) (m : positive) (e : Z) :
  e ≤ 971 → Zdigits2 (Z.pos m) + e ≤ 1023 →
  JS.finite_spec (binary_round prec emax s m e) = true.
Proof.
  intros He Hd. unfold binary_round, shl_align. rewrite fexp_eq.
  simpl in Hd.
  destruct (Z.max (Z.pos (digits2_pos m) + e - 53) (-1074) - e) as [|p|p]
    eqn:Hn; apply binary_round_aux_finite; simpl; try lia.
  rewrite digits2_pos_iter_xO. lia.
Qed.

(** Every 63-bit unsigned integer converts to a finite number. *)
Lemma of_uint63_finite (n : int) : JS.finite_spec (Prim2SF (of_uint63 n)) = true.
Proof.
  rewrite of_uint63_spec. pose proof (Uint63.to_Z_bounded n) as [Hlo Hhi].
  unfold binary_normalize.
  destruct (Uint63.to_Z n) as [|p|p] eqn:Hn; [reflexivity | | lia].
  apply binary_round_finite; [lia |].
  assert (Zdigits2 (Z.pos p) ≤ 63); [| lia].
  apply Zdigits2_le_of_lt; [lia |]. change (2 ^ 63) with wB. lia.
Qed.

Lemma loc_exact_iff (rec : shr_record) :
  loc_of_shr_record rec = loc_Exact ↔ shr_r rec || shr_s rec = false.
Proof. destruct rec as [m [] []]; simpl; split; congruence. Qed.

Lemma rem_loc_exact_iff (r b : Z) : rem_loc r b = loc_Exact ↔ r = 0.
Proof.
  unfold rem_loc. destruct (Z.eqb_spec r 0); split; congruence.
Qed.

Lemma shr_1_holds (rec : shr_record) (a b : Z) :
  holds rec a b → holds (shr_1 rec) a (2 * b).
Proof.
  intros (Ha & Hb & Hm & Hl).
  pose proof (Z.mod_pos_bound a b Hb) as Hr.
  pose proof (Z.div_pos a b Ha Hb) as Hq.
  assert (a / (2 * b) = a / b / 2) as Hdiv.
  { rewrite (Z.mul_comm 2 b). symmetry. apply Z.div_div; lia. }
  assert (a mod (2 * b) = a mod b + b * ((a / b) mod 2)) as Hmod.
  { rewrite (Z.mul_comm 2 b). apply Z.rem_mul_r; lia. }
  assert (shr_r rec || shr_s rec = negb (a mod b =? 0)) as Hs.
  { destruct (Z.eqb_spec (a mod b) 0) as [H0|H0]; simpl.
    - apply loc_exact_iff. rewrite Hl. by apply rem_loc_exact_iff.
    - apply not_false_iff_true. intros Hf. apply H0.
      apply (rem_loc_exact_iff _ b). rewrite <- Hl. by apply loc_exact_iff. }
  split; [exact Ha |]. split; [lia |].
  rewrite Hdiv, Hmod. unfold rem_loc.
  destruct rec as [m r s]. simpl in Hm, Hs. subst m.
  pose proof (Z.mod_pos_bound (a / b) 2 ltac:(lia)) as Hbit.
  pose proof (Z.div_mod (a / b) 2 ltac:(lia)) as Hsplit.
  destruct (a / b) as [|[p|p|]|p] eqn:Hq'; try lia; simpl shr_1; cbv iota;
    simpl shr_m; simpl loc_of_shr_record; rewrite Hs.
  - (* quotient 0 *)
    change (0 / 2) with 0. change (0 mod 2) with 0. rewrite Z.mul_0_r, Z.add_0_r.
    split; [reflexivity |].
    destruct (Z.eqb_spec (a mod b) 0); simpl; [reflexivity |].
    f_equal. symmetry. apply Z.compare_lt_iff. lia.
  - (* odd quotient *)
    assert (Z.pos p~1 / 2 = Z.pos p ∧ Z.pos p~1 mod 2 = 1) as [-> ->].
    { rewrite Pos2Z.inj_xI in *. lia. }
    split; [reflexivity |].
    destruct (Z.eqb_spec (a mod b) 0) as [H0|H0]; simpl.
    + rewrite H0. replace (0 + b * 1 =? 0) with false by (symmetry; apply Z.eqb_neq; lia).
      f_equal. symmetry. apply Z.compare_eq_iff. lia.
    + replace (a mod b + b * 1 =? 0) with false by (symmetry; apply Z.eqb_neq; lia).
      f_equal. symmetry. apply Z.compare_gt_iff. lia.
  - (* even quotient *)
    assert (Z.pos p~0 / 2 = Z.pos p ∧ Z.pos p~0 mod 2 = 0) as [-> ->].
    { rewrite Pos2Z.inj_xO in *. lia. }
    rewrite Z.mul_0_r, Z.add_0_r. split; [reflexivity |].
    destruct (Z.eqb_spec (a mod b) 0); simpl; [reflexivity |].
    f_equal. symmetry. apply Z.compare_lt_iff. lia.
  - (* quotient 1 *)
    change (1 / 2) with 0. change (1 mod 2) with 1.
    split; [reflexivity |].
    destruct (Z.eqb_spec (a mod b) 0) as [H0|H0]; simpl.
    + rewrite H0. replace (0 + b * 1 =? 0) with false by (symmetry; apply Z.eqb_neq; lia).
      f_equal. symmetry. apply Z.compare_eq_iff. lia.
    + replace (a mod b + b * 1 =? 0) with false by (symmetry; apply Z.eqb_neq; lia).
      f_equal. symmetry. apply Z.compare_gt_iff. lia.
Qed.

Lemma iter_shr_1_holds (p : positive) : ∀ (rec : shr_record) (a b : Z),
  holds rec a b → holds (SpecFloat.iter_pos shr_1 p rec) a (b * 2 ^ Z.pos p).
Proof.
  induction p as [p IH|p IH|]; intros rec a b H; simpl SpecFloat.iter_pos.
  - apply shr_1_holds, IH, IH in H.
    replace (b * 2 ^ Z.pos p~1) with (2 * b * 2 ^ Z.pos p * 2 ^ Z.pos p);
      [exact H |].
    replace (Z.pos p~1) with (Z.pos p + Z.pos p + 1) by lia.
    rewrite !Z.pow_add_r by lia. lia.
  - apply IH, IH in H.
    replace (b * 2 ^ Z.pos p~0) with (b * 2 ^ Z.pos p * 2 ^ Z.pos p);
      [exact H |].
    replace (Z.pos p~0) with (Z.pos p + Z.pos p) by lia.
    rewrite !Z.pow_add_r by lia. lia.
  - apply shr_1_holds in H. by rewrite Z.mul_comm.
Qed.

Lemma of_loc_holds (a b : Z) :
  0 ≤ a → 0 < b →
  holds (shr_record_of_loc (a / b) (rem_loc (a mod b) b)) a b.
Proof.
  intros Ha Hb. split; [exact Ha |]. split; [exact Hb |].
  split; [apply shr_m_of_loc |]. by destruct (rem_loc _ _) as [|[]].
Qed.

(** The first step of rounding: the mantissa [a / b] at exponent [e] is
    brought to the exponent the format asks for. *)
Lemma shr_fexp_holds (a b e : Z) :
  0 ≤ a → 0 < b →
  let E := Z.max e (fexp prec emax (Zdigits2 (a / b) + e)) in
  (shr_fexp prec emax (a / b) e (rem_loc (a mod b) b)).2 = E
  ∧ holds (shr_fexp prec emax (a / b) e (rem_loc (a mod b) b)).1
      a (b * 2 ^ (E - e)).
Proof.
  intros Ha Hb E. pose proof (of_loc_holds a b Ha Hb) as H0.
  unfold shr_fexp, shr. subst E.
  destruct (fexp prec emax (Zdigits2 (a / b) + e) - e) as [|p|p] eqn:Hn;
    simpl.
  - split; [lia |]. replace (Z.max _ _ - e) with 0 by lia.
    by rewrite Z.mul_1_r.
  - split; [lia |]. replace (Z.max _ _ - e) with (Z.pos p) by lia.
    by apply iter_shr_1_holds.
  - split; [lia |]. replace (Z.max _ _ - e) with 0 by lia.
    by rewrite Z.mul_1_r.
Qed.

Lemma nearest_even_spec (a b : Z) :
  0 ≤ a → 0 < b →
  let n := nearest_even a b in
  0 ≤ n
  ∧ (2 * n - 1) * b ≤ 2 * a ≤ (2 * n + 1) * b
  ∧ (2 * a = (2 * n - 1) * b → Z.even n = true)
  ∧ (2 * a = (2 * n + 1) * b → Z.even n = true).
Proof.
  intros Ha Hb. unfold nearest_even, rem_loc.
  pose proof (Z.mod_pos_bound a b Hb) as Hr.
  pose proof (Z.div_pos a b Ha Hb) as Hq.
  pose proof (Z.div_mod a b ltac:(lia)) as Hsplit.
  set (q := a / b) in *. set (r := a mod b) in *.
  destruct (Z.eqb_spec r 0) as [Hr0|Hr0]; simpl.
  - repeat split; nia.
  - destruct (Z.compare_spec (2 * r) b) as [Heq|Hlt|Hgt]; simpl.
    + destruct (Z.even q) eqn:Hev.
      * repeat split; try nia. intros _. exact Hev.
      * repeat split; try nia. intros _.
        rewrite Z.even_add, Hev. reflexivity.
    + repeat split; nia.
    + repeat split; nia.
Qed.

Lemma nearest_even_mono (a b a' b' : Z) :
  0 ≤ a → 0 < b → 0 ≤ a' → 0 < b' →
  a * b' ≤ a' * b → nearest_even a b ≤ nearest_even a' b'.
Proof.
  intros Ha Hb Ha' Hb' Hle.
  destruct (nearest_even_spec a b Ha Hb) as (Hn & [Hlo _] & Hlow & _).
  destruct (nearest_even_spec a' b' Ha' Hb') as (Hn' & [_ Hhi] & _ & Hup).
  set (n := nearest_even a b) in *. set (n' := nearest_even a' b') in *.
  destruct (Z.le_gt_cases n n') as [|Hgt]; [done | exfalso].
  assert ((2 * n - 1) * (b * b') ≤ (2 * n' + 1) * (b * b')) as Hchain by nia.
  assert (0 < b * b') as Hbb by nia.
  assert (2 * n - 1 ≤ 2 * n' + 1) as Hnn.
  { apply (Z.mul_le_mono_pos_r _ _ (b * b')); [exact Hbb | exact Hchain]. }
  assert (n = n' + 1) as Heq by lia.
  assert (2 * a = (2 * n - 1) * b) as Htie by nia.
  assert (2 * a' = (2 * n' + 1) * b') as Htie' by nia.
  specialize (Hlow Htie). specialize (Hup Htie').
  rewrite Heq, Z.even_add, Hup in Hlow. discriminate.
Qed.

Lemma nearest_even_in_range (a b E : Z) :
  in_range a b E →
  0 ≤ nearest_even a b ≤ 2 ^ 53
  ∧ (-1074 < E → 2 ^ 52 ≤ nearest_even a b).
Proof.
  intros (Ha & Hb & HE & Hhi & Hlo).
  destruct (nearest_even_spec a b Ha Hb) as (Hn & [H1 H2] & _).
  set (n := nearest_even a b) in *.
  change (2 ^ 53) with 9007199254740992 in *.
  change (2 ^ 52) with 4503599627370496 in *.
  split; [split; [exact Hn | nia] |]. intros HE'. specialize (Hlo HE'). nia.
Qed.

Lemma pow2_next (x y : Z) : 0 ≤ x → x < y → 2 * 2 ^ x ≤ 2 ^ y.
Proof.
  intros Hx Hxy. replace y with (Z.succ x + (y - x - 1)) by lia.
  rewrite Z.pow_add_r, Z.pow_succ_r by lia.
  assert (0 < 2 ^ (y - x - 1)) by (apply Z.pow_pos_nonneg; lia).
  assert (0 < 2 ^ x) by (apply Z.pow_pos_nonneg; lia). nia.
Qed.

(** Scaling both sides of a comparison of [m * 2^u] by a power of two. *)
Lemma pow_shift_le (m m' u u' c : Z) :
  0 ≤ u → 0 ≤ u' → 0 ≤ u + c → 0 ≤ u' + c →
  m * 2 ^ u ≤ m' * 2 ^ u' → m * 2 ^ (u + c) ≤ m' * 2 ^ (u' + c).
Proof.
  intros Hu Hu' Huc Huc' Hle.
  destruct (Z.le_gt_cases 0 c) as [Hc|Hc].
  - rewrite !Z.pow_add_r by lia.
    assert (0 < 2 ^ c) by (apply Z.pow_pos_nonneg; lia). nia.
  - assert (0 < 2 ^ (- c)) as Hp by (apply Z.pow_pos_nonneg; lia).
    replace u with (u + c + - c) in Hle by lia.
    replace u' with (u' + c + - c) in Hle by lia.
    rewrite !(Z.pow_add_r _ _ (- c)) in Hle by lia.
    apply (Z.mul_le_mono_pos_r _ _ (2 ^ (- c))); [exact Hp | lia].
Qed.

(** Rounding keeps the order of two quotients, each at its exponent. *)
Lemma rounded_le (a b E a' b' E' : Z) :
  in_range a b E → in_range a' b' E' →
  a * b' * 2 ^ (E + 1074) ≤ a' * b * 2 ^ (E' + 1074) →
  nearest_even a b * 2 ^ (E + 1074) ≤ nearest_even a' b' * 2 ^ (E' + 1074).
Proof.
  intros Hr Hr' Hle.
  pose proof (nearest_even_in_range a b E Hr) as [[Hn0 Hn1] Hn2].
  pose proof (nearest_even_in_range a' b' E' Hr') as [[Hn0' Hn1'] Hn2'].
  destruct Hr as (Ha & Hb & HE & Hhi & Hlo).
  destruct Hr' as (Ha' & Hb' & HE' & Hhi' & Hlo').
  set (n := nearest_even a b) in *. set (n' := nearest_even a' b') in *.
  assert (0 < 2 ^ (E + 1074)) as HP by (apply Z.pow_pos_nonneg; lia).
  assert (0 < 2 ^ (E' + 1074)) as HP' by (apply Z.pow_pos_nonneg; lia).
  change (2 ^ 53) with (2 * 2 ^ 52) in *.
  assert (0 < 2 ^ 52) as H52 by done.
  destruct (Z.lt_trichotomy E E') as [Hlt|[Heq|Hgt]].
  - (* the larger quotient is a binade higher *)
    specialize (Hn2' ltac:(lia)).
    assert (2 * 2 ^ (E + 1074) ≤ 2 ^ (E' + 1074)) as Hpow
      by (apply pow2_next; lia).
    set (K := 2 ^ 52) in *. set (P := 2 ^ (E + 1074)) in *.
    set (P' := 2 ^ (E' + 1074)) in *.
    assert (n * P ≤ 2 * K * P) by nia.
    assert (K * (2 * P) ≤ K * P') by nia.
    assert (K * P' ≤ n' * P') by nia.
    lia.
  - subst E'. apply Z.mul_le_mono_nonneg_r; [lia |].
    apply nearest_even_mono; try lia.
    apply (Z.mul_le_mono_pos_r _ _ (2 ^ (E + 1074))); [exact HP | lia].
  - (* impossible: the smaller quotient would be a binade higher *)
    exfalso. specialize (Hlo ltac:(lia)).
    assert (2 * 2 ^ (E' + 1074) ≤ 2 ^ (E + 1074)) as Hpow
      by (apply pow2_next; lia).
    set (K := 2 ^ 52) in *. set (P := 2 ^ (E + 1074)) in *.
    set (P' := 2 ^ (E' + 1074)) in *.
    assert (0 < b * b') as Hbb by nia.
    assert (K * (b * b') ≤ a * b') as H1 by nia.
    assert (a' * b < 2 * K * (b * b')) as H2 by nia.
    assert (K * (b * b') * (2 * P') ≤ a * b' * P) as H3.
    { etrans; [apply Z.mul_le_mono_nonneg_l; [nia | exact Hpow] |].
      apply Z.mul_le_mono_nonneg_r; [lia | exact H1]. }
    assert (a' * b * P' < 2 * K * (b * b') * P') as H4.
    { apply Z.mul_lt_mono_pos_r; [exact HP' | exact H2]. }
    lia.
Qed.

(** Rounding [a / b] given at exponent [e]: the quotient is rounded to
    the nearest even at the exponent of the format and packed. *)
Lemma binary_round_aux_pack (s : bool) (a b e : Z) :
  0 ≤ a → 0 < b →
  let E := Z.max e (fexp prec emax (Zdigits2 (a / b) + e)) in
  binary_round_aux prec emax s (a / b) e (rem_loc (a mod b) b)
    = pack s (nearest_even a (b * 2 ^ (E - e))) E.
Proof.
  intros Ha Hb E. unfold binary_round_aux.
  destruct (shr_fexp_holds a b e Ha Hb) as [HE (_ & _ & Hm & Hl)].
  fold E in HE, Hm, Hl.
  destruct (shr_fexp prec emax (a / b) e (rem_loc (a mod b) b)) as [r1 e1].
  simpl in HE, Hm, Hl. subst e1. rewrite Hm, Hl. reflexivity.
Qed.

Lemma pack_zero (s : bool) (E : Z) : -1074 ≤ E → pack s 0 E = S754_zero s.
Proof.
  intros HE. unfold pack, shr_fexp, shr. rewrite fexp_eq. simpl Zdigits2.
  destruct (Z.max (0 + E - 53) (-1074) - E) as [|p|p] eqn:Hn; try lia;
    reflexivity.
Qed.

Lemma pack_below (s : bool) (m : positive) (E : Z) :
  -1074 ≤ E → Z.pos m < 2 ^ 53 →
  pack s (Z.pos m) E
    = if E <=? 971 then S754_finite s m E else S754_infinity s.
Proof.
  intros HE Hm. unfold pack, shr_fexp, shr. rewrite fexp_eq.
  assert (Zdigits2 (Z.pos m) ≤ 53) as Hd by (apply Zdigits2_le_of_lt; lia).
  destruct (Z.max (Zdigits2 (Z.pos m) + E - 53) (-1074) - E) as [|p|p] eqn:Hn;
    try lia; reflexivity.
Qed.

Lemma pack_top (s : bool) (E : Z) :
  -1074 ≤ E →
  pack s (2 ^ 53) E
    = if E + 1 <=? 971 then S754_finite s 4503599627370496 (E + 1)
      else S754_infinity s.
Proof.
  intros HE. unfold pack, shr_fexp, shr. rewrite fexp_eq.
  change (Zdigits2 (2 ^ 53)) with 54.
  replace (Z.max (54 + E - 53) (-1074) - E) with 1 by lia.
  simpl. reflexivity.
Qed.

Lemma SFleb_finite (m m' : positive) (e e' : Z) :
  e < e' ∨ (e = e' ∧ Z.pos m ≤ Z.pos m') →
  SFleb (S754_finite false m e) (S754_finite false m' e') = true.
Proof.
  intros H. unfold SFleb, SFcompare.
  destruct (Z.compare_spec e e') as [Heq|Hlt|Hgt]; [| done | lia].
  destruct H as [|[_ Hm]]; [lia |].
  change (Pos.compare_cont Eq m m') with (Pos.compare m m').
  destruct (Pos.compare_spec m m'); [done | done | lia].
Qed.

(** Packing keeps the order of rounded values. *)
Lemma pack_le (m E m' E' : Z) :
  rounded m E → rounded m' E' →
  m * 2 ^ (E + 1074) ≤ m' * 2 ^ (E' + 1074) →
  SFleb (pack false m E) (pack false m' E') = true.
Proof.
  intros ([Hm0 Hm1] & HE & Hlo) ([Hm0' Hm1'] & HE' & Hlo') Hle.
  assert (0 < 2 ^ (E + 1074)) as HP by (apply Z.pow_pos_nonneg; lia).
  assert (0 < 2 ^ (E' + 1074)) as HP' by (apply Z.pow_pos_nonneg; lia).
  destruct (Z.eq_dec m 0) as [->|Hm].
  { rewrite pack_zero by exact HE.
    destruct (Z.eq_dec m' 0) as [->|Hm'];
      [by rewrite pack_zero |].
    destruct (Z.eq_dec m' (2 ^ 53)) as [->|Htop'].
    - rewrite pack_top by exact HE'. by destruct (E' + 1 <=? 971).
    - destruct m' as [|p'|p']; try lia.
      rewrite pack_below by lia. by destruct (E' <=? 971). }
  assert (m' ≠ 0) as Hm' by nia.
  (* both in normal form: mantissa below 2^53 *)
  assert (∃ M X, pack false m E
                 = (if X <=? 971 then S754_finite false M X
                    else S754_infinity false)
               ∧ Z.pos M * 2 ^ (X + 1074) = m * 2 ^ (E + 1074)
               ∧ Z.pos M < 2 ^ 53 ∧ -1074 ≤ X
               ∧ (-1074 < X → 2 ^ 52 ≤ Z.pos M)) as (M & X & -> & HV & HM & HX & HMlo).
  { destruct (Z.eq_dec m (2 ^ 53)) as [->|Htop].
    - exists 4503599627370496%positive, (E + 1).
      split; [by apply pack_top |]. split; [| split; [done |]; split; [lia | done]].
      replace (E + 1 + 1074) with (Z.succ (E + 1074)) by lia.
      rewrite Z.pow_succ_r by lia. change (2 ^ 53) with (2 * 4503599627370496). lia.
    - destruct m as [|p|p]; try lia. exists p, E.
      split; [apply pack_below; lia |]. split; [done |].
      split; [lia |]. split; [lia | exact Hlo]. }
  assert (∃ M' X', pack false m' E'
                 = (if X' <=? 971 then S754_finite false M' X'
                    else S754_infinity false)
               ∧ Z.pos M' * 2 ^ (X' + 1074) = m' * 2 ^ (E' + 1074)
               ∧ Z.pos M' < 2 ^ 53 ∧ -1074 ≤ X'
               ∧ (-1074 < X' → 2 ^ 52 ≤ Z.pos M')) as (M' & X' & -> & HV' & HM' & HX' & HMlo').
  { destruct (Z.eq_dec m' (2 ^ 53)) as [->|Htop].
    - exists 4503599627370496%positive, (E' + 1).
      split; [by apply pack_top |]. split; [| split; [done |]; split; [lia | done]].
      replace (E' + 1 + 1074) with (Z.succ (E' + 1074)) by lia.
      rewrite Z.pow_succ_r by lia. change (2 ^ 53) with (2 * 4503599627370496). lia.
    - destruct m' as [|p|p]; try lia. exists p, E'.
      split; [apply pack_below; lia |]. split; [done |].
      split; [lia |]. split; [lia | exact Hlo']. }
  rewrite <- HV, <- HV' in Hle. clear HV HV' Hlo Hlo' Hm Hm' Hm0 Hm1 Hm0' Hm1'.
  assert (X < X' ∨ (X = X' ∧ Z.pos M ≤ Z.pos M')) as Hlex.
  { destruct (Z.lt_trichotomy X X') as [Hlt|[Heq|Hgt]]; [by left | |].
    - right. split; [exact Heq |]. subst X'.
      apply (Z.mul_le_mono_pos_r _ _ (2 ^ (X + 1074)));
        [apply Z.pow_pos_nonneg; lia | exact Hle].
    - exfalso. specialize (HMlo ltac:(lia)).
      pose proof (pow2_next (X' + 1074) (X + 1074) ltac:(lia) ltac:(lia)) as Hp.
      assert (0 < 2 ^ (X' + 1074)) as HQ by (apply Z.pow_pos_nonneg; lia).
      change (2 ^ 53) with (2 * 2 ^ 52) in HM'.
      set (K := 2 ^ 52) in *. set (Q := 2 ^ (X + 1074)) in *.
      set (Q' := 2 ^ (X' + 1074)) in *.
      assert (K * (2 * Q') ≤ Z.pos M * Q) by nia.
      assert (Z.pos M' * Q' < 2 * K * Q') by nia. lia. }
  destruct (Z.leb_spec X 971), (Z.leb_spec X' 971); try done.
  - by apply SFleb_finite.
  - lia.
Qed.

Lemma new_location_rem_loc (b r : Z) :
  0 ≤ r < b → new_location b r = rem_loc r b.
Proof.
  intros Hr. unfold new_location, new_location_even, new_location_odd, rem_loc.
  destruct (Z.even b) eqn:Hev; destruct (Z.eqb_spec r 0); try reflexivity.
  f_equal.
  destruct (Z.compare_spec (2 * r + 1) b) as [H|H|H];
    symmetry; [apply Z.compare_lt_iff | apply Z.compare_lt_iff
               | apply Z.compare_gt_iff]; try lia.
  (* 2 r = b is impossible for odd b *)
  cut (2 * r ≠ b); [lia |]. intros <-.
  rewrite Z.even_mul in Hev. discriminate.
Qed.

Lemma div_eucl_pair (a b : Z) : Z.div_eucl a b = (a / b, a mod b).
Proof. unfold Z.div, Z.modulo. by destruct (Z.div_eucl a b). Qed.

(** A valid finite number: its mantissa and exponent are in range. *)
Lemma bounded_rounded (m : positive) (e : Z) :
  bounded prec emax m e = true →
  -1074 ≤ e ≤ 971 ∧ Z.pos m < 2 ^ 53 ∧ (-1074 < e → 2 ^ 52 ≤ Z.pos m).
Proof.
  unfold bounded, canonical_mantissa. rewrite fexp_eq.
  intros [Hc He]%andb_prop. apply Z.eqb_eq in Hc. apply Z.leb_le in He.
  change (emax - prec) with 971 in He.
  change (Z.pos (digits2_pos m)) with (Zdigits2 (Z.pos m)) in Hc.
  pose proof (Zdigits2_upper (Z.pos m) ltac:(lia)) as Hup.
  pose proof (Zdigits2_lower (Z.pos m) ltac:(lia)) as Hlow.
  split; [lia |]. split.
  - assert (2 ^ Zdigits2 (Z.pos m) ≤ 2 ^ 53)
      by (apply Z.pow_le_mono_r; lia). lia.
  - intros He'. assert (Zdigits2 (Z.pos m) = 53) as Hd by lia.
    rewrite Hd in Hlow. exact Hlow.
Qed.

(** The quotient of two positive finite numbers: the exact quotient,
    scaled to the exponent [E] of the result, rounded and packed. *)
Lemma SFdiv_pack (mx my : positive) (ex ey : Z) :
  ∃ s n E,
    0 ≤ s ∧ 0 ≤ n ∧ s - n = ex - ey - E
    ∧ in_range (Z.pos mx * 2 ^ s) (Z.pos my * 2 ^ n) E
    ∧ SFdiv prec emax (S754_finite false mx ex) (S754_finite false my ey)
        = pack false (nearest_even (Z.pos mx * 2 ^ s) (Z.pos my * 2 ^ n)) E.
Proof.
  unfold SFdiv, SFdiv_core_binary. rewrite fexp_eq.
  set (d1 := Zdigits2 (Z.pos mx)). set (d2 := Zdigits2 (Z.pos my)).
  set (e0 := Z.min (Z.max (d1 + ex - (d2 + ey) - 53) (-1074)) (ex - ey)).
  set (s := ex - ey - e0).
  assert (0 ≤ s) as Hs by (unfold s, e0; lia).
  assert (match s with
          | 0 => Z.pos mx
          | Z.pos _ => Z.shiftl (Z.pos mx) s
          | Z.neg _ => 0
          end = Z.pos mx * 2 ^ s) as ->.
  { destruct s as [|p|p] eqn:Hsp; [lia | | lia].
    by rewrite Z.shiftl_mul_pow2. }
  set (a := Z.pos mx * 2 ^ s).
  assert (0 < 2 ^ s) as Hps by (apply Z.pow_pos_nonneg; lia).
  assert (0 < a) as Ha by (unfold a; nia).
  rewrite div_eucl_pair.
  rewrite new_location_rem_loc by (apply Z.mod_pos_bound; lia).
  simpl xorb.
  rewrite (binary_round_aux_pack false a (Z.pos my) e0) by lia.
  rewrite fexp_eq.
  set (q0 := a / Z.pos my).
  set (E := Z.max e0 (Z.max (Zdigits2 q0 + e0 - 53) (-1074))).
  set (n := E - e0).
  assert (0 ≤ n) as Hn by (unfold n, E; lia).
  exists s, n, E. split; [exact Hs |]. split; [exact Hn |].
  split; [unfold n, s; lia |]. split; [| reflexivity].
  assert (0 < 2 ^ n) as Hpn by (apply Z.pow_pos_nonneg; lia).
  pose proof (Z.div_mod a (Z.pos my) ltac:(lia)) as Hsplit.
  pose proof (Z.mod_pos_bound a (Z.pos my) ltac:(lia)) as Hr.
  fold q0 in Hsplit.
  assert (0 ≤ q0) as Hq0 by (apply Z.div_pos; lia).
  pose proof (Zdigits2_nonneg q0) as Hdq.
  split; [lia |]. split; [nia |]. split; [unfold E; lia |]. split.
  - (* below 2^53 *)
    pose proof (Zdigits2_upper q0 Hq0) as Hup.
    assert (2 ^ Zdigits2 q0 ≤ 2 ^ (53 + n)) as Hpow
      by (apply Z.pow_le_mono_r; unfold n, E; lia).
    rewrite Z.pow_add_r in Hpow by lia.
    set (K := 2 ^ 53) in *. set (P := 2 ^ n) in *.
    assert (q0 + 1 ≤ K * P) by lia.
    assert ((q0 + 1) * Z.pos my ≤ K * P * Z.pos my) by nia.
    nia.
  - (* at least 2^52 above the least exponent *)
    intros HE. destruct (Z.eq_dec n 0) as [Hn0|Hn0].
    + rewrite Hn0, Z.pow_0_r, Z.mul_1_r.
      assert (d2 + 52 ≤ d1 - 1 + s) as Hexp by (unfold n, E, s, e0 in *; lia).
      pose proof (Zdigits2_lower (Z.pos mx) ltac:(lia)) as Hlow. fold d1 in Hlow.
      pose proof (Zdigits2_upper (Z.pos my) ltac:(lia)) as Hup. fold d2 in Hup.
      pose proof (Zdigits2_nonneg (Z.pos mx)) as Hd1. fold d1 in Hd1.
      pose proof (Zdigits2_nonneg (Z.pos my)) as Hd2. fold d2 in Hd2.
      assert (1 ≤ d1).
      { destruct (Z.eq_dec d1 0) as [H0|]; [| lia]. unfold d1 in H0. simpl in H0. lia. }
      assert (2 ^ (d2 + 52) ≤ 2 ^ (d1 - 1 + s)) as Hpow
        by (apply Z.pow_le_mono_r; lia).
      rewrite !Z.pow_add_r in Hpow by lia.
      set (K := 2 ^ 52) in *. set (P1 := 2 ^ (d1 - 1)) in *.
      set (P2 := 2 ^ d2) in *. set (Ps := 2 ^ s) in *.
      assert (P1 * Ps ≤ Z.pos mx * Ps) by nia.
      assert (K * Z.pos my ≤ K * P2) by nia.
      unfold a. fold Ps. lia.
    + assert (Zdigits2 q0 = n + 53) as Hd by (unfold n, E in *; lia).
      assert (0 < q0) as Hq0'.
      { destruct (Z.eq_dec q0 0) as [H0|]; [| lia].
        rewrite H0 in Hd. simpl in Hd. lia. }
      pose proof (Zdigits2_lower q0 Hq0') as Hlow.
      rewrite Hd in Hlow. replace (n + 53 - 1) with (52 + n) in Hlow by lia.
      rewrite Z.pow_add_r in Hlow by lia.
      set (K := 2 ^ 52) in *. set (P := 2 ^ n) in *.
      assert (K * P * Z.pos my ≤ q0 * Z.pos my) by nia.
      nia.
Qed.

(** The order of two valid finite positive numbers is the order of
    their values. *)
Lemma SFleb_value (m m' : positive) (e e' : Z) :
  bounded prec emax m e = true → bounded prec emax m' e' = true →
  SFleb (S754_finite false m e) (S754_finite false m' e') = true →
  Z.pos m * 2 ^ (e + 1074) ≤ Z.pos m' * 2 ^ (e' + 1074).
Proof.
  intros (He & Hm & Hlo)%bounded_rounded (He' & Hm' & Hlo')%bounded_rounded.
  unfold SFleb, SFcompare.
  destruct (Z.compare_spec e e') as [Heq|Hlt|Hgt]; [| | done].
  - subst e'. change (Pos.compare_cont Eq m m') with (Pos.compare m m').
    destruct (Pos.compare_spec m m') as [H|H|H]; try done; intros _.
    + subst. lia.
    + apply Z.mul_le_mono_nonneg_r; [apply Z.pow_nonneg; lia | lia].
  - intros _. specialize (Hlo' ltac:(lia)).
    pose proof (pow2_next (e + 1074) (e' + 1074) ltac:(lia) ltac:(lia)) as Hp.
    assert (0 < 2 ^ (e + 1074)) by (apply Z.pow_pos_nonneg; lia).
    change (2 ^ 53) with (2 * 2 ^ 52) in *.
    set (K := 2 ^ 52) in *. set (P := 2 ^ (e + 1074)) in *.
    set (P' := 2 ^ (e' + 1074)) in *.
    assert (Z.pos m * P ≤ 2 * K * P) by nia.
    assert (K * (2 * P) ≤ K * P') by nia.
    assert (K * P' ≤ Z.pos m' * P') by nia. lia.
Qed.

(** Division by a positive finite number is monotone on positive
    finite numbers. *)
Lemma SFdiv_mono_finite (mx mx' my : positive) (ex ex' ey : Z) :
  bounded prec emax mx ex = true → bounded prec emax mx' ex' = true →
  SFleb (S754_finite false mx ex) (S754_finite false mx' ex') = true →
  SFleb (SFdiv prec emax (S754_finite false mx ex) (S754_finite false my ey))
        (SFdiv prec emax (S754_finite false mx' ex') (S754_finite false my ey))
    = true.
Proof.
  intros Hx Hx' Hle. pose proof (SFleb_value _ _ _ _ Hx Hx' Hle) as Hv.
  apply bounded_rounded in Hx as (Hex & _). apply bounded_rounded in Hx' as (Hex' & _).
  destruct (SFdiv_pack mx my ex ey) as (s & n & E & Hs & Hn & HsE & Hr & ->).
  destruct (SFdiv_pack mx' my ex' ey) as (s' & n' & E' & Hs' & Hn' & HsE' & Hr' & ->).
  pose proof (nearest_even_in_range _ _ _ Hr) as Hnr.
  pose proof (nearest_even_in_range _ _ _ Hr') as Hnr'.
  assert (-1074 ≤ E ∧ -1074 ≤ E') as [HE HE'].
  { destruct Hr as (_ & _ & ? & _), Hr' as (_ & _ & ? & _). done. }
  apply pack_le; [split; [apply Hnr | split; [exact HE | apply Hnr]] |
                  split; [apply Hnr' | split; [exact HE' | apply Hnr']] |].
  apply rounded_le; [exact Hr | exact Hr' |].
  (* the order of the exact quotients is the order of the numerators *)
  pose proof (pow_shift_le (Z.pos mx) (Z.pos mx') (ex + 1074) (ex' + 1074)
                (s + n' + E - ex) ltac:(lia) ltac:(lia)) as Hshift.
  replace (ex + 1074 + (s + n' + E - ex)) with (s + (n' + (E + 1074)))
    in Hshift by lia.
  replace (ex' + 1074 + (s + n' + E - ex)) with (s' + (n + (E' + 1074)))
    in Hshift by lia.
  specialize (Hshift ltac:(lia) ltac:(lia) Hv).
  rewrite (Z.pow_add_r 2 s), (Z.pow_add_r 2 n'), (Z.pow_add_r 2 s'),
    (Z.pow_add_r 2 n) in Hshift by lia.
  set (Ps := 2 ^ s) in *. set (Ps' := 2 ^ s') in *.
  set (Pn := 2 ^ n) in *. set (Pn' := 2 ^ n') in *.
  set (PE := 2 ^ (E + 1074)) in *. set (PE' := 2 ^ (E' + 1074)) in *.
  assert (0 < Z.pos my) by lia.
  replace (Z.pos mx * Ps * (Z.pos my * Pn') * PE)
    with (Z.pos my * (Z.pos mx * (Ps * (Pn' * PE)))) by ring.
  replace (Z.pos mx' * Ps' * (Z.pos my * Pn) * PE')
    with (Z.pos my * (Z.pos mx' * (Ps' * (Pn * PE')))) by ring.
  apply Z.mul_le_mono_nonneg_l; [lia | exact Hshift].
Qed.

Lemma nonneg_spec_leb_zero (s : bool) (x : spec_float) :
  nonneg_spec x = true → SFleb (S754_zero s) x = true.
Proof. by destruct x as [|[]| |[]]. Qed.

Lemma leb_zero_nonneg_spec (s : bool) (x : spec_float) :
  SFleb (S754_zero s) x = true → nonneg_spec x = true.
Proof. by destruct x as [|[]| |[]]. Qed.

Lemma nonneg_spec_leb_infinity (x : spec_float) :
  nonneg_spec x = true → SFleb x (S754_infinity false) = true.
Proof. by destruct x as [|[]| |[]]. Qed.

Lemma pack_nonneg (m E : Z) :
  rounded m E → nonneg_spec (pack false m E) = true.
Proof.
  intros ([Hm0 Hm1] & HE & _).
  destruct (Z.eq_dec m 0) as [->|Hm]; [by rewrite pack_zero |].
  destruct (Z.eq_dec m (2 ^ 53)) as [->|Htop].
  - rewrite pack_top by exact HE. by destruct (E + 1 <=? 971).
  - destruct m as [|p|p]; try lia.
    rewrite pack_below by lia. by destruct (E <=? 971).
Qed.

Lemma SFdiv_nonneg (x : spec_float) (my : positive) (ey : Z) :
  nonneg_spec x = true →
  nonneg_spec (SFdiv prec emax x (S754_finite false my ey)) = true.
Proof.
  destruct x as [s|[]| |[] mx ex]; try done. intros _.
  destruct (SFdiv_pack mx my ex ey) as (s & n & E & _ & _ & _ & Hr & ->).
  pose proof (nearest_even_in_range _ _ _ Hr) as Hnr.
  apply pack_nonneg. destruct Hr as (_ & _ & HE & _).
  split; [apply Hnr | split; [exact HE | apply Hnr]].
Qed.

(** Division by a positive finite number is monotone on the
    non-negative numbers, plus infinity included. *)
Lemma SFdiv_mono (x x' : spec_float) (my : positive) (ey : Z) :
  valid_binary x = true → valid_binary x' = true →
  nonneg_spec x = true → SFleb x x' = true →
  SFleb (SFdiv prec emax x (S754_finite false my ey))
        (SFdiv prec emax x' (S754_finite false my ey)) = true.
Proof.
  intros Hv Hv' Hx Hle.
  assert (nonneg_spec x' = true) as Hx'.
  { destruct x as [s|[]| |[] mx ex]; try done;
      destruct x' as [s'|[]| |[] mx' ex']; done. }
  pose proof (SFdiv_nonneg x my ey Hx) as Hq.
  pose proof (SFdiv_nonneg x' my ey Hx') as Hq'.
  destruct x as [s|[]| |[] mx ex]; try done.
  - (* zero *) change (SFdiv prec emax (S754_zero s) (S754_finite false my ey))
      with (S754_zero (xorb s false)).
    by apply nonneg_spec_leb_zero.
  - (* plus infinity *)
    destruct x' as [s'|[]| |[] mx' ex']; done.
  - (* positive finite *)
    destruct x' as [s'|[]| |[] mx' ex']; try done.
    + change (SFdiv prec emax (S754_infinity false) (S754_finite false my ey))
        with (S754_infinity false).
      by apply nonneg_spec_leb_infinity.
    + by apply SFdiv_mono_finite.
Qed.

Lemma pos_iter_xO_value (m d : positive) :
  Z.pos (Pos.iter xO m d) = Z.pos m * 2 ^ Z.pos d.
Proof.
  induction d as [|d IH] using Pos.peano_ind.
  - simpl. lia.
  - rewrite Pos.iter_succ, Pos2Z.inj_succ, Z.pow_succ_r by lia.
    rewrite Pos2Z.inj_xO, IH. lia.
Qed.

Lemma nearest_even_1 (m : Z) : nearest_even m 1 = m.
Proof. unfold nearest_even. by rewrite Z.div_1_r, Z.mod_1_r. Qed.

Lemma binary_round_aux_exact (s : bool) (m e : Z) :
  0 ≤ m →
  let E := Z.max e (fexp prec emax (Zdigits2 m + e)) in
  binary_round_aux prec emax s m e loc_Exact
    = pack s (nearest_even m (2 ^ (E - e))) E.
Proof.
  intros Hm E. pose proof (binary_round_aux_pack s m 1 e Hm ltac:(lia)) as H.
  cbv zeta in H. rewrite Z.div_1_r, Z.mod_1_r, Z.mul_1_l in H. exact H.
Qed.

(** A positive integer below 2^53 converts exactly. *)
Lemma of_int_pack (n : Z) :
  0 < n < 2 ^ 53 →
  ∃ M X, Prim2SF (JS.of_int n) = pack false M X
         ∧ rounded M X
         ∧ M * 2 ^ (X + 1074) = n * 2 ^ 1074.
Proof.
  intros [Hn0 Hn1]. unfold JS.of_int.
  replace (n <? 0) with false by (symmetry; apply Z.ltb_ge; lia).
  rewrite of_uint63_spec, Uint63.of_Z_spec.
  rewrite Z.mod_small by (change wB with (2 ^ 63); split; [lia |];
    assert (2 ^ 53 < 2 ^ 63) by done; lia).
  destruct n as [|p|p]; try lia.
  unfold binary_normalize, binary_round, shl_align. rewrite fexp_eq.
  change (Z.pos (digits2_pos p)) with (Zdigits2 (Z.pos p)).
  assert (1 ≤ Zdigits2 (Z.pos p) ≤ 53) as Hd.
  { split; [simpl; lia | apply Zdigits2_le_of_lt; lia]. }
  destruct (Z.max (Zdigits2 (Z.pos p) + 0 - 53) (-1074) - 0) as [|q|q] eqn:Hq;
    try lia.
  - (* 53 digits already *)
    rewrite binary_round_aux_exact by lia. rewrite fexp_eq.
    replace (Z.max 0 (Z.max (Zdigits2 (Z.pos p) + 0 - 53) (-1074))) with 0 by lia.
    change (2 ^ (0 - 0)) with 1. rewrite nearest_even_1.
    exists (Z.pos p), 0. split; [reflexivity |].
    split; [| reflexivity].
    pose proof (Zdigits2_lower (Z.pos p) ltac:(lia)) as Hlow.
    replace (Zdigits2 (Z.pos p)) with 53 in Hlow by lia.
    split; [lia |]. split; [lia |]. intros _. exact Hlow.
  - (* shifted left to 53 digits *)
    replace (Z.max (Zdigits2 (Z.pos p) + 0 - 53) (-1074)) with (Z.neg q) by lia.
    rewrite binary_round_aux_exact by lia. rewrite fexp_eq.
    assert (Zdigits2 (Z.pos (Pos.iter xO p q)) = 53) as Hd'.
    { simpl. rewrite digits2_pos_iter_xO.
      change (Z.pos (digits2_pos p)) with (Zdigits2 (Z.pos p)). lia. }
    rewrite Hd'.
    replace (Z.max (Z.neg q) (Z.max (53 + Z.neg q - 53) (-1074)))
      with (Z.neg q) by lia.
    rewrite Z.sub_diag. change (2 ^ 0) with 1. rewrite nearest_even_1.
    exists (Z.pos (Pos.iter xO p q)), (Z.neg q). split; [reflexivity |].
    pose proof (Zdigits2_lower (Z.pos (Pos.iter xO p q)) ltac:(lia)) as Hlow.
    pose proof (Zdigits2_upper (Z.pos (Pos.iter xO p q)) ltac:(lia)) as Hup.
    rewrite Hd' in Hlow, Hup.
    split; [split; [lia |]; split; [lia |]; intros _; exact Hlow |].
    rewrite pos_iter_xO_value.
    rewrite <- Z.mul_assoc, <- Z.pow_add_r by lia.
    do 2 f_equal. lia.
Qed.

Lemma round_scaled_multiple (j : Z) :
  0 ≤ j → round_scaled (j * 2 ^ 1074) = j * 2 ^ 1074.
Proof.
  intros Hj. unfold round_scaled. f_equal.
  change (2 ^ 1075) with (2 * 2 ^ 1074).
  replace (2 * (j * 2 ^ 1074) + 2 ^ 1074) with ((2 * j + 1) * 2 ^ 1074) by lia.
  rewrite Z.div_mul_cancel_r by done.
  rewrite Z.mul_comm, Z.div_add_l by lia. change (1 / 2) with 0. lia.
Qed.

Lemma round_scaled_frac (m : positive) (e : Z) :
  -1074 ≤ e < 0 →
  (Z.pos m * 2 + 2 ^ (- e)) / 2 ^ (1 - e)
    = (2 * (Z.pos m * 2 ^ (e + 1074)) + 2 ^ 1074) / 2 ^ 1075.
Proof.
  intros He.
  assert (0 < 2 ^ (e + 1074)) as HP by (apply Z.pow_pos_nonneg; lia).
  replace (2 ^ 1075) with (2 ^ (1 - e) * 2 ^ (e + 1074))
    by (rewrite <- Z.pow_add_r by lia; f_equal; lia).
  replace (2 ^ 1074) with (2 ^ (- e) * 2 ^ (e + 1074)) at 1
    by (rewrite <- Z.pow_add_r by lia; f_equal; lia).
  replace (2 * (Z.pos m * 2 ^ (e + 1074)) + 2 ^ (- e) * 2 ^ (e + 1074))
    with ((Z.pos m * 2 + 2 ^ (- e)) * 2 ^ (e + 1074)) by lia.
  rewrite Z.div_mul_cancel_r; [reflexivity | | lia].
  apply Z.pow_nonzero; lia.
Qed.

Lemma round_scaled_mono (w w' : Z) :
  w ≤ w' → round_scaled w ≤ round_scaled w'.
Proof.
  intros Hw. unfold round_scaled.
  apply Z.mul_le_mono_nonneg_r; [done |].
  apply Z.div_le_mono; [done | lia].
Qed.

Lemma same_order_refl (x : spec_float) : same_order x x.
Proof. by intros z. Qed.

Lemma same_order_zero (s : bool) : same_order (S754_zero s) (S754_zero false).
Proof. intros z. by destruct z as [|[]| |[]]. Qed.

(** [Math.round] of a zero or a positive finite number, as a rounded
    mantissa and exponent. *)
Lemma Math_round_pack (x : float) :
  nonneg_spec (Prim2SF x) = true → Prim2SF x ≠ S754_infinity false →
  ∃ M X, same_order (Prim2SF (JS.Math_round x)) (pack false M X)
         ∧ rounded M X
         ∧ M * 2 ^ (X + 1074) = round_scaled (scaled (Prim2SF x)).
Proof.
  intros Hnn Hinf. pose proof (Prim2SF_valid x) as Hvalid.
  unfold JS.Math_round.
  destruct (Prim2SF x) as [s|[]| |[] m e] eqn:Hx; try done.
  - (* zero *)
    exists 0, (-1074). rewrite Hx. split; [apply same_order_zero |].
    split; [done | reflexivity].
  - (* positive finite *)
    simpl in Hvalid. apply bounded_rounded in Hvalid as (He & Hm & Hlo).
    destruct (Z.leb_spec 0 e) as [He0|He0].
    + exists (Z.pos m), e. rewrite Hx. split.
      * rewrite pack_below by lia.
        replace (e <=? 971) with true by (symmetry; apply Z.leb_le; lia).
        apply same_order_refl.
      * split; [split; [lia |]; split; [lia | exact Hlo] |].
        simpl scaled.
        replace (e + 1074) with (1074 + e) by lia.
        rewrite Z.pow_add_r, (Z.mul_comm (2 ^ 1074)), Z.mul_assoc by lia.
        symmetry. apply round_scaled_multiple.
        assert (0 < 2 ^ e) by (apply Z.pow_pos_nonneg; lia). nia.
    + simpl scaled. unfold round_scaled.
      rewrite <- (round_scaled_frac m e) by lia.
      set (n := (Z.pos m * 2 + 2 ^ (- e)) / 2 ^ (1 - e)).
      assert (0 ≤ n < 2 ^ 53) as Hn.
      { assert (0 < 2 ^ (- e)) as HP by (apply Z.pow_pos_nonneg; lia).
        assert (2 ^ (1 - e) = 2 * 2 ^ (- e)) as HP2.
        { replace (1 - e) with (Z.succ (- e)) by lia.
          apply Z.pow_succ_r. lia. }
        split; [apply Z.div_pos; lia |].
        apply Z.div_lt_upper_bound; [lia |]. rewrite HP2.
        assert (2 ≤ 2 ^ (- e)) by (apply (Z.pow_le_mono_r 2 1 (- e)); lia).
        change (2 ^ 53) with 9007199254740992 in *. nia. }
      destruct (Z.eqb_spec n 0) as [Hn0|Hn0].
      * exists 0, (-1074). split.
        { change (Prim2SF 0) with (S754_zero false). rewrite pack_zero by done.
          apply same_order_refl. }
        split; [done |]. rewrite Hn0. reflexivity.
      * destruct (of_int_pack n ltac:(lia)) as (M & X & -> & Hr & Hv).
        exists M, X. split; [apply same_order_refl |]. split; [exact Hr | exact Hv].
Qed.

Lemma Math_round_nonneg (x : float) :
  nonneg_spec (Prim2SF x) = true →
  nonneg_spec (Prim2SF (JS.Math_round x)) = true.
Proof.
  intros Hnn.
  destruct (Prim2SF x) as [s|[]| |[] m e] eqn:Hx; try done;
    try (unfold JS.Math_round; rewrite Hx, Hx; reflexivity).
  destruct (Math_round_pack x) as (M & X & Hs & Hr & _);
    [by rewrite Hx | by rewrite Hx |].
  apply (leb_zero_nonneg_spec false).
  destruct (Hs (S754_zero false)) as [_ ->].
  apply nonneg_spec_leb_zero. by apply pack_nonneg.
Qed.

(** [Math.round] is monotone on the non-negative numbers. *)
Lemma Math_round_mono (x x' : float) :
  nonneg_spec (Prim2SF x) = true →
  SFleb (Prim2SF x) (Prim2SF x') = true →
  SFleb (Prim2SF (JS.Math_round x)) (Prim2SF (JS.Math_round x')) = true.
Proof.
  intros Hnn Hle.
  assert (nonneg_spec (Prim2SF x') = true) as Hnn'.
  { destruct (Prim2SF x) as [s|[]| |[] m e]; try done;
      destruct (Prim2SF x') as [s'|[]| |[] m' e']; done. }
  assert (Prim2SF x' = S754_infinity false
          ∨ Prim2SF x' ≠ S754_infinity false) as [Hinf'|Hfin']
    by (destruct (Prim2SF x') as [|[]| |]; (by left) || (by right)).
  { unfold JS.Math_round at 2. rewrite Hinf', Hinf'.
    by apply nonneg_spec_leb_infinity, Math_round_nonneg. }
  assert (Prim2SF x ≠ S754_infinity false) as Hfin.
  { intros Hinf. rewrite Hinf in Hle.
    destruct (Prim2SF x') as [s'|[]| |[] m' e']; done. }
  assert (scaled (Prim2SF x) ≤ scaled (Prim2SF x')) as Hw.
  { pose proof (Prim2SF_valid x) as Hv. pose proof (Prim2SF_valid x') as Hv'.
    destruct (Prim2SF x) as [s|[]| |[] m e]; try done;
      destruct (Prim2SF x') as [s'|[]| |[] m' e']; try done; simpl.
    - assert (0 < 2 ^ (e' + 1074)); [| lia].
      apply Z.pow_pos_nonneg; [lia |].
      simpl in Hv'. apply bounded_rounded in Hv'. lia.
    - by apply SFleb_value. }
  destruct (Math_round_pack x Hnn Hfin) as (M & X & Hs & Hr & Hval).
  destruct (Math_round_pack x' Hnn' Hfin') as (M' & X' & Hs' & Hr' & Hval').
  destruct (Hs (Prim2SF (JS.Math_round x'))) as [-> _].
  destruct (Hs' (pack false M X)) as [_ ->].
  apply pack_le; [exact Hr | exact Hr' |].
  rewrite Hval, Hval'. by apply round_scaled_mono.
Qed.

Lemma finite_spec_opp (x : spec_float) :
  JS.finite_spec (SFopp x) = JS.finite_spec x.
Proof. by destruct x. Qed.

Lemma of_int_finite (n : Z) : JS.isFinite (JS.of_int n) = true.
Proof.
  unfold JS.isFinite, JS.of_int. destruct (n <? 0).
  - rewrite FloatAxioms.opp_spec, finite_spec_opp. apply of_uint63_finite.
  - apply of_uint63_finite.
Qed.

(** [Math.round] of a finite number is finite. *)
Lemma Math_round_finite (x : float) :
  JS.isFinite x = true → JS.isFinite (JS.Math_round x) = true.
Proof.
  intros Hx. unfold JS.Math_round.
  destruct (Prim2SF x) as [s|s| |s m e] eqn:Hsf; try exact Hx.
  destruct (0 <=? e); [exact Hx |].
  destruct (_ =? 0); [by destruct s | apply of_int_finite].
Qed.

(** A quotient by a finite number of magnitude at least 2 is finite. *)
Lemma div_finite (x y : float) (sy : bool) (my : positive) (ey : Z) :
  Prim2SF y = S754_finite sy my ey → 2 ^ 52 ≤ Z.pos my → -51 ≤ ey →
  JS.isFinite x = true → JS.isFinite (x / y) = true.
Proof.
  intros Hy Hmy Hey Hx. unfold JS.isFinite. rewrite FloatAxioms.div_spec, Hy.
  apply SFdiv_finite; [apply Prim2SF_valid | exact Hx | exact Hmy | exact Hey].
Qed.

(** Zero divided by anything but zero and NaN is zero. *)
Lemma zero_div (x y : float) :
  JS.isZero x = true → JS.truthy y = true → JS.isZero (x / y) = true.
Proof.
  unfold JS.isZero, JS.truthy. rewrite FloatAxioms.div_spec.
  destruct (Prim2SF x), (Prim2SF y); simpl; done.
Qed.

Lemma Math_round_zero (x : float) :
  JS.isZero x = true → JS.isZero (JS.Math_round x) = true.
Proof.
  unfold JS.Math_round, JS.isZero.
  destruct (Prim2SF x) eqn:Hx; try done. by rewrite Hx.
Qed.

End Binary64.

(* ===================================================================== *)
(** * Properties of the arrival estimates *)
(* ===================================================================== *)

(* --------------------------------------------------------------------- *)
(** ** C4: estimates and the status of the bus *)
(* --------------------------------------------------------------------- *)

(** C4, as claimed, fails: for bus 101 put out of service the
    information panel computes three estimates (3, 7 and 12 minutes),
    not an "unavailable" result. *)
Lemma panel_estimates_out_of_service :
  Bus.status bus_101_out = "out-of-service"
  ∧ Client.eta <$> Client.nextStops bus_101_out
      = [3%float; 7%float; 12%float].
Proof. split; vm_compute; reflexivity. Qed.

(** C4 (amended): [getNearestBuses] lists estimates only for buses of
    the query result whose status is not "out-of-service", at most
    three of them; the information panel's [nextStops] holds three
    estimates from [calculateETA] for every bus, whatever its status.
    No "unavailable" result exists. *)
Theorem estimates_by_status :
  (∀ random buses e,
     e ∈ Client.getNearestBuses random buses →
     Bus.status e.1 ≠ "out-of-service"
     ∧ ∃ l, buses = Some l ∧ e.1 ∈ l)
  ∧ (∀ random buses,
       (length (Client.getNearestBuses random buses) ≤ 3)%nat)
  ∧ (∀ bus,
       Client.eta <$> Client.nextStops bus =
         [Client.calculateETA bus 900; Client.calculateETA bus 2100;
          Client.calculateETA bus 3600]).
Proof.
  split; [| split; [| reflexivity]].
  - intros random buses e He. unfold Client.getNearestBuses in He.
    destruct buses as [[|b l]|]; [by apply elem_of_nil in He | |
                                  by apply elem_of_nil in He].
    apply list_elem_of_lookup in He as [i Hi].
    rewrite list_lookup_imap in Hi.
    destruct (take 3 (filter _ (b :: l)) !! i) as [x|] eqn:Hx;
      [| discriminate Hi].
    injection Hi as <-. simpl.
    apply list_elem_of_lookup_2, subseteq_take in Hx.
    apply list_elem_of_filter in Hx as [Hstatus Hin]. split; [exact Hstatus |].
    by exists (b :: l).
  - intros random buses. unfold Client.getNearestBuses.
    destruct buses as [[|b l]|]; simpl; try lia.
    rewrite length_imap, length_take. lia.
Qed.

Lemma estimates_by_status_witness :
  (bus_303, 11%float)
    ∈ Client.getNearestBuses (λ _, 0.5%float) (Some [bus_101_out; bus_303])
  ∧ Bus.status bus_303 ≠ "out-of-service"
  ∧ (length (Client.getNearestBuses (λ _, 0.5%float)
               (Some [bus_101_out; bus_303])) ≤ 3)%nat.
Proof.
  destruct estimates_by_status as (Hstatus & Hlength & _).
  assert ((bus_303, 11%float)
            ∈ Client.getNearestBuses (λ _, 0.5%float)
                (Some [bus_101_out; bus_303])) as Hin.
  { vm_compute. apply list_elem_of_here. }
  split; [exact Hin |].
  split; [exact (proj1 (Hstatus _ _ _ Hin)) | apply Hlength].
Defined.

(* --------------------------------------------------------------------- *)
(** ** C6: what the estimate is computed from *)
(* --------------------------------------------------------------------- *)

(** C6, as claimed, fails: at 20 km/h the quotient of distance and
    speed is 1.5 minutes for 500 m and 7.5 minutes for 2500 m, and
    [calculateETA] returns 2 and 8. *)
Lemma eta_is_not_the_quotient :
  (500 / Client.speedMps bus_303 / 60)%float = 1.5%float
  ∧ Client.calculateETA bus_303 500 = 2%float
  ∧ (Client.calculateETA bus_303 500 =? 1.5)%float = false
  ∧ (2500 / Client.speedMps bus_303 / 60)%float = 7.5%float
  ∧ Client.calculateETA bus_303 2500 = 8%float
  ∧ (Client.calculateETA bus_303 2500 =? 7.5)%float = false.
Proof. repeat split; vm_compute; reflexivity. Qed.

(** C6 (amended): the estimate to a stop is the stop distance handed
    to [calculateETA] divided by the bus speed (converted from km/h to
    m/s), in minutes rounded to the nearest whole minute.  It does not
    depend on where the bus is: the panel hands in the fixed distances
    900, 2100 and 3600 m.  At 20 km/h, 500 m give 2 minutes and 2500 m
    give 8 minutes. *)
Theorem eta_from_given_distance :
  (∀ bus location d,
     Client.calculateETA (moved bus location (Bus.speed bus)) d
       = Client.calculateETA bus d)
  ∧ (∀ bus location,
       Client.distance <$> Client.nextStops (moved bus location (Bus.speed bus))
         = [900%float; 2100%float; 3600%float])
  ∧ (∀ bus d,
       Client.calculateETA bus d =
         JS.Math_round
           (d / (JS.or_else (Bus.speed bus) 20 * 1000 / 3600) / 60)%float)
  ∧ (∀ bus,
       Bus.speed bus = Some 20%float →
       Client.calculateETA bus 500 = 2%float
       ∧ Client.calculateETA bus 2500 = 8%float).
Proof.
  split; [reflexivity |]. split; [reflexivity |]. split; [reflexivity |].
  intros bus Hspeed. unfold Client.calculateETA, Client.speedMps.
  rewrite Hspeed. split; vm_compute; reflexivity.
Qed.

Lemma eta_from_given_distance_witness :
  Bus.speed bus_303 = Some 20%float
  ∧ Client.calculateETA bus_303 500 = 2%float
  ∧ Client.calculateETA bus_303 2500 = 8%float
  ∧ Client.calculateETA (moved bus_303 (position report_old) (Bus.speed bus_303))
      500 = Client.calculateETA bus_303 500.
Proof.
  destruct eta_from_given_distance as (Hmoved & _ & _ & Hscenario).
  split; [reflexivity |].
  split; [apply (Hscenario bus_303); reflexivity |].
  split; [apply (Hscenario bus_303); reflexivity |].
  apply Hmoved.
Defined.

(* --------------------------------------------------------------------- *)
(** ** C5: the fallback speed *)
(* --------------------------------------------------------------------- *)

Lemma fallbackMps_spec :
  Prim2SF fallbackMps = S754_finite false 6254999482459022 (-50).
Proof. vm_compute. reflexivity. Qed.

Lemma sixty_spec : Prim2SF 60 = S754_finite false 8444249301319680 (-47).
Proof. vm_compute. reflexivity. Qed.

Lemma speedMps_fallback (bus : Bus.t) :
  speed_unset_or_zero bus = true → Client.speedMps bus = fallbackMps.
Proof.
  unfold speed_unset_or_zero, Client.speedMps, JS.or_else, JS.isZero,
    JS.truthy.
  destruct (Bus.speed bus) as [x|]; [| reflexivity].
  by destruct (Prim2SF x).
Qed.

Lemma div_not_finite (x y : float) (my : positive) (ey : Z) :
  Prim2SF y = S754_finite false my ey →
  JS.isFinite x = false → JS.isFinite (x / y) = false.
Proof.
  unfold JS.isFinite. intros Hy Hx. rewrite FloatAxioms.div_spec, Hy.
  by destruct (Prim2SF x) as [s|s| |s m e].
Qed.

Lemma Math_round_not_finite (x : float) :
  JS.isFinite x = false → JS.isFinite (JS.Math_round x) = false.
Proof.
  unfold JS.isFinite, JS.Math_round. intros Hx.
  by destruct (Prim2SF x) as [s|s| |s m e] eqn:Hsf; simpl in Hx;
    rewrite ?Hsf.
Qed.

(** C5, as claimed, fails: plus infinity is a non-negative stop
    distance, and for a bus that stands still the estimate at that
    distance is plus infinity, not a finite number. *)
Lemma eta_infinite_at_infinite_distance :
  speed_unset_or_zero bus_stopped = true
  ∧ (0 <=? infinity)%float = true
  ∧ Prim2SF (Client.calculateETA bus_stopped infinity) = S754_infinity false
  ∧ JS.isFinite (Client.calculateETA bus_stopped infinity) = false.
Proof. repeat split; vm_compute; reflexivity. Qed.

(** C5 (amended): for a bus whose speed is zero, null or undefined,
    [calculateETA] divides by the fallback speed of 20 km/h, which is
    positive, never by zero: the estimate is the stop distance over
    that speed, in minutes, rounded.  It is a finite number exactly
    when the stop distance is one, and for a non-negative stop distance
    it is neither NaN nor negative; at the distance plus infinity it is
    plus infinity. *)
Theorem eta_finite_without_speed (bus : Bus.t) (stopDistance : float) :
  speed_unset_or_zero bus = true →
  Client.speedMps bus = fallbackMps
  ∧ (0 <? fallbackMps)%float = true
  ∧ Client.calculateETA bus stopDistance
      = JS.Math_round (stopDistance / fallbackMps / 60)%float
  ∧ JS.isFinite (Client.calculateETA bus stopDistance)
      = JS.isFinite stopDistance
  ∧ ((0 <=? stopDistance)%float = true →
     (0 <=? Client.calculateETA bus stopDistance)%float = true).
Proof.
  intros Hspeed. pose proof (speedMps_fallback bus Hspeed) as Hmps.
  split; [exact Hmps |]. split; [reflexivity |].
  unfold Client.calculateETA. rewrite Hmps.
  split; [reflexivity |]. split.
  - destruct (JS.isFinite stopDistance) eqn:Hd.
    + apply Math_round_finite.
      apply (div_finite _ _ _ _ _ sixty_spec); [done | done |].
      apply (div_finite _ _ _ _ _ fallbackMps_spec); [done | done | exact Hd].
    + apply Math_round_not_finite.
      apply (div_not_finite _ _ _ _ sixty_spec).
      by apply (div_not_finite _ _ _ _ fallbackMps_spec).
  - rewrite !FloatAxioms.leb_spec. change (Prim2SF 0) with (S754_zero false).
    intros H0%leb_zero_nonneg_spec.
    apply nonneg_spec_leb_zero, Math_round_nonneg.
    rewrite (FloatAxioms.div_spec (stopDistance / fallbackMps) 60), sixty_spec.
    apply SFdiv_nonneg.
    rewrite FloatAxioms.div_spec, fallbackMps_spec. by apply SFdiv_nonneg.
Qed.

Lemma eta_finite_without_speed_witness :
  speed_unset_or_zero bus_stopped = true
  ∧ Client.calculateETA bus_stopped 900 = 3%float
  ∧ Client.calculateETA bus_stopped 900
      = JS.Math_round (900 / fallbackMps / 60)%float
  ∧ JS.isFinite (Client.calculateETA bus_stopped 900) = JS.isFinite 900
  ∧ (0 <=? 900)%float = true
  ∧ (0 <=? Client.calculateETA bus_stopped 900)%float = true
  ∧ JS.isFinite (Client.calculateETA bus_without_speed 3600)
      = JS.isFinite 3600.
Proof.
  split; [reflexivity |]. split; [vm_compute; reflexivity |].
  destruct (eta_finite_without_speed bus_stopped 900) as (_ & _ & H3 & H4 & H5);
    [reflexivity |].
  destruct (eta_finite_without_speed bus_without_speed 3600)
    as (_ & _ & _ & H4' & _); [reflexivity |].
  split; [exact H3 |]. split; [exact H4 |]. split; [reflexivity |].
  split; [apply H5; reflexivity | exact H4'].
Defined.

(* --------------------------------------------------------------------- *)
(** ** C7: the estimate at a stop and along the stops *)
(* --------------------------------------------------------------------- *)

(** C7, as claimed, fails: at 20 km/h the stops 10 m and 20 m ahead
    both get the estimate 0, so estimates do not strictly increase with
    the distance; and for a bus whose speed is the smallest positive
    double the converted speed underflows to zero and the estimate at
    distance 0 is NaN. *)
Lemma estimates_not_strictly_increasing :
  (10 <? 20)%float = true
  ∧ Client.calculateETA bus_303 10 = 0%float
  ∧ Client.calculateETA bus_303 20 = 0%float
  ∧ (Client.calculateETA bus_303 10 <? Client.calculateETA bus_303 20)%float
      = false
  ∧ Prim2SF (Client.speedMps bus_crawling) = S754_zero false
  ∧ Prim2SF (Client.calculateETA bus_crawling 0) = S754_nan.
Proof. repeat split; vm_compute; reflexivity. Qed.

(** C7 (amended): for every bus whose speed in metres per second is
    neither zero nor NaN, the estimate for a stop at distance 0 is 0
    minutes; and for every bus whose speed in metres per second is
    positive and finite, the estimates are non-decreasing in the
    distance: a stop at a distance [d'] at least [d >= 0] gets an estimate
    at least that of the stop at [d].  Estimates are whole minutes and may
    repeat. *)
Theorem estimates_zero_then_nondecreasing :
  (∀ bus,
     JS.truthy (Client.speedMps bus) = true →
     JS.isZero (Client.calculateETA bus 0) = true)
  ∧ (∀ bus d d',
       positive_finite (Client.speedMps bus) = true →
       (0 <=? d)%float = true → (d <=? d')%float = true →
       (Client.calculateETA bus d <=? Client.calculateETA bus d')%float
         = true).
Proof.
  split.
  - intros bus Hv. unfold Client.calculateETA.
    apply Math_round_zero, zero_div; [apply zero_div; [reflexivity | exact Hv] |].
    reflexivity.
  - intros bus d d' Hv H0 Hle. unfold Client.calculateETA.
    unfold positive_finite in Hv.
    destruct (Prim2SF (Client.speedMps bus)) as [|[]| |[] mv ev] eqn:Hmps;
      try discriminate Hv.
    rewrite FloatAxioms.leb_spec in *.
    change (Prim2SF 0) with (S754_zero false) in H0.
    apply leb_zero_nonneg_spec in H0.
    assert (SFleb (Prim2SF (d / Client.speedMps bus))
                  (Prim2SF (d' / Client.speedMps bus)) = true) as H1.
    { rewrite !FloatAxioms.div_spec, Hmps.
      apply SFdiv_mono; [apply Prim2SF_valid | apply Prim2SF_valid | done | done]. }
    assert (nonneg_spec (Prim2SF (d / Client.speedMps bus)) = true) as Hn1.
    { rewrite FloatAxioms.div_spec, Hmps. by apply SFdiv_nonneg. }
    apply Math_round_mono.
    + rewrite (FloatAxioms.div_spec (d / Client.speedMps bus) 60), sixty_spec.
      by apply SFdiv_nonneg.
    + rewrite (FloatAxioms.div_spec (d / Client.speedMps bus) 60),
        (FloatAxioms.div_spec (d' / Client.speedMps bus) 60), sixty_spec.
      apply SFdiv_mono; [apply Prim2SF_valid | apply Prim2SF_valid | done | done].
Qed.

Lemma estimates_zero_then_nondecreasing_witness :
  JS.truthy (Client.speedMps bus_303) = true
  ∧ JS.isZero (Client.calculateETA bus_303 0) = true
  ∧ positive_finite (Client.speedMps bus_303) = true
  ∧ (0 <=? 900)%float = true ∧ (900 <=? 2100)%float = true
  ∧ (Client.calculateETA bus_303 900 <=? Client.calculateETA bus_303 2100)%float
      = true.
Proof.
  destruct estimates_zero_then_nondecreasing as [Hzero Hmono].
  split; [reflexivity |].
  split; [apply Hzero; reflexivity |].
  split; [reflexivity |]. split; [reflexivity |]. split; [reflexivity |].
  apply Hmono; reflexivity.
Defined.

(* ===================================================================== *)
(** * Listing the rows of a map

    [MemStorage.keys] is the sorted list of the keys of a map and
    [MemStorage.values] the rows in that order. *)
(* ===================================================================== *)

Section ListingFacts.
Context {A : Type}.
Implicit Types (m : gmap Z A) (k : Z) (x : A).

Lemma elem_of_keys m k : k ∈ MemStorage.keys m ↔ is_Some (m !! k).
Proof.
  unfold MemStorage.keys. rewrite merge_sort_Permutation, elem_of_elements.
  apply elem_of_dom.
Qed.

Lemma keys_sorted m : StronglySorted Z.le (MemStorage.keys m).
Proof. apply StronglySorted_merge_sort; apply _. Qed.

Lemma keys_NoDup m : NoDup (MemStorage.keys m).
Proof.
  unfold MemStorage.keys. rewrite merge_sort_Permutation. apply NoDup_elements.
Qed.

(** The keys of a map are the one sorted list without repetition that
    holds them. *)
Lemma keys_unique m (l : list Z) :
  StronglySorted Z.le l → NoDup l → (∀ k, k ∈ l ↔ is_Some (m !! k)) →
  MemStorage.keys m = l.
Proof.
  intros Hs Hn Hl.
  apply (StronglySorted_unique Z.le); [apply keys_sorted | done |].
  apply NoDup_Permutation; [apply keys_NoDup | done |].
  intros k. by rewrite elem_of_keys, Hl.
Qed.

Lemma keys_values m :
  Forall2 (λ k x, m !! k = Some x) (MemStorage.keys m) (MemStorage.values m).
Proof.
  unfold MemStorage.values.
  assert (Forall (λ k, is_Some (m !! k)) (MemStorage.keys m)) as H.
  { apply Forall_forall. intros k. apply elem_of_keys. }
  induction H as [|k l [x Hx] _ IH]; simpl; [constructor |].
  rewrite Hx. by constructor.
Qed.

Lemma elem_of_values m x : x ∈ MemStorage.values m ↔ ∃ k, m !! k = Some x.
Proof.
  split.
  - intros (i & Hi)%list_elem_of_lookup.
    destruct (Forall2_lookup_r _ _ _ _ _ (keys_values m) Hi) as (k & _ & Hk).
    by exists k.
  - intros (k & Hk).
    assert (k ∈ MemStorage.keys m) as Hin by (by apply elem_of_keys).
    apply list_elem_of_lookup in Hin as (i & Hi).
    destruct (Forall2_lookup_l _ _ _ _ _ (keys_values m) Hi) as (y & Hy & Hky).
    rewrite Hk in Hky. injection Hky as <-. by eapply list_elem_of_lookup_2.
Qed.

Lemma keys_insert_present m k x :
  is_Some (m !! k) → MemStorage.keys (<[k := x]> m) = MemStorage.keys m.
Proof.
  intros Hk. unfold MemStorage.keys.
  replace (dom (<[k := x]> m)) with (dom m); [done |].
  rewrite dom_insert_L. apply elem_of_dom in Hk.
  apply leibniz_equiv. intros j. rewrite elem_of_union, elem_of_singleton.
  split; [by right | by intros [->|?]].
Qed.

(** A key above all the keys of the map comes last. *)
Lemma keys_insert_fresh m k x :
  (∀ j, is_Some (m !! j) → j < k) →
  MemStorage.keys (<[k := x]> m) = MemStorage.keys m ++ [k].
Proof.
  intros Hlt. apply keys_unique.
  - apply StronglySorted_app_2; [| apply keys_sorted | repeat constructor].
    intros j k' Hj ->%list_elem_of_singleton.
    apply elem_of_keys, Hlt in Hj. lia.
  - apply NoDup_app. split; [apply keys_NoDup |].
    split; [| apply NoDup_singleton].
    intros j Hj ->%list_elem_of_singleton. apply elem_of_keys, Hlt in Hj. lia.
  - intros j. rewrite elem_of_app, list_elem_of_singleton, elem_of_keys.
    rewrite lookup_insert_is_Some. destruct (decide (k = j)); intuition.
Qed.

Lemma omap_ext_in {B C} (f g : B → option C) (l : list B) :
  (∀ b, b ∈ l → f b = g b) → omap f l = omap g l.
Proof.
  induction l as [|a l IH]; intros H; csimpl; [done |].
  rewrite (H a) by left. rewrite IH; [done |]. intros; apply H; by right.
Qed.

Lemma omap_filter {B C} (f : B → option C) (Q : B → Prop)
    `{∀ b, Decision (Q b)} (l : list B) :
  omap f (filter Q l) = omap (λ b, if decide (Q b) then f b else None) l.
Proof.
  induction l as [|a l IH]; [done |].
  rewrite filter_cons. csimpl. destruct (decide (Q a)); csimpl; by rewrite IH.
Qed.

Lemma filter_omap {B C} (P : C → bool) (f : B → option C) (l : list B) :
  List.filter P (omap f l)
    = omap (λ b, match f b with
                 | Some v => if P v then Some v else None
                 | None => None
                 end) l.
Proof.
  induction l as [|a l IH]; [done |]. csimpl.
  destruct (f a) as [v|]; simpl; [| done].
  destruct (P v); by rewrite IH.
Qed.

Lemma sorted_filter (Q : Z → Prop) `{∀ k, Decision (Q k)} (l : list Z) :
  StronglySorted Z.le l → StronglySorted Z.le (filter Q l).
Proof.
  induction 1 as [|a l _ IH Ha]; [constructor |].
  rewrite filter_cons. destruct (decide (Q a)); [| done].
  constructor; [done |]. apply Forall_forall.
  intros b [_ Hb]%list_elem_of_filter. by eapply Forall_forall in Ha.
Qed.

Lemma sorted_lookup_le (l : list Z) : StronglySorted Z.le l →
  ∀ (i j : nat) (a b : Z),
    (i ≤ j)%nat → l !! i = Some a → l !! j = Some b → a ≤ b.
Proof.
  induction 1 as [|c l _ IH Hc]; intros i j a b Hij Hi Hj; [done |].
  destruct i as [|i], j as [|j]; simpl in *; try lia.
  - simplify_eq. lia.
  - simplify_eq. eapply Forall_forall in Hc; [exact Hc |].
    by eapply list_elem_of_lookup_2.
  - eapply IH; [| done..]. lia.
Qed.

(** A row set under a key above all the keys is listed last. *)
Lemma values_insert_fresh m k x :
  (∀ j, is_Some (m !! j) → j < k) →
  MemStorage.values (<[k := x]> m) = MemStorage.values m ++ [x].
Proof.
  intros Hlt. unfold MemStorage.values. rewrite keys_insert_fresh by done.
  rewrite omap_app. csimpl. rewrite lookup_insert_eq. f_equal.
  apply omap_ext_in. intros j Hj%elem_of_keys%Hlt.
  rewrite lookup_insert_ne by lia. done.
Qed.

(** A row set under a present key takes the place of the old row. *)
Lemma values_insert_present m k x :
  is_Some (m !! k) →
  MemStorage.values (<[k := x]> m)
    = omap (λ j, if decide (j ≠ k) then m !! j else Some x) (MemStorage.keys m).
Proof.
  intros Hk. unfold MemStorage.values. rewrite keys_insert_present by done.
  apply omap_ext_in. intros j _. destruct (decide (j ≠ k)) as [Hne|Heq].
  - by rewrite lookup_insert_ne.
  - apply dec_stable in Heq. subst. by rewrite lookup_insert_eq.
Qed.

Lemma keys_delete m k :
  MemStorage.keys (delete k m) = filter (λ j, j ≠ k) (MemStorage.keys m).
Proof.
  apply keys_unique.
  - apply sorted_filter, keys_sorted.
  - apply NoDup_filter, keys_NoDup.
  - intros j. rewrite list_elem_of_filter, elem_of_keys, lookup_delete_is_Some.
    intuition.
Qed.

Lemma values_delete m k :
  MemStorage.values (delete k m)
    = omap (λ j, if decide (j ≠ k) then m !! j else None) (MemStorage.keys m).
Proof.
  unfold MemStorage.values. rewrite keys_delete, omap_filter.
  apply omap_ext_in. intros j _. destruct (decide (j ≠ k)); [| done].
  by rewrite lookup_delete_ne.
Qed.

Lemma elem_of_filter_values (P : A → bool) m x :
  x ∈ List.filter P (MemStorage.values m)
  ↔ P x = true ∧ ∃ i, m !! i = Some x.
Proof.
  rewrite list_elem_of_In, filter_In, <- list_elem_of_In, elem_of_values.
  tauto.
Qed.

(** [Array.prototype.find]: the first element that passes the test. *)
Lemma find_first {B} (P : B → bool) (l : list B) :
  match List.find P l with
  | Some x =>
      ∃ i : nat, l !! i = Some x ∧ P x = true
        ∧ ∀ (j : nat) y, (j < i)%nat → l !! j = Some y → P y = false
  | None => ∀ y, y ∈ l → P y = false
  end.
Proof.
  induction l as [|a l IH]; simpl; [by intros y Hy%elem_of_nil |].
  destruct (P a) eqn:Ha.
  - exists 0%nat. split; [done |]. split; [done |]. intros; lia.
  - destruct (List.find P l) as [x|].
    + destruct IH as (i & Hi & Hx & Hbefore). exists (S i).
      split; [done |]. split; [done |].
      intros [|j] y Hj Hy; simpl in Hy; [by simplify_eq |].
      eapply Hbefore; [| done]. lia.
    + intros y [->|Hy]%elem_of_cons; [done | by apply IH].
Qed.

(** [find] over the rows of a map returns the row of least key that
    passes the test. *)
Lemma find_values (P : A → Prop) `{∀ x, Decision (P x)} m :
  first_with P m
    (List.find (λ x, bool_decide (P x)) (MemStorage.values m)).
Proof.
  pose proof (find_first (λ x, bool_decide (P x)) (MemStorage.values m)) as Hf.
  pose proof (keys_values m) as Hkv.
  destruct (List.find _ _) as [x|]; simpl.
  - destruct Hf as (i & Hi & Hx%bool_decide_eq_true & Hbefore).
    split; [done |].
    destruct (Forall2_lookup_r _ _ _ _ _ Hkv Hi) as (k & Hki & Hk).
    exists k. split; [done |]. intros k' y Hk' Hy.
    assert (k' ∈ MemStorage.keys m) as Hin by (by apply elem_of_keys).
    apply list_elem_of_lookup in Hin as (j & Hj).
    destruct (Forall2_lookup_l _ _ _ _ _ Hkv Hj) as (y' & Hy' & Hky').
    rewrite Hk' in Hky'. injection Hky' as <-.
    destruct (decide (j < i)%nat) as [Hlt|Hge].
    + specialize (Hbefore j y Hlt Hy'). by apply bool_decide_eq_false in Hbefore.
    + eapply (sorted_lookup_le _ (keys_sorted m) i j); [lia | done..].
  - intros k y Hk Hy. specialize (Hf y).
    assert (bool_decide (P y) = false) as Hn.
    { apply Hf, elem_of_values. by exists k. }
    by apply bool_decide_eq_false in Hn.
Qed.

End ListingFacts.


(* ===================================================================== *)
(** * More properties of the store *)
(* ===================================================================== *)

Ltac unfold_store :=
  unfold MemStorage.createUser, MemStorage.updateUser, MemStorage.verifyEmail,
    MemStorage.setVerificationToken, MemStorage.createBus,
    MemStorage.updateBus, MemStorage.updateBusLocation,
    MemStorage.createBusStop, MemStorage.createRoute, MemStorage.updateRoute,
    MemStorage.createDriver, MemStorage.updateDriver,
    MemStorage.createPayment, MemStorage.updatePayment,
    MemStorage.markPaymentAsPaid in *.

Section MoreStoreFacts.
Implicit Types (st : MemStorage.t) (o : op) (k : kind) (j : Z).

Lemma step_keeps_keys o st k j :
  is_Some (table k st !! j) → is_Some (table k (step o st) !! j).
Proof.
  destruct o; simpl; unfold_store; repeat case_match;
    destruct k; simpl; try done;
    rewrite lookup_insert_is_Some'; by right.
Qed.

(** X1: the store never deletes.  A key that holds a row of some
    table still holds a row of that table after any sequence of
    storage calls. *)
Theorem records_never_deleted (ops : list op) st k j :
  is_Some (table k st !! j) → is_Some (table k (run ops st) !! j).
Proof.
  revert st. induction ops as [|o ops IH]; intros st Hj; [done |].
  simpl. by apply IH, step_keeps_keys.
Qed.

Lemma records_never_deleted_witness :
  let ops := [UpdateBus 1 take_out_of_service;
              UpdateBusLocation 1 (position report_old) None;
              CreateBus (Bus.mkInsert "404" "Campus Loop" "on-time" 40 0
                {| lat := 34.05; lng := -118.24 |} None None None true)] in
  is_Some (table KBus MemStorage.constructor !! 1)
  ∧ is_Some (table KBus (run ops MemStorage.constructor) !! 1).
Proof.
  intros ops.
  assert (is_Some (table KBus MemStorage.constructor !! 1)) as H.
  { exists bus_101. vm_compute. reflexivity. }
  split; [exact H |]. apply records_never_deleted. exact H.
Defined.

(** X2: an update call ([updateUser], [verifyEmail],
    [setVerificationToken], [updateBus], [updateBusLocation],
    [updateRoute], [updateDriver], [updatePayment], [markPaymentAsPaid])
    touches one row only: every other row of every table and all six
    counters stay as they were.  When no row is stored under the id the
    whole store is unchanged; when one is, the key still holds a row. *)
Theorem update_touches_one_row o k (id : Z) st :
  target o = Some (k, id) →
  (∀ k' j, (k', j) ≠ (k, id) → table k' (step o st) !! j = table k' st !! j)
  ∧ (∀ k', counter k' (step o st) = counter k' st)
  ∧ (table k st !! id = None → step o st = st)
  ∧ (is_Some (table k st !! id) → is_Some (table k (step o st) !! id)).
Proof.
  intros Ht.
  destruct o; simpl in Ht; try discriminate; injection Ht as <- <-;
    simpl; unfold_store;
    (split; [| split; [| split]];
     [ intros k' j Hne; case_match; [| done]; destruct k'; simpl; try done;
       apply lookup_insert_ne; congruence
     | intros k'; case_match; by destruct k'
     | intros ->; done
     | intros [x ->]; simpl; rewrite lookup_insert_eq; eauto ]).
Qed.

Lemma update_touches_one_row_witness :
  target (MarkPaymentAsPaid 7 "card" 0) = Some (KPayment, 7)
  ∧ step (MarkPaymentAsPaid 7 "card" 0) MemStorage.constructor
      = MemStorage.constructor.
Proof.
  split; [reflexivity |].
  apply (update_touches_one_row (MarkPaymentAsPaid 7 "card" 0) KPayment 7
           MemStorage.constructor); reflexivity.
Defined.

(** X3: on a store reached from the constructor, a create call adds
    one row and nothing else.  The key it uses, the counter of its
    table, held no row before; afterwards it holds a row whose [id] is
    that key; every other row of every table is unchanged, and only the
    counter of its table moves, by one. *)
Theorem create_adds_one_row (ops : list op) (c : op) k :
  creates c = Some k →
  let st := run ops MemStorage.constructor in
  table k st !! counter k st = None
  ∧ (row_id k <$> table k (step c st) !! counter k st) = Some (counter k st)
  ∧ (∀ k' j, (k', j) ≠ (k, counter k st) →
       table k' (step c st) !! j = table k' st !! j)
  ∧ (∀ k', counter k' (step c st) =
            if decide (k' = k) then counter k' st + 1 else counter k' st).
Proof.
  intros Hc st.
  assert (table k st !! counter k st = None) as Hfresh.
  { destruct (table k st !! counter k st) eqn:E; [| done].
    pose proof (reachable_keys_below ops k (counter k st)) as H.
    fold st in H. rewrite E in H. specialize (H ltac:(eauto)). lia. }
  split; [exact Hfresh |]. clearbody st. clear Hfresh.
  destruct c; simpl in Hc; try discriminate; injection Hc as <-;
    simpl; unfold_store;
    (split; [by rewrite lookup_insert_eq | split];
     [ intros k' j Hne; destruct k'; simpl; try done;
       apply lookup_insert_ne; congruence
     | intros k'; by destruct k' ]).
Qed.

Lemma create_adds_one_row_witness :
  let c := CreateDriver (Driver.mkInsert "Dana Cruz" None true) in
  let st := run [] MemStorage.constructor in
  creates c = Some KDriver
  ∧ table KDriver st !! counter KDriver st = None
  ∧ (Driver.id <$> table KDriver (step c st) !! counter KDriver st)
      = Some (counter KDriver st).
Proof.
  intros c st. split; [reflexivity |].
  destruct (create_adds_one_row [] c KDriver) as (H1 & H2 & _);
    [reflexivity |].
  split; [exact H1 | exact H2].
Defined.

Lemma merge_spread (bus : Bus.t) (p q : Bus.partial) :
  Bus.merge (Bus.merge bus p) q = Bus.merge bus (spread p q).
Proof.
  assert (∀ (A : Type) (a : A) (x y : option A),
            default (default a x) y = default a (later x y)) as Hd
    by (by intros A a x []).
  unfold Bus.merge, spread; simpl. by rewrite <- !Hd.
Qed.

(** X4: two [updateBus] calls on the same id compose into one.
    Patching a bus with [p] and then with [q] returns the same record
    and leaves the same store as one call with the patch
    [{ ...p, ...q }]; on a missing id both return [undefined] and leave
    the store alone. *)
Theorem updateBus_twice (id : Z) (p q : Bus.partial) st :
  MemStorage.updateBus id q (MemStorage.updateBus id p st).2
    = MemStorage.updateBus id (spread p q) st.
Proof.
  unfold MemStorage.updateBus.
  destruct (MemStorage.buses st !! id) as [bus|] eqn:E; simpl.
  - rewrite lookup_insert_eq, merge_spread. unfold MemStorage.with_buses.
    simpl. by rewrite insert_insert_eq.
  - by rewrite E.
Qed.

(** X5: [getUserByUsername], [getUserByEmail],
    [getUserByVerificationToken] and [getBusByNumber] return a stored
    row whose field equals the argument, the one of least key when
    several match, and [undefined] exactly when no stored row
    matches. *)
Theorem lookups_by_field st :
  (∀ username,
     first_with (λ user, User.username user = username)
       (MemStorage.users st) (MemStorage.getUserByUsername username st))
  ∧ (∀ email,
       first_with (λ user, User.email user = email)
         (MemStorage.users st) (MemStorage.getUserByEmail email st))
  ∧ (∀ token,
       first_with (λ user, User.verificationToken user = Some token)
         (MemStorage.users st)
         (MemStorage.getUserByVerificationToken token st))
  ∧ (∀ busNumber,
       first_with (λ bus, Bus.busNumber bus = busNumber)
         (MemStorage.buses st) (MemStorage.getBusByNumber busNumber st)).
Proof.
  repeat split; intros x.
  - apply (find_values (λ user, User.username user = x)).
  - apply (find_values (λ user, User.email user = x)).
  - apply (find_values (λ user, User.verificationToken user = Some x)).
  - apply (find_values (λ bus, Bus.busNumber bus = x)).
Qed.

(** X6: [getBusStopsByRoute] lists exactly the stored stops of the
    route, [getPaymentsByUser] exactly the stored payments of the user,
    and [getPendingPaymentsByUser] exactly those of them that are not
    paid. *)
Theorem lists_by_field st :
  (∀ route x,
     x ∈ MemStorage.getBusStopsByRoute route st
     ↔ BusStop.routeId x = route ∧ ∃ i, MemStorage.busStops st !! i = Some x)
  ∧ (∀ user x,
       x ∈ MemStorage.getPaymentsByUser user st
       ↔ Payment.userId x = user ∧ ∃ i, MemStorage.payments st !! i = Some x)
  ∧ (∀ user x,
       x ∈ MemStorage.getPendingPaymentsByUser user st
       ↔ Payment.isPaid x = false ∧ x ∈ MemStorage.getPaymentsByUser user st).
Proof.
  unfold MemStorage.getBusStopsByRoute, MemStorage.getPaymentsByUser,
    MemStorage.getPendingPaymentsByUser.
  split; [| split]; intros a x; rewrite !elem_of_filter_values.
  - rewrite bool_decide_eq_true. tauto.
  - rewrite bool_decide_eq_true. tauto.
  - rewrite andb_true_iff, negb_true_iff, !bool_decide_eq_true. tauto.
Qed.

(** X7: on a store reached from the constructor, the payment that
    [createPayment] returns is appended to the pending payments of its
    user, and the pending payments of every other user stay as they
    were. *)
Theorem new_payment_is_pending (ops : list op) (x : Payment.insert)
    (now : Z) (user : Z) :
  let st := run ops MemStorage.constructor in
  let created := MemStorage.createPayment x now st in
  MemStorage.getPendingPaymentsByUser user created.2
    = MemStorage.getPendingPaymentsByUser user st
        ++ (if decide (Payment.i_userId x = user) then [created.1] else []).
Proof.
  intros st created. unfold MemStorage.getPendingPaymentsByUser.
  subst created. unfold MemStorage.createPayment. simpl.
  rewrite values_insert_fresh
    by (intros j Hj; by apply (reachable_keys_below ops KPayment)).
  rewrite List.filter_app. f_equal. simpl.
  destruct (decide (Payment.i_userId x = user)) as [He|Hne].
  - by rewrite bool_decide_eq_true_2.
  - by rewrite bool_decide_eq_false_2.
Qed.

(** X8: [markPaymentAsPaid] on a stored payment returns the payment
    marked paid, with the date and the method; [getPayment] then
    returns that record and it is still among the payments of its user;
    the pending payments of every user are those of the store without
    this payment. *)
Theorem paid_payment_is_settled (id : Z) (paymentMethod : string) (now : Z)
    st (x : Payment.t) :
  MemStorage.payments st !! id = Some x →
  let result := MemStorage.markPaymentAsPaid id paymentMethod now st in
  result.1 = Some (paid paymentMethod now x)
  ∧ MemStorage.getPayment id result.2 = Some (paid paymentMethod now x)
  ∧ paid paymentMethod now x
      ∈ MemStorage.getPaymentsByUser (Payment.userId x) result.2
  ∧ ∀ user,
      MemStorage.getPendingPaymentsByUser user result.2
        = MemStorage.getPendingPaymentsByUser user (without_payment id st).
Proof.
  intros Hx result. subst result. unfold MemStorage.markPaymentAsPaid.
  rewrite Hx. fold (paid paymentMethod now x). simpl.
  split; [done |].
  split; [apply lookup_insert_eq |].
  split.
  - unfold MemStorage.getPaymentsByUser. apply elem_of_filter_values.
    split; [by apply bool_decide_eq_true |]. exists id. simpl.
    apply lookup_insert_eq.
  - intros user. unfold MemStorage.getPendingPaymentsByUser. simpl.
    rewrite values_insert_present by eauto. rewrite values_delete.
    rewrite !filter_omap. apply omap_ext_in. intros j _.
    destruct (decide (j ≠ id)); [done |]. simpl. by rewrite andb_false_r.
Qed.

Lemma paid_payment_is_settled_witness :
  ∃ x, MemStorage.payments store_with_bus_pass !! 1 = Some x
       ∧ MemStorage.getPendingPaymentsByUser 1
           (MemStorage.markPaymentAsPaid 1 "card" 5 store_with_bus_pass).2
         = MemStorage.getPendingPaymentsByUser 1
             (without_payment 1 store_with_bus_pass).
Proof.
  assert (is_Some (MemStorage.payments store_with_bus_pass !! 1)) as [x Hx]
    by (vm_compute; eauto).
  exists x. split; [exact Hx |].
  apply (paid_payment_is_settled 1 "card" 5 store_with_bus_pass x Hx).
Defined.

Lemma step_ids_match_keys o st :
  keeps_id o = true → ids_match_keys st → ids_match_keys (step o st).
Proof.
  intros Ho Hinv k j r.
  pose proof (Hinv KUser) as HU. pose proof (Hinv KBus) as HB.
  pose proof (Hinv KBusStop) as HS. pose proof (Hinv KRoute) as HR.
  pose proof (Hinv KDriver) as HD. pose proof (Hinv KPayment) as HP.
  simpl in HU, HB, HS, HR, HD, HP.
  assert (∀ (id i : Z) (p : option Z),
            same_id id p = true → i = id → default i p = id) as Hsame.
  { intros id i [q|]; simpl; [| done]. intros ?%Z.eqb_eq; congruence. }
  destruct o; simpl in Ho |- *; unfold_store; repeat case_match;
    destruct k; simpl in r |- *; intros Hr;
    try (apply lookup_insert_Some in Hr as [[<- <-] | [_ Hr]]);
    simpl; try done;
    try (apply Hsame; [done |]);
    first [ by apply HU | by apply HB | by apply HS | by apply HR
          | by apply HD | by apply HP ].
Qed.

Lemma run_ids_match_keys ops : ∀ st,
  forallb keeps_id ops = true → ids_match_keys st →
  ids_match_keys (run ops st).
Proof.
  induction ops as [|o ops IH]; intros st Hops Hinv; [exact Hinv |].
  simpl in Hops. apply andb_prop in Hops as [Ho Hops].
  simpl. apply IH; [done |]. by apply step_ids_match_keys.
Qed.

Lemma constructor_ids_match_keys : ids_match_keys MemStorage.constructor.
Proof.
  rewrite constructor_run. apply run_ids_match_keys; [reflexivity |].
  intros [] j r Hr; simpl in Hr; by rewrite lookup_empty in Hr.
Qed.

(** X9: the [id] field of every stored row is the key the row is
    stored under, on every store reached from the constructor by calls
    whose patches do not rewrite the [id] field. *)
Theorem ids_stay_keys (ops : list op) :
  forallb keeps_id ops = true →
  ids_match_keys (run ops MemStorage.constructor).
Proof.
  intros Hops. apply run_ids_match_keys; [done |].
  apply constructor_ids_match_keys.
Qed.

Lemma ids_stay_keys_witness :
  let ops := [UpdateBus 1 take_out_of_service;
              UpdateBusLocation 2 (position report_old) (Some 30%float)] in
  forallb keeps_id ops = true
  ∧ ids_match_keys (run ops MemStorage.constructor).
Proof.
  intros ops. split; [reflexivity |]. apply ids_stay_keys. reflexivity.
Defined.

End MoreStoreFacts.


(* ===================================================================== *)
(** * Properties of the endpoints *)
(* ===================================================================== *)

Ltac unfold_handlers :=
  unfold Routes.answered, Routes.get_buses, Routes.get_bus, Routes.post_bus,
    Routes.put_bus, Routes.put_bus_location, Routes.get_routes,
    Routes.get_route, Routes.post_route, Routes.put_route,
    Routes.get_bus_stops, Routes.get_bus_stop, Routes.get_route_stops,
    Routes.post_bus_stop, Routes.get_drivers, Routes.get_driver,
    Routes.post_driver, Routes.put_driver in *.

Section EndpointFacts.
Implicit Types (st : MemStorage.t) (req : Routes.request) (c : Routes.call).

Lemma serve_non_admin c req st :
  Routes.is_admin req = false →
  (Routes.serve c req st).2 = st
  ∧ (Routes.writes c = true → (Routes.serve c req st).1 = 403).
Proof.
  intros Hadm. destruct c; simpl; unfold_handlers; rewrite ?Hadm; simpl;
    repeat case_match; done.
Qed.

(** X10: requests without an admin session change nothing.  After
    any sequence of requests to the bus, route, bus stop and driver
    endpoints, none of them from an authenticated admin, the store is
    the store before; and each of them that goes to a POST or PUT
    endpoint is answered 403. *)
Theorem non_admins_change_nothing (calls : list (Routes.call * Routes.request))
    st :
  Forall (λ cr, Routes.is_admin cr.2 = false) calls →
  Routes.serve_all calls st = st
  ∧ Forall (λ cr, Routes.writes cr.1 = true →
                  (Routes.serve cr.1 cr.2 st).1 = 403) calls.
Proof.
  unfold Routes.serve_all.
  induction 1 as [|[c req] calls Hadm _ [IH1 IH2]]; [by split |].
  destruct (serve_non_admin c req st Hadm) as [Hst H403].
  simpl. rewrite Hst. split; [exact IH1 |]. by constructor.
Qed.

Lemma non_admins_change_nothing_witness :
  let calls :=
    [(Routes.PUT_bus take_out_of_service, anonymous "1");
     (Routes.PUT_bus_location, anonymous "1");
     (Routes.GET_bus, anonymous "1")] in
  Forall (λ cr, Routes.is_admin cr.2 = false) calls
  ∧ Routes.serve_all calls MemStorage.constructor = MemStorage.constructor.
Proof.
  intros calls.
  assert (Forall (λ cr, Routes.is_admin cr.2 = false) calls) as H
    by (repeat constructor).
  split; [exact H |].
  apply (non_admins_change_nothing calls MemStorage.constructor H).
Defined.

(** X11: a request changes the store only when it is answered 200 or
    201 by a POST or PUT endpoint: the GET endpoints, and every request
    answered with another status (400, 403, 404), leave the store as it
    was. *)
Theorem refusals_change_nothing c req st :
  Routes.writes c = false
  ∨ ((Routes.serve c req st).1 ≠ 200 ∧ (Routes.serve c req st).1 ≠ 201) →
  (Routes.serve c req st).2 = st.
Proof.
  destruct c; simpl; unfold_handlers; unfold_store;
    repeat case_match; simplify_eq; simpl; try done;
    intros [? | [? ?]]; done.
Qed.

Lemma refusals_change_nothing_witness :
  (Routes.serve (Routes.PUT_bus take_out_of_service) (admin_put 0 0 0)
     store_with_ana).1 = 200
  ∧ (Routes.serve (Routes.PUT_bus take_out_of_service)
       {| Routes.user := Some admin_user; Routes.params_id := "77";
          Routes.body := JS.JNull |} store_with_ana).1 = 404
  ∧ (Routes.serve (Routes.PUT_bus take_out_of_service)
       {| Routes.user := Some admin_user; Routes.params_id := "77";
          Routes.body := JS.JNull |} store_with_ana).2 = store_with_ana.
Proof.
  split; [vm_compute; reflexivity |].
  assert ((Routes.serve (Routes.PUT_bus take_out_of_service)
             {| Routes.user := Some admin_user; Routes.params_id := "77";
                Routes.body := JS.JNull |} store_with_ana).1 = 404) as H
    by (vm_compute; reflexivity).
  split; [exact H |].
  apply refusals_change_nothing. right. rewrite H. split; discriminate.
Defined.

(** X12: what a PUT returns is what a GET of the same path returns
    next.  When [PUT /api/buses/:id], [PUT /api/buses/:id/location],
    [PUT /api/routes/:id] or [PUT /api/drivers/:id] sends a record, the
    GET endpoint of the same kind, asked with the same [:id] on the
    store the PUT left, answers 200 with that record; when the PUT is
    refused the store is unchanged. *)
Theorem put_then_get req st :
  (∀ body,
     match Routes.put_bus req body st with
     | (Routes.Sent _ bus, st') =>
         Routes.get_bus req st' = (Routes.Sent 200 bus, st')
     | (Routes.Refused _ _, st') => st' = st
     end)
  ∧ match Routes.put_bus_location req st with
    | (Routes.Json _ bus, st') =>
        Routes.get_bus req st' = (Routes.Sent 200 bus, st')
    | (Routes.Message _ _, st') => st' = st
    end
  ∧ (∀ body,
       match Routes.put_route req body st with
       | (Routes.Sent _ route, st') =>
           Routes.get_route req st' = (Routes.Sent 200 route, st')
       | (Routes.Refused _ _, st') => st' = st
       end)
  ∧ (∀ body,
       match Routes.put_driver req body st with
       | (Routes.Sent _ driver, st') =>
           Routes.get_driver req st' = (Routes.Sent 200 driver, st')
       | (Routes.Refused _ _, st') => st' = st
       end).
Proof.
  repeat split; intros; unfold_handlers; unfold_store;
    unfold MemStorage.getBus, MemStorage.getRoute, MemStorage.getDriver;
    repeat case_match; simplify_eq; simpl in *; try done;
    repeat match goal with
           | H : <[_ := _]> _ !! _ = _ |- _ => rewrite lookup_insert_eq in H
           end;
    by simplify_eq.
Qed.

(** X13: on a store reached from the constructor, the record that
    [POST /api/buses], [POST /api/routes], [POST /api/bus-stops] or
    [POST /api/drivers] sends is the last entry of the list the matching
    GET endpoint sends next, after the entries listed before, unchanged
    and in the same order; when the POST is refused the store is
    unchanged. *)
Theorem post_then_list (ops : list op) req req' :
  let st := run ops MemStorage.constructor in
  (∀ body,
     match Routes.post_bus req body st with
     | (Routes.Sent _ bus, st') =>
         Routes.get_buses req' st'
           = (Routes.Sent 200 (MemStorage.getBuses st ++ [bus]), st')
     | (Routes.Refused _ _, st') => st' = st
     end)
  ∧ (∀ body,
       match Routes.post_route req body st with
       | (Routes.Sent _ route, st') =>
           Routes.get_routes req' st'
             = (Routes.Sent 200 (MemStorage.getRoutes st ++ [route]), st')
       | (Routes.Refused _ _, st') => st' = st
       end)
  ∧ (∀ body,
       match Routes.post_bus_stop req body st with
       | (Routes.Sent _ busStop, st') =>
           Routes.get_bus_stops req' st'
             = (Routes.Sent 200 (MemStorage.getBusStops st ++ [busStop]), st')
       | (Routes.Refused _ _, st') => st' = st
       end)
  ∧ (∀ body,
       match Routes.post_driver req body st with
       | (Routes.Sent _ driver, st') =>
           Routes.get_drivers req' st'
             = (Routes.Sent 200 (MemStorage.getDrivers st ++ [driver]), st')
       | (Routes.Refused _ _, st') => st' = st
       end).
Proof.
  intros st.
  pose proof (reachable_keys_below ops KBus) as HB.
  pose proof (reachable_keys_below ops KRoute) as HR.
  pose proof (reachable_keys_below ops KBusStop) as HS.
  pose proof (reachable_keys_below ops KDriver) as HD.
  fold st in HB, HR, HS, HD. simpl in HB, HR, HS, HD. clearbody st.
  repeat split; intros; unfold_handlers; unfold_store;
    unfold MemStorage.getBuses, MemStorage.getRoutes, MemStorage.getBusStops,
      MemStorage.getDrivers;
    destruct (Routes.is_admin req); simpl; try done;
    by rewrite values_insert_fresh.
Qed.

End EndpointFacts.

(* ===================================================================== *)
(** * Properties of registration and email verification *)
(* ===================================================================== *)

Section AuthFacts.
Implicit Types (st : MemStorage.t) (u user : User.t) (token : string).

Lemma getUserByUsername_first name st :
  first_with (λ user, User.username user = name) (MemStorage.users st)
    (MemStorage.getUserByUsername name st).
Proof. apply (find_values (λ user, User.username user = name)). Qed.

Lemma getUserByEmail_first email st :
  first_with (λ user, User.email user = email) (MemStorage.users st)
    (MemStorage.getUserByEmail email st).
Proof. apply (find_values (λ user, User.email user = email)). Qed.

Lemma getUserByVerificationToken_first token st :
  first_with (λ user, User.verificationToken user = Some token)
    (MemStorage.users st) (MemStorage.getUserByVerificationToken token st).
Proof.
  apply (find_values (λ user, User.verificationToken user = Some token)).
Qed.

Lemma unique_by_insert {B} (f : User.t → B) (m : gmap Z User.t) (k : Z) u :
  unique_by f m → (∀ j y, m !! j = Some y → f y ≠ f u) →
  unique_by f (<[k := u]> m).
Proof.
  intros Hm Hu i j x y Hx Hy Hf.
  apply lookup_insert_Some in Hx as [[<- <-] | [Hi Hx]];
    apply lookup_insert_Some in Hy as [[<- <-] | [Hj Hy]]; try done.
  - by destruct (Hu j y Hy).
  - by destruct (Hu i x Hx).
  - by eapply Hm.
Qed.

Lemma store_with_ana_users :
  MemStorage.users store_with_ana = {[1 := ana_user]}.
Proof. vm_compute. reflexivity. Qed.

Lemma store_with_ana_unique {B} (f : User.t → B) :
  unique_by f (MemStorage.users store_with_ana).
Proof.
  rewrite store_with_ana_users. intros i j x y Hx Hy _.
  apply lookup_singleton_Some in Hx as [<- _].
  by apply lookup_singleton_Some in Hy as [<- _].
Qed.

(** X14: a registration keeps usernames and emails unique when no
    request has changed the users between its checks and its
    [createUser].  If the users that [createUser] finds are the users
    that the checks read, and no two of them share a username and no two
    share an email, the same holds of the store that
    [POST /api/register] leaves, whatever the request and its
    outcome. *)
Theorem register_keeps_names_unique (validatedData : option User.insert)
    (hashed token : string) (now : Z) (emailSent loggedIn : bool)
    (before st : MemStorage.t) :
  MemStorage.users st = MemStorage.users before →
  unique_by User.username (MemStorage.users st) →
  unique_by User.email (MemStorage.users st) →
  let st' :=
    (Auth.register validatedData hashed token now emailSent loggedIn
       before st).2 in
  unique_by User.username (MemStorage.users st')
  ∧ unique_by User.email (MemStorage.users st').
Proof.
  intros Hsame Hn He. unfold Auth.register, Auth.register_checks.
  destruct validatedData as [data|]; [| by split].
  pose proof (getUserByUsername_first (User.i_username data) before) as Hfn.
  pose proof (getUserByEmail_first (User.i_email data) before) as Hfe.
  destruct (MemStorage.getUserByUsername _ before); [by split |].
  destruct (MemStorage.getUserByEmail _ before); [by split |].
  simpl in Hfn, Hfe. rewrite <- Hsame in Hfn, Hfe.
  unfold Auth.register_create, MemStorage.createUser.
  destruct loggedIn; simpl.
  all: split; (apply unique_by_insert; [done |]); simpl; intros j y Hy.
  all: first [ by apply (Hfn j) | by apply (Hfe j) ].
Qed.

Lemma register_keeps_names_unique_witness :
  let form :=
    User.mkInsert "ben" "ben@example.edu" "password2" "Ben Ode"
      (Some "student") None None None None None in
  let st' :=
    (Auth.register (Some form) "hash2.salt" "t1" 9 true true
       store_with_ana store_with_ana).2 in
  MemStorage.users store_with_ana = MemStorage.users store_with_ana
  ∧ unique_by User.username (MemStorage.users store_with_ana)
  ∧ unique_by User.email (MemStorage.users store_with_ana)
  ∧ unique_by User.username (MemStorage.users st')
  ∧ unique_by User.email (MemStorage.users st').
Proof.
  intros form st'. split; [reflexivity |].
  split; [apply store_with_ana_unique |].
  split; [apply store_with_ana_unique |].
  apply (register_keeps_names_unique (Some form) "hash2.salt" "t1" 9 true true
           store_with_ana store_with_ana);
    [reflexivity | apply store_with_ana_unique..].
Defined.

(** X15: a registration whose username or whose email a user has
    that is stored when its checks run is refused with status 400, and
    it writes nothing to the store, then or later. *)
Theorem register_refuses_taken (data : User.insert) (hashed token : string)
    (now : Z) (emailSent loggedIn : bool) (before st : MemStorage.t)
    (k : Z) u :
  MemStorage.users before !! k = Some u →
  User.username u = User.i_username data ∨ User.email u = User.i_email data →
  ∃ error,
    Auth.register (Some data) hashed token now emailSent loggedIn before st
      = (Auth.Error 400 error, st).
Proof.
  intros Hu Hsame. unfold Auth.register, Auth.register_checks.
  pose proof (getUserByUsername_first (User.i_username data) before) as Hfn.
  pose proof (getUserByEmail_first (User.i_email data) before) as Hfe.
  destruct (MemStorage.getUserByUsername _ before); [eauto |].
  destruct (MemStorage.getUserByEmail _ before); [eauto |].
  simpl in Hfn, Hfe. destruct Hsame as [H|H].
  - by destruct (Hfn k u Hu).
  - by destruct (Hfe k u Hu).
Qed.

Lemma register_refuses_taken_witness :
  let form :=
    User.mkInsert "ana2" "ana@example.edu" "password2" "Ana Lee"
      (Some "student") None None None None None in
  MemStorage.users store_with_ana !! 1 = Some ana_user
  ∧ User.email ana_user = User.i_email form
  ∧ ∃ error,
      Auth.register (Some form) "hash2.salt" "t1" 9 true true store_with_ana
        store_with_ana
        = (Auth.Error 400 error, store_with_ana).
Proof.
  intros form.
  assert (MemStorage.users store_with_ana !! 1 = Some ana_user) as Hu
    by (vm_compute; reflexivity).
  split; [exact Hu |]. split; [reflexivity |].
  apply (register_refuses_taken form "hash2.salt" "t1" 9 true true
           store_with_ana store_with_ana 1 ana_user Hu).
  right. reflexivity.
Defined.

Lemma verifyEmail_found (id : Z) st u :
  MemStorage.users st !! id = Some u →
  MemStorage.verifyEmail id st
    = (Some (verified u),
       MemStorage.with_users (<[id := verified u]> (MemStorage.users st))
         (MemStorage.userId st) st).
Proof. intros Hu. unfold MemStorage.verifyEmail. by rewrite Hu. Qed.

Lemma setVerificationToken_found (id : Z) token st u :
  MemStorage.users st !! id = Some u →
  MemStorage.setVerificationToken id token st
    = (Some (with_token token u),
       MemStorage.with_users (<[id := with_token token u]> (MemStorage.users st))
         (MemStorage.userId st) st).
Proof. intros Hu. unfold MemStorage.setVerificationToken. by rewrite Hu. Qed.

Lemma holder_stored token st user :
  user_ids_match_keys st →
  MemStorage.getUserByVerificationToken token st = Some user →
  MemStorage.users st !! User.id user = Some user
  ∧ User.verificationToken user = Some token.
Proof.
  intros Hids Hfind.
  pose proof (getUserByVerificationToken_first token st) as Hf.
  rewrite Hfind in Hf. destruct Hf as (Htok & k & Hk & _).
  split; [| done]. by rewrite (Hids k user Hk).
Qed.

Lemma ids_match_keys_users st : ids_match_keys st → user_ids_match_keys st.
Proof. intros Hids j u Hu. exact (Hids KUser j u Hu). Qed.

Lemma store_with_ana_ids : user_ids_match_keys store_with_ana.
Proof.
  apply ids_match_keys_users, run_ids_match_keys;
    [reflexivity | apply constructor_ids_match_keys].
Qed.

(** X16: on a store in which the [id] field of every user is the key
    of its row, [GET /api/verify-email/:token] answers 404 and changes
    nothing when
    [getUserByVerificationToken] finds no user; otherwise the user it
    finds is stored under its [id], the store after the request differs
    in that row only, which is the user marked verified with the token
    cleared, and the answer is the success message when the client is
    or gets logged in.  "Failed to verify email" is never answered. *)
Theorem verify_email_marks_holder token (authenticated loggedIn : bool) st :
  user_ids_match_keys st →
  let result := Auth.verify_email token authenticated loggedIn st in
  match MemStorage.getUserByVerificationToken token st with
  | None =>
      result = (Auth.Error 404 "Invalid or expired verification token", st)
  | Some user =>
      MemStorage.users st !! User.id user = Some user
      ∧ result.1 =
          (if authenticated || loggedIn
           then Auth.Success "Email verified successfully"
           else Auth.Error 500 "Failed to login after verification")
      ∧ result.2 =
          MemStorage.with_users
            (<[User.id user := verified user]> (MemStorage.users st))
            (MemStorage.userId st) st
  end.
Proof.
  intros Hids result. subst result. unfold Auth.verify_email.
  destruct (MemStorage.getUserByVerificationToken token st) as [user|] eqn:Hf;
    [| done].
  destruct (holder_stored token st user Hids Hf) as [Hu _].
  split; [done |]. rewrite (verifyEmail_found _ _ _ Hu).
  by destruct (authenticated || loggedIn).
Qed.

Lemma verify_email_marks_holder_witness :
  user_ids_match_keys store_with_ana
  ∧ (User.isEmailVerified <$>
       MemStorage.users (Auth.verify_email "t0" false true store_with_ana).2
         !! 1)
      = Some (Some true).
Proof.
  split; [exact store_with_ana_ids |].
  pose proof (verify_email_marks_holder "t0" false true store_with_ana
                store_with_ana_ids) as H.
  cbv zeta in H.
  destruct (MemStorage.getUserByVerificationToken "t0" store_with_ana)
    as [user|] eqn:Hf; [| vm_compute in Hf; discriminate].
  destruct H as (_ & _ & ->).
  vm_compute in Hf. injection Hf as <-. vm_compute. reflexivity.
Defined.

(** X17: a verification token works once.  On a store in which the
    [id] field of every user is the key of its row and at most one user
    holds the token, a second [GET /api/verify-email/:token] with the same token
    is answered 404 and changes nothing, whatever the first one did. *)
Theorem verification_token_works_once token
    (authenticated loggedIn authenticated' loggedIn' : bool) st :
  user_ids_match_keys st →
  (∀ i j x y,
     MemStorage.users st !! i = Some x → MemStorage.users st !! j = Some y →
     User.verificationToken x = Some token →
     User.verificationToken y = Some token → i = j) →
  let st' := (Auth.verify_email token authenticated loggedIn st).2 in
  Auth.verify_email token authenticated' loggedIn' st'
    = (Auth.Error 404 "Invalid or expired verification token", st').
Proof.
  intros Hids Huniq st'.
  assert (MemStorage.getUserByVerificationToken token st' = None) as Hnone.
  { pose proof (getUserByVerificationToken_first token st') as Hf'.
    destruct (MemStorage.getUserByVerificationToken token st') as [y|];
      [exfalso | done].
    destruct Hf' as (Hy & k' & Hk' & _). subst st'.
    unfold Auth.verify_email in Hk'.
    pose proof (getUserByVerificationToken_first token st) as Hf.
    destruct (MemStorage.getUserByVerificationToken token st) as [user|] eqn:E.
    - destruct (holder_stored token st user Hids E) as [Hu Htok].
      rewrite (verifyEmail_found _ _ _ Hu) in Hk'.
      assert (MemStorage.users
                (MemStorage.with_users
                   (<[User.id user := verified user]> (MemStorage.users st))
                   (MemStorage.userId st) st) !! k' = Some y) as Hk''
        by (by destruct (authenticated || loggedIn)).
      simpl in Hk''.
      apply lookup_insert_Some in Hk'' as [[_ <-] | [Hne Hk'']]; [done |].
      by specialize (Huniq _ _ _ _ Hu Hk'' Htok Hy).
    - simpl in Hk'. by destruct (Hf k' y Hk'). }
  unfold Auth.verify_email at 1. by rewrite Hnone.
Qed.

Lemma verification_token_works_once_witness :
  let st' := (Auth.verify_email "t0" false true store_with_ana).2 in
  user_ids_match_keys store_with_ana
  ∧ (Auth.verify_email "t0" false true store_with_ana).1
      = Auth.Success "Email verified successfully"
  ∧ Auth.verify_email "t0" false true st'
      = (Auth.Error 404 "Invalid or expired verification token", st').
Proof.
  intros st'. split; [exact store_with_ana_ids |].
  split; [vm_compute; reflexivity |].
  apply (verification_token_works_once "t0" false true false true
           store_with_ana store_with_ana_ids).
  intros i j x y Hx Hy _ _.
  exact (store_with_ana_unique (λ _, tt) i j x y Hx Hy eq_refl).
Defined.

(** X18: the token of a registration verifies the new account.  When
    no user that is stored when [createUser] runs holds the token that
    [createUser] draws, a registration that is answered 201 has stored
    the new user under its [id] with that token, and
    [GET /api/verify-email/:token] with the token leaves that user
    verified; a registration that is not answered 201 has left the store
    unchanged.  The store that the checks read may be an earlier
    one. *)
Theorem registered_token_verifies (data : User.insert)
    (hashed token : string) (now : Z) (emailSent : bool)
    (authenticated loggedIn : bool) (before st : MemStorage.t) :
  (∀ k u, MemStorage.users st !! k = Some u →
          User.verificationToken u ≠ Some token) →
  match Auth.register (Some data) hashed token now emailSent true before st
  with
  | (Auth.Registered user _, st') =>
      User.verificationToken user = Some token
      ∧ MemStorage.users st' !! User.id user = Some user
      ∧ MemStorage.users
          (Auth.verify_email token authenticated loggedIn st').2
          !! User.id user = Some (verified user)
  | (_, st') => st' = st
  end.
Proof.
  intros Hfresh. unfold Auth.register.
  destruct (Auth.register_checks (Some data) before) as [refusal|data'] eqn:Hc.
  { unfold Auth.register_checks in Hc. repeat case_match; by simplify_eq. }
  unfold Auth.register_create, MemStorage.createUser. simpl.
  set (user := User.mk _ _ _ _ _ _ _ _ _ _ _ _ _ _ _).
  set (st' := MemStorage.with_users _ _ _).
  assert (MemStorage.users st' !! MemStorage.userId st = Some user) as Hu
    by apply lookup_insert_eq.
  split; [done |]. split; [done |].
  assert (MemStorage.getUserByVerificationToken token st' = Some user) as Hf.
  { pose proof (getUserByVerificationToken_first token st') as Hf.
    destruct (MemStorage.getUserByVerificationToken token st') as [y|].
    - destruct Hf as (Hy & k & Hk & _). subst st'. simpl in Hk.
      apply lookup_insert_Some in Hk as [[_ <-] | [_ Hk]]; [done |].
      by destruct (Hfresh k y Hk).
    - by destruct (Hf _ _ Hu). }
  unfold Auth.verify_email. rewrite Hf. simpl User.id.
  rewrite (verifyEmail_found _ _ _ Hu).
  destruct (authenticated || loggedIn); simpl; apply lookup_insert_eq.
Qed.

Lemma registered_token_verifies_witness :
  (∀ k u, MemStorage.users MemStorage.constructor !! k = Some u →
          User.verificationToken u ≠ Some "t0")
  ∧ Auth.register (Some ana) "hash.salt" "t0" 0 true true
      MemStorage.constructor MemStorage.constructor
    = (Auth.Registered ana_user true, store_with_ana)
  ∧ MemStorage.users (Auth.verify_email "t0" false true store_with_ana).2
      !! User.id ana_user = Some (verified ana_user).
Proof.
  assert (∀ k u, MemStorage.users MemStorage.constructor !! k = Some u →
                 User.verificationToken u ≠ Some "t0") as Hfresh
    by (intros k u Hu; vm_compute in Hu; discriminate).
  assert (Auth.register (Some ana) "hash.salt" "t0" 0 true true
            MemStorage.constructor MemStorage.constructor
          = (Auth.Registered ana_user true, store_with_ana)) as E
    by (vm_compute; reflexivity).
  split; [exact Hfresh |]. split; [exact E |].
  pose proof (registered_token_verifies ana "hash.salt" "t0" 0 true false true
                MemStorage.constructor MemStorage.constructor Hfresh) as H.
  rewrite E in H. apply H.
Defined.

(** X19: on a store in which the [id] field of every user is the key
    of its row, and with a non-empty new token, [POST /api/resend-verification]
    from a session either sends no mail, changes nothing and answers
    404 (no such user) or 400 (already verified); or it mails the record
    that is then stored under the session user's id, and that record
    holds a token.  It changes no other user, and no user at all when
    the stored user held a token already. *)
Theorem resend_mails_stored_token (session : User.t) token
    (emailSent : bool) st :
  user_ids_match_keys st → token ≠ EmptyString →
  match Auth.resend_verification (Some session) token emailSent st with
  | (_, Some mailed, st') =>
      MemStorage.users st' !! User.id session = Some mailed
      ∧ Auth.no_token mailed = false
      ∧ (∀ j, j ≠ User.id session →
              MemStorage.users st' !! j = MemStorage.users st !! j)
      ∧ (∀ stored,
           MemStorage.users st !! User.id session = Some stored →
           Auth.no_token stored = false → st' = st)
  | (reply, None, st') =>
      st' = st
      ∧ (Auth.status_code reply = Some 404
         ∨ Auth.status_code reply = Some 400)
  end.
Proof.
  intros Hids Htoken. unfold Auth.resend_verification, MemStorage.getUser.
  destruct (MemStorage.users st !! User.id session) as [stored|] eqn:Hs;
    [| by split; [| left]].
  destruct (bool_decide _); [by split; [| right] |].
  pose proof (Hids _ _ Hs) as Hid.
  destruct (Auth.no_token stored) eqn:Hno.
  - rewrite Hid, (setVerificationToken_found _ _ _ _ Hs).
    assert (Auth.no_token (with_token token stored) = false) as Hno'
      by (unfold Auth.no_token; simpl; by destruct token).
    destruct emailSent; simpl;
      (split; [apply lookup_insert_eq |]; split; [done |];
       split; [intros j Hj; by apply lookup_insert_ne |];
       intros stored' [= <-]; congruence).
  - destruct emailSent; simpl; (repeat split; try done; congruence).
Qed.

Lemma resend_mails_stored_token_witness :
  let st :=
    run [CreateUser ana "t0" 0; SetVerificationToken 1 EmptyString]
      MemStorage.constructor in
  ∃ session,
    MemStorage.users st !! 1 = Some session
    ∧ User.id session = 1
    ∧ user_ids_match_keys st ∧ "t1" ≠ EmptyString
    ∧ ∃ mailed,
        (Auth.resend_verification (Some session) "t1" true st).1.2
          = Some mailed
        ∧ Auth.no_token mailed = false.
Proof.
  intros st.
  assert (is_Some (MemStorage.users st !! 1)) as [session Hs]
    by (vm_compute; eauto).
  exists session. split; [exact Hs |].
  assert (user_ids_match_keys st) as Hids
    by (apply ids_match_keys_users, run_ids_match_keys;
        [reflexivity | apply constructor_ids_match_keys]).
  split; [exact (Hids 1 session Hs) |].
  split; [exact Hids |]. split; [done |].
  pose proof (resend_mails_stored_token session "t1" true st Hids
                ltac:(done)) as H.
  destruct (Auth.resend_verification (Some session) "t1" true st)
    as [[reply [mailed|]] st'] eqn:E.
  - exists mailed. split; [done |]. apply H.
  - exfalso. vm_compute in Hs. injection Hs as <-.
    vm_compute in E. discriminate.
Defined.

(** X20: when no two stored users share a username, the login check
    of the [LocalStrategy] lets a user in exactly when that user is
    stored, has the username given, and [comparePasswords] accepts the
    password given against the stored hash. *)
Theorem authenticate_finds_the_user (comparePasswords : string → string → bool)
    (username password : string) st u :
  unique_by User.username (MemStorage.users st) →
  Auth.authenticate comparePasswords username password st = Some u
  ↔ (∃ k, MemStorage.users st !! k = Some u)
    ∧ User.username u = username
    ∧ comparePasswords password (User.password u) = true.
Proof.
  intros Huniq. unfold Auth.authenticate.
  pose proof (getUserByUsername_first username st) as Hf.
  destruct (MemStorage.getUserByUsername username st) as [y|]; simpl in Hf.
  - destruct Hf as (Hy & k & Hk & _). split.
    + destruct (comparePasswords password (User.password y)) eqn:Hc; [| done].
      intros [= <-]. eauto.
    + intros ((k' & Hk') & Hu & Hc).
      assert (k' = k) as -> by (eapply Huniq; [done.. | congruence]).
      rewrite Hk in Hk'. injection Hk' as ->. by rewrite Hc.
  - split; [done |]. intros ((k & Hk) & Hu & _). by destruct (Hf k u Hk).
Qed.

Lemma authenticate_finds_the_user_witness :
  unique_by User.username (MemStorage.users store_with_ana)
  ∧ Auth.authenticate (λ supplied stored, String.eqb stored "hash.salt")
      "ana" "password1" store_with_ana = Some ana_user.
Proof.
  split; [apply store_with_ana_unique |].
  apply (authenticate_finds_the_user
           (λ supplied stored, String.eqb stored "hash.salt")
           "ana" "password1" store_with_ana ana_user);
    [apply store_with_ana_unique |].
  split; [exists 1; vm_compute; reflexivity |]. split; reflexivity.
Defined.

End AuthFacts.


(* ===================================================================== *)
(** * Properties of the server as a whole *)
(* ===================================================================== *)

Section AppFacts.
Implicit Types (st : MemStorage.t) (r : App.request) (s : App.state).

Lemma users_from_refl st : users_from st st.
Proof. intros k u Hu. by exists u. Qed.

(** Replacing a stored user by a record with the same id, username and
    email. *)
Lemma users_from_update st (k : Z) (u u' : User.t) :
  MemStorage.users st !! k = Some u →
  User.id u' = User.id u → User.username u' = User.username u →
  User.email u' = User.email u →
  users_from st
    (MemStorage.with_users (<[k := u']> (MemStorage.users st))
       (MemStorage.userId st) st).
Proof.
  intros Hu Hid Hname Hemail j x Hx. simpl in Hx.
  apply lookup_insert_Some in Hx as [[<- <-] | [_ Hx]]; [by exists u |].
  by exists x.
Qed.

Lemma verify_email_users_from token (authenticated loggedIn : bool) st :
  users_from st (Auth.verify_email token authenticated loggedIn st).2.
Proof.
  unfold Auth.verify_email.
  destruct (MemStorage.getUserByVerificationToken token st) as [user|];
    [| apply users_from_refl].
  destruct (MemStorage.users st !! User.id user) as [u|] eqn:Hu.
  - rewrite (verifyEmail_found _ _ _ Hu).
    assert (users_from st
              (MemStorage.with_users
                 (<[User.id user := verified u]> (MemStorage.users st))
                 (MemStorage.userId st) st)) as H
      by (by eapply users_from_update).
    by destruct (authenticated || loggedIn).
  - unfold MemStorage.verifyEmail. rewrite Hu. apply users_from_refl.
Qed.

Lemma resend_verification_users_from (user : option User.t) token
    (emailSent : bool) st :
  users_from st (Auth.resend_verification user token emailSent st).2.
Proof.
  unfold Auth.resend_verification, MemStorage.getUser.
  destruct user as [session|]; [| apply users_from_refl].
  destruct (MemStorage.users st !! User.id session) as [stored|];
    [| apply users_from_refl].
  destruct (bool_decide _); [apply users_from_refl |].
  destruct (Auth.no_token stored);
    [| destruct emailSent; apply users_from_refl].
  destruct (MemStorage.users st !! User.id stored) as [u|] eqn:Hu.
  - rewrite (setVerificationToken_found _ _ _ _ Hu).
    assert (users_from st
              (MemStorage.with_users
                 (<[User.id stored := with_token token u]> (MemStorage.users st))
                 (MemStorage.userId st) st)) as H
      by (by eapply users_from_update).
    by destruct emailSent.
  - unfold MemStorage.setVerificationToken. rewrite Hu.
    destruct emailSent; apply users_from_refl.
Qed.

(** The bus, route, stop and driver endpoints leave the users alone. *)
Lemma serve_users (c : Routes.call) (req : Routes.request) st :
  MemStorage.users (Routes.serve c req st).2 = MemStorage.users st
  ∧ MemStorage.userId (Routes.serve c req st).2 = MemStorage.userId st.
Proof.
  destruct c; simpl; unfold_handlers; unfold_store;
    repeat case_match; simplify_eq; done.
Qed.

Lemma serve_users_from (c : Routes.call) (req : Routes.request) st :
  users_from st (Routes.serve c req st).2.
Proof.
  intros k u Hu. destruct (serve_users c req st) as [Heq _].
  rewrite Heq in Hu. by exists u.
Qed.

Lemma users_from_ids st st' :
  users_from st st' → user_ids_match_keys st → user_ids_match_keys st'.
Proof.
  intros Hfrom Hids k u' Hu'.
  destruct (Hfrom k u' Hu') as (u & Hu & -> & _). by apply Hids.
Qed.

Lemma users_from_unique {B} (f : User.t → B) st st' :
  (∀ u u', User.username u' = User.username u → User.email u' = User.email u →
           User.id u' = User.id u → f u' = f u) →
  users_from st st' →
  unique_by f (MemStorage.users st) → unique_by f (MemStorage.users st').
Proof.
  intros Hf Hfrom Hm i j x' y' Hx' Hy' Hxy.
  destruct (Hfrom i x' Hx') as (x & Hx & Hxi & Hxn & Hxe).
  destruct (Hfrom j y' Hy') as (y & Hy & Hyi & Hyn & Hye).
  apply (Hm i j x y Hx Hy).
  rewrite <- (Hf x x' Hxn Hxe Hxi), <- (Hf y y' Hyn Hye Hyi). exact Hxy.
Qed.

Lemma users_from_consistent st st' :
  users_from st st' → accounts_consistent st → accounts_consistent st'.
Proof.
  intros Hfrom (Hids & Hn & He). split; [by eapply users_from_ids |].
  split.
  - apply (users_from_unique User.username st st'); [by intros | done..].
  - apply (users_from_unique User.email st st'); [by intros | done..].
Qed.

(** A handler that writes the store only, and keeps the names. *)
Lemma with_store_consistent s st' :
  users_from (App.store s) st' →
  accounts_consistent (App.store s) → waiting_apart s →
  accounts_consistent (App.store (App.with_store st' s))
  ∧ waiting_apart (App.with_store st' s).
Proof.
  intros Hfrom Hc [Hw1 Hw2]. split; [by eapply users_from_consistent |].
  split; simpl.
  - intros d k u' Hd Hu'.
    destruct (Hfrom k u' Hu') as (u & Hu & _ & -> & ->). by eapply Hw1.
  - exact Hw2.
Qed.

Lemma register_create_ids (data : User.insert) (hashed token : string)
    (now : Z) (emailSent loggedIn : bool) st :
  user_ids_match_keys st →
  user_ids_match_keys
    (Auth.register_create data hashed token now emailSent loggedIn st).2.
Proof.
  intros Hids. unfold Auth.register_create, MemStorage.createUser.
  destruct loggedIn; simpl; intros j x Hx; simpl in Hx.
  all: apply lookup_insert_Some in Hx as [[<- <-] | [_ Hx]];
    [done | by apply Hids].
Qed.

(** The users after [createUser]: the new one under the next id. *)
Lemma register_create_users (data : User.insert) (hashed token : string)
    (now : Z) (emailSent loggedIn : bool) st :
  ∃ user,
    User.id user = MemStorage.userId st
    ∧ User.username user = User.i_username data
    ∧ User.email user = User.i_email data
    ∧ User.verificationToken user = Some token
    ∧ MemStorage.users
        (Auth.register_create data hashed token now emailSent loggedIn st).2
      = <[MemStorage.userId st := user]> (MemStorage.users st)
    ∧ MemStorage.userId
        (Auth.register_create data hashed token now emailSent loggedIn st).2
      = MemStorage.userId st + 1
    ∧ (Auth.register_create data hashed token now emailSent loggedIn st).1
      = if loggedIn then Auth.Registered user emailSent else Auth.Thrown.
Proof.
  unfold Auth.register_create, MemStorage.createUser.
  eexists. destruct loggedIn; simpl; repeat split; reflexivity.
Qed.

(** A registration that passes its checks on [st] is the validated
    data, and no user of [st] has its username or its email. *)
Lemma register_checks_passed (validatedData : option User.insert)
    (data : User.insert) st :
  Auth.register_checks validatedData st = inr data →
  validatedData = Some data
  ∧ ∀ k u, MemStorage.users st !! k = Some u →
      User.username u ≠ User.i_username data
      ∧ User.email u ≠ User.i_email data.
Proof.
  unfold Auth.register_checks. destruct validatedData as [data'|]; [| done].
  pose proof (getUserByUsername_first (User.i_username data') st) as Hfn.
  pose proof (getUserByEmail_first (User.i_email data') st) as Hfe.
  destruct (MemStorage.getUserByUsername _ st); [done |].
  destruct (MemStorage.getUserByEmail _ st); [done |].
  intros [= <-]. split; [done |]. intros k u Hu.
  split; [by apply (Hfn k) | by apply (Hfe k)].
Qed.

(** An entry of the list without its entry [i] is an entry of the list
    at another index, and different indices stay different. *)
Lemma lookup_delete_original {B} (l : list B) (i j : nat) (x : B) :
  delete i l !! j = Some x →
  l !! (if decide (j < i)%nat then j else S j) = Some x.
Proof.
  intros Hx. by rewrite <- list_lookup_delete.
Qed.

Lemma handle_ids r s :
  user_ids_match_keys (App.store s) →
  user_ids_match_keys (App.store (App.handle r s)).
Proof.
  intros Hids. destruct r; simpl.
  - by destruct (Auth.register_checks _ _).
  - destruct (App.hashing s !! i); [| done]. by apply register_create_ids.
  - eapply users_from_ids; [apply verify_email_users_from | done].
  - eapply users_from_ids; [apply resend_verification_users_from | done].
  - eapply users_from_ids; [apply serve_users_from | done].
Qed.

Lemma handle_consistent r s :
  registrations_apart [r] s →
  accounts_consistent (App.store s) → waiting_apart s →
  accounts_consistent (App.store (App.handle r s))
  ∧ waiting_apart (App.handle r s).
Proof.
  intros [Hr _] Hc Hw. destruct r; simpl.
  - destruct (Auth.register_checks validatedData (App.store s))
      as [refusal|data] eqn:Hchecks; [done |].
    specialize (Hr data eq_refl).
    apply register_checks_passed in Hchecks as [_ Hfree].
    destruct Hw as [Hw1 Hw2]. split; [done |]. split; simpl.
    + intros d k u [Hd | ->%list_elem_of_singleton]%elem_of_app Hu;
        [by eapply Hw1 | by apply (Hfree k)].
    + intros j1 j2 d d' Hd Hd' Hne.
      apply lookup_app_Some in Hd as [Hd | [Hlen1 Hd]];
        apply lookup_app_Some in Hd' as [Hd' | [Hlen2 Hd']].
      * by eapply Hw2.
      * apply list_lookup_singleton_Some in Hd' as [_ <-].
        apply (Hr d). by eapply list_elem_of_lookup_2.
      * apply list_lookup_singleton_Some in Hd as [_ <-].
        destruct (Hr d') as [Hn He]; [by eapply list_elem_of_lookup_2 |].
        split; congruence.
      * apply list_lookup_singleton_Some in Hd as [H1 _].
        apply list_lookup_singleton_Some in Hd' as [H2 _]. lia.
  - destruct (App.hashing s !! i) as [data|] eqn:Hi; [| done].
    destruct Hc as (Hids & Hn & He). destruct Hw as [Hw1 Hw2].
    assert (data ∈ App.hashing s) as Hin by (by eapply list_elem_of_lookup_2).
    destruct (register_create_users data hashed token now emailSent loggedIn
                (App.store s))
      as (user & Hid & Hname & Hemail & _ & Husers & _).
    split; [split; [by apply register_create_ids | split] | split]; simpl.
    + rewrite Husers. apply unique_by_insert; [done |].
      intros j y Hy. rewrite Hname. by apply (Hw1 data j y).
    + rewrite Husers. apply unique_by_insert; [done |].
      intros j y Hy. rewrite Hemail. by apply (Hw1 data j y).
    + intros d k u Hd Hu. rewrite Husers in Hu.
      apply list_elem_of_lookup in Hd as [j Hd].
      apply lookup_delete_original in Hd.
      apply lookup_insert_Some in Hu as [[_ <-] | [_ Hu]].
      * rewrite Hname, Hemail.
        apply (Hw2 i _ data d Hi Hd). destruct (decide (j < i)%nat); lia.
      * apply (Hw1 d k u); [by eapply list_elem_of_lookup_2 | done].
    + intros j1 j2 d d' Hd Hd' Hne.
      apply lookup_delete_original in Hd, Hd'.
      apply (Hw2 _ _ d d' Hd Hd').
      destruct (decide (j1 < i)%nat), (decide (j2 < i)%nat); lia.
  - apply with_store_consistent; [apply verify_email_users_from | done..].
  - apply with_store_consistent;
      [apply resend_verification_users_from | done..].
  - apply with_store_consistent; [apply serve_users_from | done..].
Qed.

Lemma start_consistent :
  accounts_consistent (App.store App.start) ∧ waiting_apart App.start.
Proof.
  split; [split; [| split]; intros i; intros; by vm_compute in * |- |].
  split; simpl.
  - by intros d k u Hd%elem_of_nil.
  - by intros i j d d' Hd.
Qed.

Lemma serve_all_ids (requests : list App.request) : ∀ s,
  user_ids_match_keys (App.store s) →
  user_ids_match_keys (App.store (App.serve_all requests s)).
Proof.
  unfold App.serve_all.
  induction requests as [|r requests IH]; intros s Hs; [exact Hs |].
  simpl. by apply IH, handle_ids.
Qed.

Lemma serve_all_consistent (requests : list App.request) : ∀ s,
  registrations_apart requests s →
  accounts_consistent (App.store s) → waiting_apart s →
  accounts_consistent (App.store (App.serve_all requests s)).
Proof.
  unfold App.serve_all.
  induction requests as [|r requests IH]; intros s Hr Hc Hw; [exact Hc |].
  destruct Hr as [Hr Hrest].
  destruct (handle_consistent r s) as [Hc' Hw']; [by split | done | done |].
  simpl. by apply IH.
Qed.

(** X21: the accounts stay consistent as long as no two registrations
    with one username, or with one email, overlap.  On every store that
    the server reaches from the constructed one by the two parts of
    registrations, email verifications, resent verifications and
    requests to the bus, route, stop and driver endpoints, taken in any
    order, the [id] field of every user is the key it is stored under.
    If, in addition, no registration passes its checks while another
    with the same username or the same email waits for its hash, then
    no two users share a username and no two share an email. *)
Theorem accounts_stay_consistent (requests : list App.request) :
  let s := App.serve_all requests App.start in
  user_ids_match_keys (App.store s)
  ∧ (registrations_apart requests App.start →
     unique_by User.username (MemStorage.users (App.store s))
     ∧ unique_by User.email (MemStorage.users (App.store s))).
Proof.
  destruct start_consistent as [Hc Hw]. split.
  - apply serve_all_ids, Hc.
  - intros Hr. by apply serve_all_consistent.
Qed.

Lemma accounts_stay_consistent_witness :
  let ben :=
    User.mkInsert "ben" "ben@example.edu" "password2" "Ben Ode"
      (Some "student") None None None None None in
  let requests :=
    [App.RegisterChecks (Some ana); App.RegisterChecks (Some ben);
     App.RegisterCreate 1 "hash2.salt" "t1" 9 true true;
     App.RegisterChecks (Some ben);
     App.RegisterCreate 0 "hash.salt" "t0" 0 true true;
     App.VerifyEmail "t0" false true] in
  let s := App.serve_all requests App.start in
  registrations_apart requests App.start
  ∧ unique_by User.username (MemStorage.users (App.store s))
  ∧ unique_by User.email (MemStorage.users (App.store s)).
Proof.
  intros ben requests s.
  assert (registrations_apart requests App.start) as Hr.
  { repeat split.
    all: match goal with
         | Hc : Auth.register_checks _ _ = inr _, Hd : _ ∈ _ |- _ =>
             vm_compute in Hc, Hd; try discriminate Hc;
             try (by apply elem_of_nil in Hd);
             injection Hc as <-; apply list_elem_of_singleton in Hd as ->
         end.
    all: discriminate. }
  split; [exact Hr |].
  exact (proj2 (accounts_stay_consistent requests) Hr).
Defined.

Lemma serve_is_run (c : Routes.call) (req : Routes.request) st :
  ∃ ops, (Routes.serve c req st).2 = run ops st.
Proof.
  destruct c; simpl; unfold_handlers;
    try (by exists []);
    try (destruct (Routes.is_admin req); simpl; [| by exists []]);
    try (destruct (Routes.locationSchema (Routes.body req))
           as [[[lat lng] speed]|]; [| by exists []]);
    try (destruct (JS.parseInt (Routes.params_id req)) as [n|];
         [| by exists []]);
    try (by repeat case_match; exists []).
  - by exists [CreateBus body].
  - exists [UpdateBus n body]. simpl.
    by destruct (MemStorage.updateBus n body st) as [[?|] ?].
  - exists [UpdateBusLocation n {| lat := lat; lng := lng |} speed]. simpl.
    by destruct (MemStorage.updateBusLocation n _ speed st) as [[?|] ?].
  - by exists [CreateRoute body].
  - exists [UpdateRoute n body]. simpl.
    by destruct (MemStorage.updateRoute n body st) as [[?|] ?].
  - by exists [CreateBusStop body].
  - by exists [CreateDriver body].
  - exists [UpdateDriver n body]. simpl.
    by destruct (MemStorage.updateDriver n body st) as [[?|] ?].
Qed.

Lemma handle_is_run r s :
  ∃ ops, App.store (App.handle r s) = run ops (App.store s).
Proof.
  destruct r; simpl.
  - destruct (Auth.register_checks _ _); by exists [].
  - destruct (App.hashing s !! i) as [data|]; [| by exists []].
    exists [CreateUser (Auth.with_password data hashed) token now].
    unfold Auth.register_create. simpl. by destruct loggedIn.
  - unfold Auth.verify_email.
    destruct (MemStorage.getUserByVerificationToken token (App.store s))
      as [user|]; [| by exists []].
    exists [VerifyEmail (User.id user)]. simpl.
    destruct (MemStorage.verifyEmail (User.id user) (App.store s))
      as [[?|] ?]; [| done].
    by destruct (authenticated || loggedIn).
  - unfold Auth.resend_verification.
    destruct user as [session|]; [| by exists []].
    destruct (MemStorage.getUser (User.id session) (App.store s))
      as [stored|]; [| by exists []].
    destruct (bool_decide _); [by exists [] |].
    destruct (Auth.no_token stored); [| exists []; by destruct emailSent].
    exists [SetVerificationToken (User.id stored) token]. simpl.
    destruct (MemStorage.setVerificationToken (User.id stored) token
                (App.store s)) as [[?|] ?]; by destruct emailSent.
  - apply serve_is_run.
Qed.

Lemma serve_all_is_run (requests : list App.request) : ∀ s,
  ∃ ops, App.store (App.serve_all requests s) = run ops (App.store s).
Proof.
  unfold App.serve_all.
  induction requests as [|r requests IH]; intros s; [by exists [] |].
  simpl. destruct (handle_is_run r s) as [ops1 H1].
  destruct (IH (App.handle r s)) as [ops2 ->]. rewrite H1.
  exists (ops1 ++ ops2). by rewrite run_app.
Qed.

(** X22: every store that the server reaches from the constructed
    one by requests is a store that a sequence of storage calls
    reaches: the handlers change the store through the create and
    update methods of [MemStorage] only. *)
Theorem served_stores_are_runs (requests : list App.request) :
  ∃ ops,
    App.store (App.serve_all requests App.start)
      = run ops MemStorage.constructor.
Proof. apply (serve_all_is_run requests App.start). Qed.

Lemma same_account_refl (u : User.t) : same_account u u.
Proof. by repeat split. Qed.

Lemma same_account_trans (u v w : User.t) :
  same_account u v → same_account v w → same_account u w.
Proof.
  intros (Hi & Hn & He & Hp & Hv) (Hi' & Hn' & He' & Hp' & Hw).
  repeat split; try congruence. intros Hver. by apply Hw, Hv.
Qed.

(** One request keeps every stored account, on a store whose user keys
    are below the user counter. *)
Lemma handle_keeps_account r s (k : Z) (u : User.t) :
  (∀ j, is_Some (MemStorage.users (App.store s) !! j) →
        j < MemStorage.userId (App.store s)) →
  MemStorage.users (App.store s) !! k = Some u →
  ∃ u',
    MemStorage.users (App.store (App.handle r s)) !! k = Some u'
    ∧ same_account u u'.
Proof.
  intros Hbelow Hu. set (st := App.store s) in *.
  assert (∀ (j : Z) (x x' : User.t),
            MemStorage.users st !! j = Some x → same_account x x' →
            ∃ u', <[j := x']> (MemStorage.users st) !! k = Some u'
                  ∧ same_account u u') as Hupd.
  { intros j x x' Hx Hsame. destruct (decide (j = k)) as [->|Hne].
    - exists x'. rewrite lookup_insert_eq. split; [done |]. congruence.
    - exists u. rewrite lookup_insert_ne by done.
      split; [done | apply same_account_refl]. }
  assert (∃ u', MemStorage.users st !! k = Some u' ∧ same_account u u')
    as Hsame by (exists u; split; [done | apply same_account_refl]).
  destruct r; simpl; fold st.
  - by destruct (Auth.register_checks _ _).
  - destruct (App.hashing s !! i) as [data|]; [| done]. simpl.
    unfold Auth.register_create, MemStorage.createUser.
    assert (MemStorage.userId st ≠ k) as Hne.
    { intros <-. specialize (Hbelow (MemStorage.userId st) ltac:(eauto)). lia. }
    exists u. split; [| apply same_account_refl].
    destruct loggedIn; simpl; by rewrite lookup_insert_ne.
  - unfold Auth.verify_email.
    destruct (MemStorage.getUserByVerificationToken token st) as [user|];
      [| done].
    destruct (MemStorage.users st !! User.id user) as [x|] eqn:Hx.
    + rewrite (verifyEmail_found _ _ _ Hx).
      destruct (Hupd (User.id user) x (verified x) Hx) as (u' & Hu' & Hs);
        [by repeat split |].
      exists u'. split; [| done]. by destruct (authenticated || loggedIn).
    + unfold MemStorage.verifyEmail. by rewrite Hx.
  - unfold Auth.resend_verification, MemStorage.getUser.
    destruct user as [session|]; [| done].
    destruct (MemStorage.users st !! User.id session) as [stored|]; [| done].
    destruct (bool_decide _); [done |].
    destruct (Auth.no_token stored); [| by destruct emailSent].
    destruct (MemStorage.users st !! User.id stored) as [x|] eqn:Hx.
    + rewrite (setVerificationToken_found _ _ _ _ Hx).
      destruct (Hupd (User.id stored) x (with_token token x) Hx)
        as (u' & Hu' & Hs); [by repeat split |].
      exists u'. split; [| done]. by destruct emailSent.
    + unfold MemStorage.setVerificationToken. rewrite Hx.
      by destruct emailSent.
  - destruct (serve_users c req st) as [-> _]. done.
Qed.

Lemma handle_keys_below r s :
  keys_below_counters (App.store s) →
  keys_below_counters (App.store (App.handle r s)).
Proof.
  intros Hst. destruct (handle_is_run r s) as [ops ->].
  by apply run_keys_below.
Qed.

Lemma serve_all_keys_below (requests : list App.request) : ∀ s,
  keys_below_counters (App.store s) →
  keys_below_counters (App.store (App.serve_all requests s)).
Proof.
  unfold App.serve_all.
  induction requests as [|r requests IH]; intros s Hs; [exact Hs |].
  simpl. by apply IH, handle_keys_below.
Qed.

Lemma serve_all_keeps_account (requests : list App.request) :
  ∀ s (k : Z) (u : User.t),
    keys_below_counters (App.store s) →
    MemStorage.users (App.store s) !! k = Some u →
    ∃ u',
      MemStorage.users (App.store (App.serve_all requests s)) !! k = Some u'
      ∧ same_account u u'.
Proof.
  unfold App.serve_all.
  induction requests as [|r requests IH]; intros s k u Hs Hu.
  - exists u. split; [done | apply same_account_refl].
  - simpl.
    destruct (handle_keeps_account r s k u) as (v & Hv & Huv);
      [apply (Hs KUser) | done |].
    destruct (IH (App.handle r s) k v) as (w & Hw & Hvw);
      [by apply handle_keys_below | done |].
    exists w. split; [done |]. by eapply same_account_trans.
Qed.

(** X23: accounts are permanent.  A user that is stored after some
    requests is still stored under the same key after any further
    requests, with the same id, username, email and password; and once
    its email is verified it stays verified. *)
Theorem accounts_are_permanent (before after : list App.request) (k : Z)
    (u : User.t) :
  MemStorage.users (App.store (App.serve_all before App.start)) !! k
    = Some u →
  ∃ u',
    MemStorage.users
      (App.store (App.serve_all (before ++ after) App.start)) !! k
      = Some u'
    ∧ same_account u u'.
Proof.
  intros Hu. unfold App.serve_all at 1. rewrite foldl_app.
  apply serve_all_keeps_account; [| exact Hu].
  apply serve_all_keys_below, (reachable_keys_below []).
Qed.

Lemma accounts_are_permanent_witness :
  let before :=
    [App.RegisterChecks (Some ana);
     App.RegisterCreate 0 "hash.salt" "t0" 0 true true] in
  let after :=
    [App.VerifyEmail "t0" false true;
     App.Resource (Routes.PUT_bus take_out_of_service) (admin_put 0 0 0);
     App.ResendVerification (Some ana_user) "t1" true] in
  MemStorage.users (App.store (App.serve_all before App.start)) !! 1
    = Some ana_user
  ∧ ∃ u',
      MemStorage.users
        (App.store (App.serve_all (before ++ after) App.start)) !! 1
        = Some u'
      ∧ same_account ana_user u'.
Proof.
  intros before after.
  assert (MemStorage.users (App.store (App.serve_all before App.start)) !! 1
          = Some ana_user) as Hu by (vm_compute; reflexivity).
  split; [exact Hu |].
  apply (accounts_are_permanent before after 1 ana_user Hu).
Defined.

(** X27: two registrations that overlap store one username and one
    email twice.  From the constructed store, when two registrations
    with the same data both run their checks before either runs
    [createUser], once the two hashes are there both are answered 201,
    and the store holds two users, under the ids 1 and 2, with the
    username and the email of the data.  The store the server reaches
    is the one [register] leaves when the second registration has read
    the constructed store in its checks. *)
Theorem overlapping_registrations_share_names (data : User.insert)
    (hashed1 hashed2 token1 token2 : string) (now1 now2 : Z)
    (emailSent1 emailSent2 : bool) :
  let s :=
    App.serve_all
      [App.RegisterChecks (Some data); App.RegisterChecks (Some data);
       App.RegisterCreate 0 hashed1 token1 now1 emailSent1 true;
       App.RegisterCreate 0 hashed2 token2 now2 emailSent2 true]
      App.start in
  let first :=
    Auth.register (Some data) hashed1 token1 now1 emailSent1 true
      MemStorage.constructor MemStorage.constructor in
  let second :=
    Auth.register (Some data) hashed2 token2 now2 emailSent2 true
      MemStorage.constructor first.2 in
  ∃ user1 user2,
    first.1 = Auth.Registered user1 emailSent1
    ∧ second.1 = Auth.Registered user2 emailSent2
    ∧ App.store s = second.2
    ∧ MemStorage.users (App.store s) !! 1 = Some user1
    ∧ MemStorage.users (App.store s) !! 2 = Some user2
    ∧ User.username user1 = User.i_username data
    ∧ User.username user2 = User.i_username data
    ∧ User.email user1 = User.i_email data
    ∧ User.email user2 = User.i_email data.
Proof.
  assert (MemStorage.users MemStorage.constructor = ∅) as Hempty
    by (vm_compute; reflexivity).
  assert (MemStorage.userId MemStorage.constructor = 1) as Hone
    by (vm_compute; reflexivity).
  assert (Auth.register_checks (Some data) MemStorage.constructor = inr data)
    as Hchecks.
  { unfold Auth.register_checks.
    pose proof (getUserByUsername_first (User.i_username data)
                  MemStorage.constructor) as Hfn.
    pose proof (getUserByEmail_first (User.i_email data)
                  MemStorage.constructor) as Hfe.
    destruct (MemStorage.getUserByUsername _ _) as [y|].
    { destruct Hfn as (_ & k & Hk & _). by rewrite Hempty in Hk. }
    destruct (MemStorage.getUserByEmail _ _) as [y|]; [| done].
    destruct Hfe as (_ & k & Hk & _). by rewrite Hempty in Hk. }
  unfold App.serve_all, App.start, Auth.register. rewrite Hchecks.
  generalize dependent MemStorage.constructor. intros st Hempty Hone Hchecks.
  cbn [foldl App.handle App.store App.hashing]. rewrite Hchecks.
  cbn [App.store App.hashing app lookup list_lookup delete list_delete].
  rewrite Hchecks.
  cbn [App.store App.hashing app lookup list_lookup delete list_delete].
  destruct (register_create_users data hashed1 token1 now1 emailSent1 true st)
    as (user1 & Hid1 & Hn1 & He1 & _ & Hu1 & Hc1 & Hr1).
  set (first := Auth.register_create data hashed1 token1 now1 emailSent1 true
                  st) in *.
  destruct (register_create_users data hashed2 token2 now2 emailSent2 true
              first.2)
    as (user2 & Hid2 & Hn2 & He2 & _ & Hu2 & Hc2 & Hr2).
  exists user1, user2. rewrite Hu2, Hu1, Hc1, Hone.
  split; [done |]. split; [done |]. split; [done |].
  split; [| split; [apply lookup_insert_eq | done]].
  rewrite lookup_insert_ne by lia. apply lookup_insert_eq.
Qed.

End AppFacts.


(* ===================================================================== *)
(** * Products and quotients in binary64

    Multiplication by a positive number is monotone, and division of
    a positive number is antitone in the divisor: the facts behind the
    bounds on the estimates below. *)
(* ===================================================================== *)

Section Products.

(** The product of two valid positive numbers is their exact product
    rounded to nearest, ties to even. *)
Lemma SFmul_pack (mx my : positive) (ex ey : Z) :
  bounded prec emax mx ex = true → bounded prec emax my ey = true →
  ∃ n E,
    0 ≤ n ∧ n = E - (ex + ey)
    ∧ in_range (Z.pos mx * Z.pos my) (2 ^ n) E
    ∧ SFmul prec emax (S754_finite false mx ex) (S754_finite false my ey)
        = pack false (nearest_even (Z.pos mx * Z.pos my) (2 ^ n)) E.
Proof.
  intros (Hex & Hmx & Hlx)%bounded_rounded (Hey & Hmy & Hly)%bounded_rounded.
  unfold SFmul. simpl xorb. rewrite Pos2Z.inj_mul.
  set (a := Z.pos mx * Z.pos my).
  assert (0 < a) as Ha by (unfold a; lia).
  rewrite (binary_round_aux_exact false a (ex + ey)) by lia.
  rewrite fexp_eq.
  set (D := Zdigits2 a).
  set (E := Z.max (ex + ey) (Z.max (D + (ex + ey) - 53) (-1074))).
  set (n := E - (ex + ey)).
  assert (0 ≤ n) as Hn by (unfold n, E; lia).
  exists n, E. split; [exact Hn |]. split; [reflexivity |].
  split; [| reflexivity].
  assert (0 < 2 ^ n) as Hpn by (apply Z.pow_pos_nonneg; lia).
  pose proof (Zdigits2_nonneg a) as HD0. fold D in HD0.
  pose proof (Zdigits2_upper a ltac:(lia)) as Hup. fold D in Hup.
  pose proof (Zdigits2_lower a Ha) as Hlow. fold D in Hlow.
  split; [lia |]. split; [lia |]. split; [unfold E; lia |]. split.
  - assert (2 ^ D ≤ 2 ^ (53 + n)) as Hpow
      by (apply Z.pow_le_mono_r; unfold n, E; lia).
    rewrite Z.pow_add_r in Hpow by lia. lia.
  - intros HE.
    assert (53 ≤ D) as HD.
    { destruct (Z.le_gt_cases 53 D) as [|Hlt]; [done | exfalso].
      assert (a < 2 ^ 52) as Hsmall.
      { assert (2 ^ D ≤ 2 ^ 52) by (apply Z.pow_le_mono_r; lia). lia. }
      assert (-1074 < ex + ey) as He by (unfold E in HE; lia).
      change (2 ^ 53) with (2 * 2 ^ 52) in *. set (K := 2 ^ 52) in *.
      assert (0 < K) by (unfold K; lia).
      destruct (Z.eq_dec ex (-1074)) as [Hx0|Hx0];
        destruct (Z.eq_dec ey (-1074)) as [Hy0|Hy0].
      - lia.
      - specialize (Hly ltac:(lia)). unfold a in Hsmall. nia.
      - specialize (Hlx ltac:(lia)). unfold a in Hsmall. nia.
      - specialize (Hlx ltac:(lia)). specialize (Hly ltac:(lia)).
        unfold a in Hsmall. nia. }
    assert (n = D - 53) as Hnd by (unfold n, E in *; lia).
    replace (D - 1) with (52 + n) in Hlow by lia.
    rewrite Z.pow_add_r in Hlow by lia. lia.
Qed.

Lemma SFmul_nonneg (x : spec_float) (my : positive) (ey : Z) :
  valid_binary x = true → bounded prec emax my ey = true →
  nonneg_spec x = true →
  nonneg_spec (SFmul prec emax x (S754_finite false my ey)) = true.
Proof.
  destruct x as [s|[]| |[] mx ex]; try done. intros Hv Hy _.
  destruct (SFmul_pack mx my ex ey Hv Hy) as (n & E & _ & _ & Hr & ->).
  pose proof (nearest_even_in_range _ _ _ Hr) as Hnr.
  apply pack_nonneg. destruct Hr as (_ & _ & HE & _).
  split; [apply Hnr | split; [exact HE | apply Hnr]].
Qed.

Lemma SFmul_mono_finite (mx mx' my : positive) (ex ex' ey : Z) :
  bounded prec emax mx ex = true → bounded prec emax mx' ex' = true →
  bounded prec emax my ey = true →
  SFleb (S754_finite false mx ex) (S754_finite false mx' ex') = true →
  SFleb (SFmul prec emax (S754_finite false mx ex) (S754_finite false my ey))
        (SFmul prec emax (S754_finite false mx' ex') (S754_finite false my ey))
    = true.
Proof.
  intros Hx Hx' Hy Hle. pose proof (SFleb_value _ _ _ _ Hx Hx' Hle) as Hv.
  destruct (SFmul_pack mx my ex ey Hx Hy) as (n & E & Hn & HnE & Hr & ->).
  destruct (SFmul_pack mx' my ex' ey Hx' Hy) as (n' & E' & Hn' & HnE' & Hr' & ->).
  apply bounded_rounded in Hx as (Hex & _).
  apply bounded_rounded in Hx' as (Hex' & _).
  pose proof (nearest_even_in_range _ _ _ Hr) as Hnr.
  pose proof (nearest_even_in_range _ _ _ Hr') as Hnr'.
  assert (-1074 ≤ E ∧ -1074 ≤ E') as [HE HE'].
  { destruct Hr as (_ & _ & ? & _), Hr' as (_ & _ & ? & _). done. }
  apply pack_le; [split; [apply Hnr | split; [exact HE | apply Hnr]] |
                  split; [apply Hnr' | split; [exact HE' | apply Hnr']] |].
  apply rounded_le; [exact Hr | exact Hr' |].
  pose proof (pow_shift_le (Z.pos mx) (Z.pos mx') (ex + 1074) (ex' + 1074)
                (n' + E - ex) ltac:(lia) ltac:(lia)) as Hshift.
  replace (ex + 1074 + (n' + E - ex)) with (n' + (E + 1074)) in Hshift by lia.
  replace (ex' + 1074 + (n' + E - ex)) with (n + (E' + 1074)) in Hshift by lia.
  specialize (Hshift ltac:(lia) ltac:(lia) Hv).
  rewrite (Z.pow_add_r 2 n'), (Z.pow_add_r 2 n) in Hshift by lia.
  set (Pn := 2 ^ n) in *. set (Pn' := 2 ^ n') in *.
  set (PE := 2 ^ (E + 1074)) in *. set (PE' := 2 ^ (E' + 1074)) in *.
  replace (Z.pos mx * Z.pos my * Pn' * PE)
    with (Z.pos my * (Z.pos mx * (Pn' * PE))) by ring.
  replace (Z.pos mx' * Z.pos my * Pn * PE')
    with (Z.pos my * (Z.pos mx' * (Pn * PE'))) by ring.
  apply Z.mul_le_mono_nonneg_l; [lia | exact Hshift].
Qed.

(** Multiplication by a positive finite number is monotone on the
    non-negative numbers, plus infinity included. *)
Lemma SFmul_mono (x x' : spec_float) (my : positive) (ey : Z) :
  valid_binary x = true → valid_binary x' = true →
  bounded prec emax my ey = true →
  nonneg_spec x = true → SFleb x x' = true →
  SFleb (SFmul prec emax x (S754_finite false my ey))
        (SFmul prec emax x' (S754_finite false my ey)) = true.
Proof.
  intros Hv Hv' Hy Hx Hle.
  assert (nonneg_spec x' = true) as Hx'.
  { destruct x as [s|[]| |[] mx ex]; try done;
      destruct x' as [s'|[]| |[] mx' ex']; done. }
  pose proof (SFmul_nonneg x my ey Hv Hy Hx) as Hq.
  pose proof (SFmul_nonneg x' my ey Hv' Hy Hx') as Hq'.
  destruct x as [s|[]| |[] mx ex]; try done.
  - by apply nonneg_spec_leb_zero.
  - destruct x' as [s'|[]| |[] mx' ex']; done.
  - destruct x' as [s'|[]| |[] mx' ex']; try done.
    + change (SFmul prec emax (S754_infinity false) (S754_finite false my ey))
        with (S754_infinity false).
      by apply nonneg_spec_leb_infinity.
    + by apply SFmul_mono_finite.
Qed.

Lemma between_positive_finite (x : spec_float) (m m' : positive) (e e' : Z) :
  SFleb (S754_finite false m e) x = true →
  SFleb x (S754_finite false m' e') = true →
  ∃ mx ex, x = S754_finite false mx ex.
Proof. destruct x as [s|[]| |[] mx ex]; try done. eauto. Qed.

Lemma thousand_spec : Prim2SF 1000 = S754_finite false 8796093022208000 (-43).
Proof. reflexivity. Qed.

Lemma thirty_six_hundred_spec :
  Prim2SF 3600 = S754_finite false 7916483719987200 (-41).
Proof. reflexivity. Qed.

(** The conversion from km/h to m/s is monotone on the non-negative
    speeds. *)
Lemma to_mps_mono (v v' : float) :
  (0 <=? v)%float = true → (v <=? v')%float = true →
  SFleb (Prim2SF (v * 1000 / 3600)) (Prim2SF (v' * 1000 / 3600)) = true.
Proof.
  rewrite !FloatAxioms.leb_spec. change (Prim2SF 0) with (S754_zero false).
  intros H0%leb_zero_nonneg_spec Hle.
  rewrite (FloatAxioms.div_spec (v * 1000)), (FloatAxioms.div_spec (v' * 1000)).
  rewrite thirty_six_hundred_spec.
  apply SFdiv_mono; try apply Prim2SF_valid.
  - rewrite FloatAxioms.mul_spec, thousand_spec.
    apply SFmul_nonneg; [apply Prim2SF_valid | reflexivity | done].
  - rewrite !FloatAxioms.mul_spec, thousand_spec.
    apply SFmul_mono; try apply Prim2SF_valid; [reflexivity | done | done].
Qed.

(** Division of a positive finite number is antitone in a positive
    finite divisor. *)
Lemma SFdiv_anti_finite (mx my my' : positive) (ex ey ey' : Z) :
  bounded prec emax my ey = true → bounded prec emax my' ey' = true →
  SFleb (S754_finite false my ey) (S754_finite false my' ey') = true →
  SFleb (SFdiv prec emax (S754_finite false mx ex) (S754_finite false my' ey'))
        (SFdiv prec emax (S754_finite false mx ex) (S754_finite false my ey))
    = true.
Proof.
  intros Hy Hy' Hle. pose proof (SFleb_value _ _ _ _ Hy Hy' Hle) as Hv.
  apply bounded_rounded in Hy as (Hey & _).
  apply bounded_rounded in Hy' as (Hey' & _).
  destruct (SFdiv_pack mx my' ex ey') as (s & n & E & Hs & Hn & HsE & Hr & ->).
  destruct (SFdiv_pack mx my ex ey) as (s' & n' & E' & Hs' & Hn' & HsE' & Hr' & ->).
  pose proof (nearest_even_in_range _ _ _ Hr) as Hnr.
  pose proof (nearest_even_in_range _ _ _ Hr') as Hnr'.
  assert (-1074 ≤ E ∧ -1074 ≤ E') as [HE HE'].
  { destruct Hr as (_ & _ & ? & _), Hr' as (_ & _ & ? & _). done. }
  apply pack_le; [split; [apply Hnr | split; [exact HE | apply Hnr]] |
                  split; [apply Hnr' | split; [exact HE' | apply Hnr']] |].
  apply rounded_le; [exact Hr | exact Hr' |].
  pose proof (pow_shift_le (Z.pos my) (Z.pos my') (ey + 1074) (ey' + 1074)
                (s + n' + E - ey) ltac:(lia) ltac:(lia)) as Hshift.
  replace (ey + 1074 + (s + n' + E - ey)) with (s + (n' + (E + 1074)))
    in Hshift by lia.
  replace (ey' + 1074 + (s + n' + E - ey)) with (s' + (n + (E' + 1074)))
    in Hshift by lia.
  specialize (Hshift ltac:(lia) ltac:(lia) Hv).
  rewrite (Z.pow_add_r 2 s), (Z.pow_add_r 2 n'), (Z.pow_add_r 2 s'),
    (Z.pow_add_r 2 n) in Hshift by lia.
  set (Ps := 2 ^ s) in *. set (Ps' := 2 ^ s') in *.
  set (Pn := 2 ^ n) in *. set (Pn' := 2 ^ n') in *.
  set (PE := 2 ^ (E + 1074)) in *. set (PE' := 2 ^ (E' + 1074)) in *.
  replace (Z.pos mx * Ps * (Z.pos my * Pn') * PE)
    with (Z.pos mx * (Z.pos my * (Ps * (Pn' * PE)))) by ring.
  replace (Z.pos mx * Ps' * (Z.pos my' * Pn) * PE')
    with (Z.pos mx * (Z.pos my' * (Ps' * (Pn * PE')))) by ring.
  apply Z.mul_le_mono_nonneg_l; [lia | exact Hshift].
Qed.

End Products.

(* ===================================================================== *)
(** * Bounds on the arrival estimates *)
(* ===================================================================== *)

Section PanelFacts.

Lemma calculateETA_of_speed (bus : Bus.t) (d : float) :
  Client.calculateETA bus d = JS.Math_round (d / Client.speedMps bus / 60)%float.
Proof. reflexivity. Qed.

(** The minutes for a distance [d] at [y] metres per second are
    non-negative and non-decreasing in [d], for a positive finite [y]. *)
Lemma minutes_mono (y d d' : float) (my : positive) (ey : Z) :
  Prim2SF y = S754_finite false my ey →
  (0 <=? d)%float = true → (d <=? d')%float = true →
  (0 <=? JS.Math_round (d / y / 60))%float = true
  ∧ (JS.Math_round (d / y / 60) <=? JS.Math_round (d' / y / 60))%float = true.
Proof.
  intros Hy H0 Hle. rewrite !FloatAxioms.leb_spec in *.
  change (Prim2SF 0) with (S754_zero false) in *.
  apply leb_zero_nonneg_spec in H0.
  assert (nonneg_spec (Prim2SF (d / y)) = true) as Hn1.
  { rewrite FloatAxioms.div_spec, Hy. by apply SFdiv_nonneg. }
  assert (nonneg_spec (Prim2SF (d / y / 60)) = true) as Hn2.
  { rewrite (FloatAxioms.div_spec (d / y) 60), sixty_spec.
    by apply SFdiv_nonneg. }
  split.
  - apply nonneg_spec_leb_zero. by apply Math_round_nonneg.
  - apply Math_round_mono; [done |].
    rewrite (FloatAxioms.div_spec (d / y) 60),
      (FloatAxioms.div_spec (d' / y) 60), sixty_spec.
    apply SFdiv_mono; [apply Prim2SF_valid | apply Prim2SF_valid | done |].
    rewrite !FloatAxioms.div_spec, Hy.
    apply SFdiv_mono; [apply Prim2SF_valid | apply Prim2SF_valid | done | done].
Qed.

(** The minutes for a positive finite distance do not grow with the
    speed. *)
Lemma minutes_anti (y y' d : float) (my my' md : positive) (ey ey' ed : Z) :
  Prim2SF y = S754_finite false my ey →
  Prim2SF y' = S754_finite false my' ey' →
  Prim2SF d = S754_finite false md ed →
  SFleb (Prim2SF y) (Prim2SF y') = true →
  (JS.Math_round (d / y' / 60) <=? JS.Math_round (d / y / 60))%float = true.
Proof.
  intros Hy Hy' Hd Hle. rewrite FloatAxioms.leb_spec.
  pose proof (Prim2SF_valid y) as Hvy. rewrite Hy in Hvy.
  pose proof (Prim2SF_valid y') as Hvy'. rewrite Hy' in Hvy'.
  rewrite Hy, Hy' in Hle.
  assert (nonneg_spec (Prim2SF (d / y')) = true) as Hn1.
  { rewrite FloatAxioms.div_spec, Hy', Hd. by apply SFdiv_nonneg. }
  apply Math_round_mono.
  - rewrite (FloatAxioms.div_spec (d / y') 60), sixty_spec.
    by apply SFdiv_nonneg.
  - rewrite (FloatAxioms.div_spec (d / y') 60),
      (FloatAxioms.div_spec (d / y) 60), sixty_spec.
    apply SFdiv_mono; [apply Prim2SF_valid | apply Prim2SF_valid | done |].
    rewrite !FloatAxioms.div_spec, Hy, Hy', Hd.
    by apply SFdiv_anti_finite.
Qed.

Lemma float_of_spec (x : float) (s : spec_float) :
  Prim2SF x = s → x = SF2Prim s.
Proof. intros <-. symmetry. apply SF2Prim_Prim2SF. Qed.

(** X24: for every bus whose speed is unset, zero or NaN (20 km/h
    stands in) or at least 1 km/h, infinite included, the three
    estimates of the information panel lie between 0 and 216 minutes
    and are in non-decreasing order: the stop at 900 m first, then
    2100 m, then 3600 m. *)
Theorem panel_estimates_bounded (bus : Bus.t) :
  speed_usable bus = true →
  (0 <=? Client.calculateETA bus 900)%float = true
  ∧ (Client.calculateETA bus 900 <=? Client.calculateETA bus 2100)%float = true
  ∧ (Client.calculateETA bus 2100 <=? Client.calculateETA bus 3600)%float = true
  ∧ (Client.calculateETA bus 3600 <=? 216)%float = true.
Proof.
  intros Hs. rewrite !calculateETA_of_speed.
  assert (Client.speedMps bus = fallbackMps
          ∨ ∃ v, Client.speedMps bus = (v * 1000 / 3600)%float
                 ∧ (1 <=? v)%float = true) as [Hy | (v & Hy & Hv)].
  { unfold speed_usable in Hs. unfold Client.speedMps, JS.or_else.
    destruct (Bus.speed bus) as [v|]; [| by left].
    destruct (JS.truthy v) eqn:Ht; [| by left].
    right. exists v. by split. }
  { rewrite Hy. repeat split; vm_compute; reflexivity. }
  rewrite Hy.
  assert ((0 <=? 1)%float = true) as H01 by reflexivity.
  pose proof (to_mps_mono 1 v H01 Hv) as Hlow.
  set (y := (v * 1000 / 3600)%float) in *.
  change (Prim2SF (1 * 1000 / 3600))
    with (S754_finite false 5003999585967218 (-54)) in Hlow.
  destruct (Prim2SF y) as [s|[]| |[] my ey] eqn:Hsy; try done.
  - apply float_of_spec in Hsy. rewrite Hsy.
    repeat split; vm_compute; reflexivity.
  - assert ((0 <=? 900)%float = true ∧ (900 <=? 2100)%float = true
            ∧ (2100 <=? 3600)%float = true) as (H1 & H2 & H3)
      by (repeat split; reflexivity).
    destruct (minutes_mono y 900 2100 my ey Hsy H1 H2) as [Hnn H12].
    destruct (minutes_mono y 2100 3600 my ey Hsy
                ltac:(reflexivity) H3) as [_ H23].
    split; [exact Hnn |]. split; [exact H12 |]. split; [exact H23 |].
    change 216%float with (JS.Math_round (3600 / (1 * 1000 / 3600) / 60))%float.
    eapply (minutes_anti (1 * 1000 / 3600) y 3600);
      [reflexivity | exact Hsy | reflexivity |].
    by rewrite Hsy.
Qed.

Lemma panel_estimates_bounded_witness :
  speed_usable bus_101 = true
  ∧ (Client.calculateETA bus_101 3600 <=? 216)%float = true.
Proof.
  split; [reflexivity |]. apply (panel_estimates_bounded bus_101). reflexivity.
Defined.

End PanelFacts.

Section NearestFacts.

Lemma twenty_spec : Prim2SF 20 = S754_finite false 5629499534213120 (-48).
Proof. reflexivity. Qed.

Lemma SFltb_finite (m m' : positive) (e e' : Z) :
  SFltb (S754_finite false m e) (S754_finite false m' e') = true →
  e < e' ∨ (e = e' ∧ Z.pos m < Z.pos m').
Proof.
  unfold SFltb, SFcompare.
  destruct (Z.compare_spec e e') as [Heq|Hlt|Hgt]; [| by left | done].
  change (Pos.compare_cont Eq m m') with (Pos.compare m m').
  destruct (Pos.compare_spec m m') as [H|H|H]; try done. intros _. right. lia.
Qed.

(** A double below 1 is at most the double just below 1. *)
Lemma below_one (x : spec_float) :
  valid_binary x = true → SFltb x (Prim2SF 1) = true →
  nonneg_spec x = true →
  SFleb x (S754_finite false 9007199254740991 (-53)) = true.
Proof.
  change (Prim2SF 1) with (S754_finite false 4503599627370496 (-52)).
  destruct x as [s|[]| |[] m e]; try done. intros Hv Hlt _.
  apply bounded_rounded in Hv as (He & Hm & Hlo).
  apply SFltb_finite in Hlt. apply SFleb_finite.
  destruct (Z.eq_dec e (-53)) as [->|Hne]; [right; split; [done | lia] |].
  left. destruct Hlt as [Hlt | [-> Hlt]]; [lia |].
  specialize (Hlo ltac:(lia)). lia.
Qed.

(** [Math.floor(x) + 1] for a non-negative [x] below 20. *)
Lemma floor_succ_below_20 (x : float) :
  nonneg_spec (Prim2SF x) = true →
  SFleb (Prim2SF x) (S754_finite false 5629499534213119 (-48)) = true →
  ∃ n, 1 ≤ n ≤ 20 ∧ (JS.Math_floor x + 1)%float = JS.of_int n.
Proof.
  intros Hnn Hle. pose proof (Prim2SF_valid x) as Hv.
  unfold JS.Math_floor.
  destruct (Prim2SF x) as [s|[]| |[] m e] eqn:Hx; try done.
  - exists 1. split; [lia |]. apply float_of_spec in Hx. rewrite Hx.
    by destruct s.
  - pose proof (SFleb_value m 5629499534213119 e (-48) Hv ltac:(reflexivity)
                  Hle) as Hval.
    apply bounded_rounded in Hv as (He & Hm & Hlo).
    destruct (Z.leb_spec 0 e) as [He0|He0].
    + exfalso. specialize (Hlo ltac:(lia)).
      assert (2 ^ 1074 ≤ 2 ^ (e + 1074)) by (apply Z.pow_le_mono_r; lia).
      assert (0 < 2 ^ 1074) by (apply Z.pow_pos_nonneg; lia).
      change (-48 + 1074) with 1026 in Hval.
      assert (5629499534213119 * 2 ^ 1026 < 2 ^ 52 * 2 ^ 1074)
        by (vm_compute; reflexivity).
      set (P := 2 ^ 1074) in *. set (Q := 2 ^ (e + 1074)) in *.
      set (K := 2 ^ 52) in *.
      assert (K * P ≤ Z.pos m * Q) by nia. lia.
    + set (n := Z.pos m / 2 ^ (- e)).
      assert (0 ≤ n < 20) as Hn.
      { assert (0 < 2 ^ (- e)) as Hp by (apply Z.pow_pos_nonneg; lia).
        split; [apply Z.div_pos; lia |].
        apply Z.div_lt_upper_bound; [exact Hp |].
        assert (2 ^ (- e) * 2 ^ (e + 1074) = 2 ^ 1074) as Hsplit.
        { rewrite <- Z.pow_add_r by lia. f_equal. lia. }
        assert (0 < 2 ^ (e + 1074)) as Hq by (apply Z.pow_pos_nonneg; lia).
        change (-48 + 1074) with 1026 in Hval.
        assert (5629499534213119 * 2 ^ 1026 < 20 * 2 ^ 1074)
          by (vm_compute; reflexivity).
        set (P := 2 ^ 1074) in *. set (Q := 2 ^ (e + 1074)) in *.
        set (R := 2 ^ (- e)) in *.
        assert (Z.pos m * Q < 20 * (R * Q)) as Hlt by lia.
        replace (20 * (R * Q)) with (20 * R * Q) in Hlt by ring.
        apply Z.mul_lt_mono_pos_r in Hlt; lia. }
      exists (n + 1). split; [lia |].
      assert (n ∈ seqZ 0 20) as Hin by (apply elem_of_seqZ; lia).
      clearbody n. clear -Hin.
      repeat (apply elem_of_cons in Hin as [-> | Hin]; [reflexivity |]).
      by apply elem_of_nil in Hin.
Qed.

(** X25: when [Math.random()] returns numbers from 0 up to but not
    including 1, every estimate that [getNearestBuses] lists is a whole
    number of minutes from 1 to 20. *)
Theorem nearest_eta_between_1_and_20 (random : nat → float)
    (buses : option (list Bus.t)) (e : Bus.t * float) :
  (∀ i, (0 <=? random i)%float = true ∧ (random i <? 1)%float = true) →
  e ∈ Client.getNearestBuses random buses →
  ∃ n, 1 ≤ n ≤ 20 ∧ e.2 = JS.of_int n.
Proof.
  intros Hrandom He.
  assert (∃ i, e.2 = (JS.Math_floor (random i * 20) + 1)%float) as [i ->].
  { unfold Client.getNearestBuses in He.
    destruct buses as [[|b l]|]; [by apply elem_of_nil in He | |
                                  by apply elem_of_nil in He].
    apply list_elem_of_lookup in He as [i Hi].
    rewrite list_lookup_imap in Hi.
    destruct (take 3 (filter _ (b :: l)) !! i) as [x|]; [| discriminate Hi].
    injection Hi as <-. by exists i. }
  destruct (Hrandom i) as [H0 H1].
  rewrite FloatAxioms.leb_spec in H0. rewrite FloatAxioms.ltb_spec in H1.
  change (Prim2SF 0) with (S754_zero false) in H0.
  apply leb_zero_nonneg_spec in H0.
  pose proof (below_one _ (Prim2SF_valid (random i)) H1 H0) as Hle.
  apply floor_succ_below_20.
  - rewrite FloatAxioms.mul_spec, twenty_spec.
    apply SFmul_nonneg; [apply Prim2SF_valid | reflexivity | done].
  - change (S754_finite false 5629499534213119 (-48))
      with (SFmul prec emax (S754_finite false 9007199254740991 (-53))
              (S754_finite false 5629499534213120 (-48))).
    rewrite FloatAxioms.mul_spec, twenty_spec.
    apply SFmul_mono; [apply Prim2SF_valid | reflexivity | reflexivity
                      | done | done].
Qed.

Lemma nearest_eta_between_1_and_20_witness :
  let random := λ _ : nat, 0.5%float in
  (∀ i, (0 <=? random i)%float = true ∧ (random i <? 1)%float = true)
  ∧ (bus_101, 11%float) ∈ Client.getNearestBuses random (Some [bus_101])
  ∧ ∃ n, 1 ≤ n ≤ 20 ∧ 11%float = JS.of_int n.
Proof.
  intros random.
  assert (∀ i, (0 <=? random i)%float = true
               ∧ (random i <? 1)%float = true) as Hr
    by (intros i; split; reflexivity).
  assert ((bus_101, 11%float)
            ∈ Client.getNearestBuses random (Some [bus_101])) as Hin
    by (vm_compute; left).
  split; [exact Hr |]. split; [exact Hin |].
  exact (nearest_eta_between_1_and_20 random (Some [bus_101])
           (bus_101, 11%float) Hr Hin).
Defined.

End NearestFacts.

(* ===================================================================== *)
(** * From the store to the home page *)
(* ===================================================================== *)

Section HomePageFacts.

(** Of a list without repetition, the first [n] elements that pass a
    test include every passing element that comes before one of them. *)
Lemma take_filter_earlier {B} (P : B → Prop) `{∀ b, Decision (P b)}
    (l : list B) : ∀ (n i j : nat) (x y : B),
  NoDup l → l !! j = Some y → l !! i = Some x → (j < i)%nat → P y →
  x ∈ take n (filter P l) → y ∈ take n (filter P l).
Proof.
  induction l as [|a l IH]; intros n i j x y Hnd Hj Hi Hji Hy Hx; [done |].
  apply NoDup_cons in Hnd as [Ha Hnd].
  destruct i as [|i]; [lia |]. simpl in Hi.
  rewrite filter_cons in Hx |- *.
  destruct j as [|j]; simpl in Hj.
  - injection Hj as ->. rewrite decide_True in Hx |- * by done.
    destruct n as [|n]; [by apply elem_of_nil in Hx | left].
  - destruct (decide (P a)).
    + destruct n as [|n]; [by apply elem_of_nil in Hx |]. simpl in Hx |- *.
      apply elem_of_cons in Hx as [-> | Hx].
      * destruct Ha. by eapply list_elem_of_lookup_2.
      * right. eapply (IH n i j x y); [done.. | lia | done | done].
    + eapply (IH n i j x y); [done.. | lia | done | done].
Qed.

Lemma values_NoDup {A} (m : gmap Z A) :
  (∀ i j x, m !! i = Some x → m !! j = Some x → i = j) →
  NoDup (MemStorage.values m).
Proof.
  intros Hinj. apply NoDup_alt. intros i j x Hi Hj.
  pose proof (keys_values m) as Hkv.
  destruct (Forall2_lookup_r _ _ _ _ _ Hkv Hi) as (ki & Hki & Hmi).
  destruct (Forall2_lookup_r _ _ _ _ _ Hkv Hj) as (kj & Hkj & Hmj).
  assert (ki = kj) as -> by (by eapply Hinj).
  by eapply (proj1 (NoDup_alt _) (keys_NoDup m)).
Qed.

(** The buses that [getNearestBuses] lists, without the estimates. *)
Lemma nearest_buses_listed (random : nat → float) (l : list Bus.t) :
  (Client.getNearestBuses random (Some l)).*1
    = take 3 (filter (λ bus, Bus.status bus ≠ "out-of-service") l).
Proof.
  unfold Client.getNearestBuses. destruct l as [|b l]; [done |].
  apply list_eq. intros i. rewrite list_lookup_fmap, list_lookup_imap.
  by destruct (take 3 _ !! i).
Qed.

(** X26: the buses listed as nearest are those with the lowest keys.
    When the home page is given what [getBuses] returns and no two
    stored buses have the same id, a bus that [getNearestBuses] lists
    brings with it every bus that is not out of service and is stored
    under a smaller key, whatever the positions of the buses. *)
Theorem nearest_buses_have_lowest_keys (random : nat → float)
    (st : MemStorage.t) (k k' : Z) (bus bus' : Bus.t) :
  unique_by Bus.id (MemStorage.buses st) →
  MemStorage.buses st !! k = Some bus →
  MemStorage.buses st !! k' = Some bus' →
  k' < k → Bus.status bus' ≠ "out-of-service" →
  bus ∈ (Client.getNearestBuses random (Some (MemStorage.getBuses st))).*1 →
  bus' ∈ (Client.getNearestBuses random (Some (MemStorage.getBuses st))).*1.
Proof.
  intros Huniq Hk Hk' Hlt Hstatus. rewrite nearest_buses_listed.
  unfold MemStorage.getBuses.
  pose proof (keys_values (MemStorage.buses st)) as Hkv.
  assert (k ∈ MemStorage.keys (MemStorage.buses st)) as Hin
    by (by apply elem_of_keys).
  assert (k' ∈ MemStorage.keys (MemStorage.buses st)) as Hin'
    by (by apply elem_of_keys).
  apply list_elem_of_lookup in Hin as (i & Hi).
  apply list_elem_of_lookup in Hin' as (j & Hj).
  destruct (Forall2_lookup_l _ _ _ _ _ Hkv Hi) as (x & Hx & Hkx).
  destruct (Forall2_lookup_l _ _ _ _ _ Hkv Hj) as (y & Hy & Hky).
  rewrite Hk in Hkx. injection Hkx as <-.
  rewrite Hk' in Hky. injection Hky as <-.
  assert (j < i)%nat as Hji.
  { destruct (decide (j < i)%nat) as [|Hge]; [done | exfalso].
    pose proof (sorted_lookup_le _ (keys_sorted (MemStorage.buses st))
                  i j k k' ltac:(lia) Hi Hj). lia. }
  apply (take_filter_earlier _ _ 3 i j bus bus'); try done.
  apply values_NoDup. intros a b z Ha Hb. by eapply Huniq.
Qed.

Lemma nearest_buses_have_lowest_keys_witness :
  let random := λ _ : nat, 0.5%float in
  unique_by Bus.id (MemStorage.buses MemStorage.constructor)
  ∧ MemStorage.buses MemStorage.constructor !! 3 = Some bus_303
  ∧ MemStorage.buses MemStorage.constructor !! 1 = Some bus_101
  ∧ 1 < 3 ∧ Bus.status bus_101 ≠ "out-of-service"
  ∧ bus_303
      ∈ (Client.getNearestBuses random
           (Some (MemStorage.getBuses MemStorage.constructor))).*1
  ∧ bus_101
      ∈ (Client.getNearestBuses random
           (Some (MemStorage.getBuses MemStorage.constructor))).*1.
Proof.
  intros random.
  assert (unique_by Bus.id (MemStorage.buses MemStorage.constructor)) as Hu.
  { intros i j x y Hx Hy Hxy.
    pose proof (constructor_ids_match_keys KBus i x Hx) as Hi.
    pose proof (constructor_ids_match_keys KBus j y Hy) as Hj.
    simpl in Hi, Hj. congruence. }
  assert (MemStorage.buses MemStorage.constructor !! 3 = Some bus_303) as H3
    by (vm_compute; reflexivity).
  assert (MemStorage.buses MemStorage.constructor !! 1 = Some bus_101) as H1
    by (vm_compute; reflexivity).
  assert (Bus.status bus_101 ≠ "out-of-service") as Hs by done.
  assert (bus_303
            ∈ (Client.getNearestBuses random
                 (Some (MemStorage.getBuses MemStorage.constructor))).*1)
    as Hin by (vm_compute; right; right; left).
  split; [exact Hu |]. split; [exact H3 |]. split; [exact H1 |].
  split; [lia |]. split; [exact Hs |]. split; [exact Hin |].
  exact (nearest_buses_have_lowest_keys random MemStorage.constructor 3 1
           bus_303 bus_101 Hu H3 H1 ltac:(lia) Hs Hin).
Defined.

End HomePageFacts.
